(** * MidgardMap: graph model, weighted router and trip simulator

    A shallow embedding of the core of the MidgardMap tools:
    - [createGraph.py]   : class [Graph] (add_node, add_edge, to_dict, from_dict);
    - [graph_editor.py]  : class [GraphData] (load, save, ensure_node,
                           remove_node, find_edge_index, upsert_edge,
                           remove_edge) and the node and edge forms of
                           [GraphEditorApp] (save_node, save_edge, the node
                           list and its selection);
    - [travel_gui.py]    : prepare_graph, difficulty_for_edge, speed_for_mode,
                           shortest_path, ActiveLeg and TravelSession.

    Python floats are modelled as exact rationals [Q]; Python dicts with
    string keys as stdpp's [gmap string _]; JSON attribute values as the
    inductive [value]. *)

From Stdlib Require Import QArith Qminmax Qabs Lqa.
From stdpp Require Import base gmap strings list sorting.

Open Scope Q_scope.
Set Warnings "-register-all".

(* ------------------------------------------------------------------ *)
(** ** JSON attribute values and attribute bags *)

Inductive value : Type :=
| VNum (q : Q)
| VStr (s : string)
| VBool (b : bool)
| VNull
| VList (l : list value).

(** An open-ended attribute bag (a Python dict with string keys). *)
Abbreviation attrs := (gmap string value).

(** Python's [float(v)] on a JSON value.  Numbers and booleans convert;
    [None] and lists raise [TypeError] ([None] here).  Strings are parsed
    by Python's float; the model treats them as unparsable (it does not
    embed Python's float-literal grammar). *)
Definition py_float (v : value) : option Q :=
  match v with
  | VNum q => Some q
  | VBool b => Some (if b then 1 else 0)
  | _ => None
  end.

(** A JSON value used as a number operand ([base * difficulty],
    [total += x]): numbers and booleans are numeric, everything else is a
    [TypeError]. *)
Definition py_num (v : value) : option Q :=
  match v with
  | VNum q => Some q
  | VBool b => Some (if b then 1 else 0)
  | _ => None
  end.

(** Python's [min(a, b)]: returns [a] unless [b < a]. *)
Definition py_min (a b : Q) : Q := if Qlt_le_dec b a then b else a.

(** [ActiveLeg.remaining_km] uses [max(0.0, x)]: returns [0.0] unless [x > 0]. *)
Definition py_max0 (x : Q) : Q := if Qlt_le_dec 0 x then x else 0.

(** Python truthiness of a [str | None]. *)
Definition truthy (o : option string) : bool :=
  match o with
  | Some s => negb (String.eqb s "")
  | None => false
  end.

(* ------------------------------------------------------------------ *)
(** ** travel_gui.py: lookup tables and difficulty resolution *)

Definition SPEEDS_KMH : gmap string Q :=
  list_to_map [("foot", 45 # 10); ("horse", 7); ("wagon", 5);
               ("pack_lizard", 6); ("barge", 6); ("river_boat", 9);
               ("row", 55 # 10); ("sail", 12); ("knarr", 10)].

Definition ROUTE_DIFFICULTY : gmap string Q :=
  list_to_map [("road", 1); ("trail", 85 # 100); ("mountain_pass", 7 # 10);
               ("shore", 1); ("sea", 1)].

(** [SPEEDS_KMH.get(mode, 4.5)] *)
Definition speed_for_mode (mode : string) : Q :=
  match SPEEDS_KMH !! mode with
  | Some s => s
  | None => 45 # 10
  end.

(** [ROUTE_DIFFICULTY.get(attrs.get("route_type"), 1.0)]: a missing
    route type is [None], which is no key of the table; a list is
    unhashable and raises [TypeError]. *)
Definition route_type_difficulty (rt : option value) : option Q :=
  match rt with
  | Some (VStr s) =>
      match ROUTE_DIFFICULTY !! s with
      | Some d => Some d
      | None => Some 1
      end
  | Some (VList _) => None
  | _ => Some 1
  end.

(** [difficulty_for_edge(attrs)]; [None] is a raised exception. *)
Definition difficulty_for_edge (a : attrs) : option Q :=
  match a !! "difficulty_factor" with
  | Some v => py_float v
  | None =>
      match a !! "difficulty_modifier" with
      | Some v => py_float v
      | None => route_type_difficulty (a !! "route_type")
      end
  end.

(** [attrs.get("approx_distance_km", 0.0)] *)
Definition approx_distance (a : attrs) : value :=
  match a !! "approx_distance_km" with
  | Some v => v
  | None => VNum 0
  end.

(** Edge weight in [shortest_path]: [base * difficulty_for_edge(attrs)]. *)
Definition edge_weight (a : attrs) : option Q :=
  match py_num (approx_distance a) with
  | Some base =>
      match difficulty_for_edge a with
      | Some d => Some (base * d)
      | None => None
      end
  | None => None
  end.

(* ------------------------------------------------------------------ *)
(** ** travel_gui.py: ActiveLeg and TravelSession *)

(** Adjacency view built by [prepare_graph]: node id to its list of
    (neighbour, edge attributes) pairs. *)
Abbreviation adjacency_t := (gmap string (list (string * attrs))).

Record ActiveLeg : Type := mkLeg {
  origin : string;
  destination : string;
  leg_attrs : attrs;
  distance_km : Q;
  traveled_km : Q
}.

(** [ActiveLeg.remaining_km] *)
Definition remaining_km (l : ActiveLeg) : Q := py_max0 (distance_km l - traveled_km l).

(** Entries of [TravelSession.log].  The source formats each entry as an
    f-string; the model keeps the data each line is built from. *)
Inductive log_entry : Type :=
| LogTripBegins (start dest : string)
| LogDeparted (from to : string) (dist : Q) (route : value)
| LogDay (day : nat) (mode : string) (hours speed difficulty traveled : Q)
| LogArrived (city : string).

Record TravelSession : Type := mkSession {
  nodes : gmap string attrs;
  adjacency : adjacency_t;
  start_city : option string;
  destination_city : option string;
  current_city : option string;
  active_leg : option ActiveLeg;
  day : nat;
  total_traveled_km : Q;
  log : list log_entry
}.

(** The exceptions raised by the session methods.  [UnknownNode],
    [SameLocation], [NoSuchRoute] and [NonPositiveHours] are the
    [ValueError]s of the source, [AlreadyTraveling] and [NoActiveLeg] its
    [RuntimeError]s; [TypeError] is what [float(...)] raises on a
    non-numeric attribute. *)
Inductive exn : Type :=
| UnknownNode | AlreadyTraveling | SameLocation | NoSuchRoute
| NoActiveLeg | NonPositiveHours | TypeError.

(** Methods mutate [self] and may raise: a state monad whose outcome is a
    return value or an exception, the state being the one at the point of
    return or of the raise. *)
Inductive outcome (A : Type) : Type :=
| Ok (a : A)
| Raise (e : exn).
Arguments Ok {A} a.
Arguments Raise {A} e.

Definition M (A : Type) : Type := TravelSession -> outcome A * TravelSession.

Definition ret {A} (a : A) : M A := fun s => (Ok a, s).
Definition raise {A} (e : exn) : M A := fun s => (Raise e, s).
Definition bind {A B} (m : M A) (k : A -> M B) : M B :=
  fun s => match m s with
           | (Ok a, s') => k a s'
           | (Raise e, s') => (Raise e, s')
           end.
Definition get : M TravelSession := fun s => (Ok s, s).
Definition put (s : TravelSession) : M unit := fun _ => (Ok tt, s).
Definition modify (f : TravelSession -> TravelSession) : M unit := fun s => (Ok tt, f s).

(** Lift a computation that may raise [TypeError]. *)
Definition lift_opt {A} (o : option A) : M A :=
  match o with
  | Some a => ret a
  | None => raise TypeError
  end.

Notation "'let*' x := m 'in' k" := (bind m (fun x => k))
  (at level 200, x name, m at level 100, k at level 200).
Notation "m ;; k" := (bind m (fun _ => k)) (at level 100, right associativity).

Definition set_active_leg (l : option ActiveLeg) (s : TravelSession) : TravelSession :=
  mkSession (nodes s) (adjacency s) (start_city s) (destination_city s)
            (current_city s) l (day s) (total_traveled_km s) (log s).
Definition set_current_city (c : option string) (s : TravelSession) : TravelSession :=
  mkSession (nodes s) (adjacency s) (start_city s) (destination_city s)
            c (active_leg s) (day s) (total_traveled_km s) (log s).
Definition set_day (d : nat) (s : TravelSession) : TravelSession :=
  mkSession (nodes s) (adjacency s) (start_city s) (destination_city s)
            (current_city s) (active_leg s) d (total_traveled_km s) (log s).
Definition set_total (t : Q) (s : TravelSession) : TravelSession :=
  mkSession (nodes s) (adjacency s) (start_city s) (destination_city s)
            (current_city s) (active_leg s) (day s) t (log s).
Definition append_log (e : log_entry) (s : TravelSession) : TravelSession :=
  mkSession (nodes s) (adjacency s) (start_city s) (destination_city s)
            (current_city s) (active_leg s) (day s) (total_traveled_km s) (log s ++ [e]).

(** [TravelSession.reset_trip(start, destination)] *)
Definition reset_trip (start dest : string) : M unit :=
  let* s := get in
  if bool_decide (is_Some (nodes s !! start)) && bool_decide (is_Some (nodes s !! dest))
  then put (mkSession (nodes s) (adjacency s) (Some start) (Some dest) (Some start)
                      None 0 0 [LogTripBegins start dest])
  else raise UnknownNode.

(** [TravelSession.available_routes()] *)
Definition available_routes (s : TravelSession) : list (string * attrs) :=
  match current_city s with
  | Some c => if truthy (Some c) then
                match adjacency s !! c with Some l => l | None => [] end
              else []
  | None => []
  end.

(** [{neighbor: attrs for neighbor, attrs in routes}]: a later entry for the
    same neighbour overwrites an earlier one. *)
Definition routes_dict (routes : list (string * attrs)) : gmap string attrs :=
  fold_left (fun m '(k, v) => <[k := v]> m) routes ∅.

(** [TravelSession.start_leg(destination)] *)
Definition start_leg (dest : string) : M ActiveLeg :=
  let* s := get in
  match active_leg s with
  | Some _ => raise AlreadyTraveling
  | None =>
      if bool_decide (Some dest = current_city s) then raise SameLocation else
      match routes_dict (available_routes s) !! dest with
      | None => raise NoSuchRoute
      | Some a =>
          let* dist := lift_opt (py_float (approx_distance a)) in
          let orig := match current_city s with Some c => c | None => "" end in
          let leg := mkLeg orig dest a dist 0 in
          modify (set_active_leg (Some leg)) ;;
          modify (append_log (LogDeparted orig dest dist
                    (match a !! "route_type" with Some v => v | None => VStr "route" end))) ;;
          ret leg
      end
  end.

(** [math.isclose(a, b)] with the defaults [rel_tol=1e-9], [abs_tol=0.0]. *)
Definition rel_tol : Q := 1 # 1000000000.
Definition isclose (a b : Q) : bool :=
  Qeq_bool a b
  || Qle_bool (Qabs (b - a)) (Qabs (rel_tol * b))
  || Qle_bool (Qabs (b - a)) (Qabs (rel_tol * a))
  || Qle_bool (Qabs (b - a)) 0.

(** The dict returned by [travel_day]. *)
Record DayResult : Type := mkDayResult {
  res_day : nat;
  res_traveled_km : Q;
  res_remaining_leg_km : Q;
  res_at_city : option string;
  res_reached_destination : bool
}.

(** [TravelSession.travel_day(mode, hours)] *)
Definition travel_day (mode : string) (hours : Q) : M DayResult :=
  let* s := get in
  match active_leg s with
  | None => raise NoActiveLeg
  | Some leg =>
      if Qle_bool hours 0 then raise NonPositiveHours else
      modify (fun s => set_day (S (day s)) s) ;;
      let speed := speed_for_mode mode in
      let* difficulty := lift_opt (difficulty_for_edge (leg_attrs leg)) in
      let potential_km := speed * hours * difficulty in
      let remaining := remaining_km leg in
      let traveled := py_min potential_km remaining in
      let leg' := mkLeg (origin leg) (destination leg) (leg_attrs leg)
                        (distance_km leg) (traveled_km leg + traveled) in
      modify (set_active_leg (Some leg')) ;;
      modify (fun s => set_total (total_traveled_km s + traveled) s) ;;
      let reached := isclose (traveled_km leg') (distance_km leg')
                     || Qle_bool (distance_km leg') (traveled_km leg') in
      let* s1 := get in
      modify (append_log (LogDay (day s1) mode hours speed difficulty traveled)) ;;
      (if reached
       then modify (set_current_city (Some (destination leg'))) ;;
            modify (append_log (LogArrived (destination leg'))) ;;
            modify (set_active_leg None)
       else ret tt) ;;
      let* s2 := get in
      ret (mkDayResult (day s2) traveled
             (match active_leg s2 with Some l => remaining_km l | None => 0 end)
             (current_city s2)
             (match active_leg s2 with Some _ => false | None => true end))
  end.

(** [TravelSession(nodes, adjacency)]: a fresh session. *)
Definition new_session (ns : gmap string attrs) (adj : adjacency_t) : TravelSession :=
  mkSession ns adj None None None None 0 0 [].

(** Sessions reachable from a fresh one by successful calls. *)
Inductive session_reachable (s0 : TravelSession) : TravelSession -> Prop :=
| reach_init : session_reachable s0 s0
| reach_reset s a b s' :
    session_reachable s0 s -> reset_trip a b s = (Ok tt, s') -> session_reachable s0 s'
| reach_start s d l s' :
    session_reachable s0 s -> start_leg d s = (Ok l, s') -> session_reachable s0 s'
| reach_travel s m h r s' :
    session_reachable s0 s -> travel_day m h s = (Ok r, s') -> session_reachable s0 s'.

(** The difficulty resolution as the specification words it (§4.2):
    explicit factor, else modifier, else the route-type table, 1.0 for
    unknown or missing types. *)
Definition spec_route_table (rt : string) : Q :=
  if String.eqb rt "road" then 1
  else if String.eqb rt "trail" then 85 # 100
  else if String.eqb rt "mountain_pass" then 7 # 10
  else if String.eqb rt "shore" then 1
  else if String.eqb rt "sea" then 1
  else 1.

Definition difficulty_spec (a : attrs) : Q :=
  match a !! "difficulty_factor" with
  | Some (VNum q) => q
  | _ =>
      match a !! "difficulty_modifier" with
      | Some (VNum q) => q
      | _ =>
          match a !! "route_type" with
          | Some (VStr rt) => spec_route_table rt
          | _ => 1
          end
      end
  end.

(** The typed fields the resolution reads: difficulty attributes, when
    present, are numbers; a route type, when present, is not a list. *)
Definition difficulty_typed (a : attrs) : Prop :=
  (forall v, a !! "difficulty_factor" = Some v -> exists q, v = VNum q) /\
  (forall v, a !! "difficulty_modifier" = Some v -> exists q, v = VNum q) /\
  (forall l, a !! "route_type" <> Some (VList l)).

(** Edges whose distance and difficulty, when numeric, are non-negative. *)
Definition adjacency_nonneg (adj : adjacency_t) : Prop :=
  forall u es v a, adj !! u = Some es -> In (v, a) es ->
    (forall q, py_float (approx_distance a) = Some q -> 0 <= q) /\
    (forall f, difficulty_for_edge a = Some f -> 0 <= f).

(** Sample data: the two-node graph A--B joined by a 50 km edge. *)
Definition edge_attrs_50 (extra : attrs) : attrs :=
  <["approx_distance_km" := VNum 50]> (<["route_type" := VStr "road"]> extra).

Definition session_AB (a : attrs) : TravelSession :=
  new_session (<["A" := ∅]> (<["B" := ∅]> ∅))
              (<["A" := [("B", a)]]> (<["B" := [("A", a)]]> ∅)).

(** [reset_trip("A", "B")], [start_leg("B")], then [travel_day(mode, hours)]. *)
Definition leg_AB_then_day (mode : string) (hours : Q) : M DayResult :=
  reset_trip "A" "B" ;; start_leg "B" ;; travel_day mode hours.

(** A session whose current location is the empty node id. *)
Definition session_empty_id : TravelSession :=
  mkSession (<["" := ∅]> (<["B" := ∅]> ∅))
            (<["" := [("B", edge_attrs_50 ∅)]]> (<["B" := [("", edge_attrs_50 ∅)]]> ∅))
            (Some "") (Some "B") (Some "") None 0 0 [].

(* ------------------------------------------------------------------ *)
(** ** createGraph.py: class Graph *)

Record Graph : Type := mkGraph {
  g_nodes : gmap string attrs;
  (** undirected edges keyed by the sorted node pair *)
  g_edges : gmap (string * string) attrs
}.

Definition empty_graph : Graph := mkGraph ∅ ∅.

(** [tuple(sorted((a, b)))] *)
Definition sorted_pair (a b : string) : string * string :=
  if String.ltb b a then (b, a) else (a, b).

(** A keyword argument that collides with a named parameter of the method
    ([self] and the positional ones) makes the call raise [TypeError]. *)
Definition kwargs_clash (names : list string) (a : attrs) : bool :=
  existsb (fun k => bool_decide (is_Some (a !! k))) ("self" :: names).

(** [Graph.add_node(node_id, **attrs)]: [payload = {"id": node_id, **attrs}],
    merged into an existing node by [dict.update]. *)
Definition add_node (g : Graph) (node_id : string) (a : attrs) : option Graph :=
  if kwargs_clash ["node_id"] a then None else
  let payload := a ∪ {[ "id" := VStr node_id ]} in
  match g_nodes g !! node_id with
  | Some old => Some (mkGraph (<[node_id := payload ∪ old]> (g_nodes g)) (g_edges g))
  | None => Some (mkGraph (<[node_id := payload]> (g_nodes g)) (g_edges g))
  end.

(** The fixed part of an edge payload. *)
Definition edge_header (k : string * string) : attrs :=
  <["nodes" := VList [VStr k.1; VStr k.2]]> {[ "undirected" := VBool true ]}.

(** [Graph.add_edge(source, target, **attrs)] *)
Definition add_edge (g : Graph) (source target : string) (a : attrs) : option Graph :=
  if kwargs_clash ["source"; "target"] a then None else
  if bool_decide (is_Some (g_nodes g !! source)) && bool_decide (is_Some (g_nodes g !! target))
  then
    let key := sorted_pair source target in
    let payload := a ∪ edge_header key in
    match g_edges g !! key with
    | Some old => Some (mkGraph (g_nodes g) (<[key := payload ∪ old]> (g_edges g)))
    | None => Some (mkGraph (g_nodes g) (<[key := payload]> (g_edges g)))
    end
  else None.

(** Python's ordering of node ids and of (str, str) tuples. *)
Definition str_le (x y : string) : Prop := String.leb x y = true.
Definition pair_le (x y : string * string) : Prop :=
  String.ltb x.1 y.1 = true \/ (x.1 = y.1 /\ String.leb x.2 y.2 = true).
#[global] Instance str_le_dec : RelDecision str_le.
Proof. intros x y. unfold str_le. apply _. Defined.
#[global] Instance pair_le_dec : RelDecision pair_le.
Proof. intros x y. unfold pair_le. apply _. Defined.

(** The JSON document [{"nodes": [...], "edges": [...]}]. *)
Record Document : Type := mkDoc {
  doc_nodes : list attrs;
  doc_edges : list attrs
}.

(** [Graph.to_dict()]: payloads in sorted key order. *)
Definition to_dict (g : Graph) : Document :=
  mkDoc (omap (fun k => g_nodes g !! k) (merge_sort str_le (map fst (map_to_list (g_nodes g)))))
        (omap (fun k => g_edges g !! k) (merge_sort pair_le (map fst (map_to_list (g_edges g))))).

(** [len(v)] on a JSON value; [None] when [len] raises [TypeError]. *)
Definition py_len (v : value) : option nat :=
  match v with
  | VList l => Some (length l)
  | VStr s => Some (String.length s)
  | _ => None
  end.

(** [a, b = v] for a value of length two; node ids are strings in this
    model, a non-string endpoint is never a node and [add_edge] raises. *)
Definition unpack2 (v : value) : option (string * string) :=
  match v with
  | VList [VStr a; VStr b] => Some (a, b)
  | VStr (String c1 (String c2 EmptyString)) => Some (String c1 EmptyString, String c2 EmptyString)
  | _ => None
  end.

(** The endpoint normalisation of [from_dict]: the [nodes] pair when it
    has length two, else [source]/[target]; [None] when Python raises. *)
Definition edge_endpoints (e : attrs) : option (string * string) :=
  match e !! "nodes" with
  | Some v =>
      match py_len v with
      | None => None
      | Some 2%nat => unpack2 v
      | Some _ =>
          match e !! "source", e !! "target" with
          | Some (VStr a), Some (VStr b) => Some (a, b)
          | _, _ => None
          end
      end
  | None =>
      match e !! "source", e !! "target" with
      | Some (VStr a), Some (VStr b) => Some (a, b)
      | _, _ => None
      end
  end.

(** One iteration of each loop of [Graph.from_dict]. *)
Definition load_node (g : Graph) (n : attrs) : option Graph :=
  match n !! "id" with
  | Some (VStr node_id) => add_node g node_id (delete "id" n)
  | _ => None
  end.

Definition load_edge (g : Graph) (e : attrs) : option Graph :=
  match edge_endpoints e with
  | Some (a, b) => add_edge g a b (delete "nodes" (delete "source" (delete "target" e)))
  | None => None
  end.

Fixpoint fold_opt {X} (f : Graph -> X -> option Graph) (g : Graph) (l : list X) : option Graph :=
  match l with
  | [] => Some g
  | x :: l' => match f g x with Some g' => fold_opt f g' l' | None => None end
  end.

(** [Graph.from_dict(data)] *)
Definition from_dict (d : Document) : option Graph :=
  match fold_opt load_node empty_graph (doc_nodes d) with
  | Some g => fold_opt load_edge g (doc_edges d)
  | None => None
  end.

(** A graph built by a script of [add_node]/[add_edge] calls. *)
Inductive graph_op : Type :=
| OpAddNode (node_id : string) (a : attrs)
| OpAddEdge (source target : string) (a : attrs).

Definition run_op (g : Graph) (op : graph_op) : option Graph :=
  match op with
  | OpAddNode n a => add_node g n a
  | OpAddEdge s t a => add_edge g s t a
  end.

Definition build_graph (ops : list graph_op) : option Graph := fold_opt run_op empty_graph ops.

(** No node bag passed to [add_node] carries an ["id"] key and no edge bag
    passed to [add_edge] a ["nodes"] key. *)
Definition op_no_reserved (op : graph_op) : Prop :=
  match op with
  | OpAddNode _ a => a !! "id" = None
  | OpAddEdge _ _ a => a !! "nodes" = None
  end.

(* ------------------------------------------------------------------ *)
(** ** graph_editor.py: class GraphData *)

Record GraphData : Type := mkGraphData {
  gd_nodes : gmap string attrs;
  (** each edge has ["nodes"]: [a, b] and attrs *)
  gd_edges : list attrs
}.

(** [needle in hay] for two strings: substring test. *)
Fixpoint str_contains (needle hay : string) : bool :=
  String.prefix needle hay ||
  match hay with
  | EmptyString => false
  | String _ hay' => str_contains needle hay'
  end.

(** [node_id in e.get("nodes", [])]; [None] when [in] raises [TypeError]
    (the value is not a container). *)
Definition edge_mentions (node_id : string) (e : attrs) : option bool :=
  match e !! "nodes" with
  | None => Some false
  | Some (VList l) => Some (existsb (fun v => match v with VStr s => String.eqb s node_id | _ => false end) l)
  | Some (VStr s) => Some (str_contains node_id s)
  | Some _ => None
  end.

(** [[e for e in edges if node_id not in e.get("nodes", [])]] *)
Fixpoint filter_not_mentioning (node_id : string) (es : list attrs) : option (list attrs) :=
  match es with
  | [] => Some []
  | e :: es' =>
      match edge_mentions node_id e, filter_not_mentioning node_id es' with
      | Some true, Some r => Some r
      | Some false, Some r => Some (e :: r)
      | _, _ => None
      end
  end.

(** [GraphData.remove_node(node_id)] *)
Definition gd_remove_node (g : GraphData) (node_id : string) : option GraphData :=
  let ns := match g.(gd_nodes) !! node_id with
            | Some _ => delete node_id (gd_nodes g)
            | None => gd_nodes g
            end in
  match filter_not_mentioning node_id (gd_edges g) with
  | Some es => Some (mkGraphData ns es)
  | None => None
  end.

(** Python's [x == y] on JSON values: numbers and booleans compare as
    numbers, lists item by item, values of different kinds are unequal. *)
Fixpoint py_eq (x y : value) : bool :=
  match x, y with
  | VStr a, VStr b => String.eqb a b
  | VNull, VNull => true
  | VList l1, VList l2 =>
      (fix go (l1 l2 : list value) : bool :=
         match l1, l2 with
         | [], [] => true
         | x1 :: l1', y1 :: l2' => py_eq x1 y1 && go l1' l2'
         | _, _ => false
         end) l1 l2
  | _, _ =>
      match py_num x, py_num y with
      | Some p, Some q => Qeq_bool p q
      | _, _ => false
      end
  end.

(** Python's [x < y] on JSON values; [None] is the [TypeError] raised for
    values that cannot be ordered ([None], or values of different kinds).
    Lists compare at their first unequal items, or by length. *)
Fixpoint py_lt (x y : value) : option bool :=
  match x, y with
  | VStr a, VStr b => Some (String.ltb a b)
  | VList l1, VList l2 =>
      (fix go (l1 l2 : list value) : option bool :=
         match l1, l2 with
         | x1 :: l1', y1 :: l2' => if py_eq x1 y1 then go l1' l2' else py_lt x1 y1
         | [], _ :: _ => Some true
         | _, _ => Some false
         end) l1 l2
  | _, _ =>
      match py_num x, py_num y with
      | Some p, Some q => Some (negb (Qle_bool q p))
      | _, _ => None
      end
  end.

(** Whether [sorted(l)] completes: it raises [TypeError] when two items
    cannot be ordered.  With two items this is the one comparison [sorted]
    makes; with more, an item that can be ordered against two mutually
    unorderable items lies on the same side of both, so a sort cannot
    place such a pair without comparing it. *)
Fixpoint py_sortable (l : list value) : bool :=
  match l with
  | [] => true
  | x :: l' =>
      forallb (fun y => match py_lt x y with Some _ => true | None => false end) l' &&
      py_sortable l'
  end.

(** [tuple(sorted(e.get("nodes", [])))] compared with a sorted pair:
    [Some (Some k)] for two string endpoints, [Some None] for a value that
    can never equal a pair of strings, [None] when [sorted] raises
    [TypeError]: on a non-iterable, or on a list with two items that cannot
    be ordered.  A string is sorted as the list of its characters. *)
Definition edge_key (e : attrs) : option (option (string * string)) :=
  match e !! "nodes" with
  | None => Some None
  | Some (VList l) =>
      if py_sortable l
      then match l with
           | [VStr a; VStr b] => Some (Some (sorted_pair a b))
           | _ => Some None
           end
      else None
  | Some (VStr (String c1 (String c2 EmptyString))) =>
      Some (Some (sorted_pair (String c1 EmptyString) (String c2 EmptyString)))
  | Some (VStr _) => Some None
  | Some _ => None
  end.

(** [sorted(v)] raises [TypeError]: [v] is not iterable, or is a list
    with two items that cannot be ordered. *)
Definition sorted_raises (v : value) : bool :=
  match v with
  | VList l => negb (py_sortable l)
  | VStr _ => false
  | _ => true
  end.

Fixpoint find_index_from (key : string * string) (i : nat) (es : list attrs) : option (option nat) :=
  match es with
  | [] => Some None
  | e :: es' =>
      match edge_key e with
      | None => None
      | Some (Some k) => if bool_decide (k = key) then Some (Some i) else find_index_from key (S i) es'
      | Some None => find_index_from key (S i) es'
      end
  end.

(** [GraphData.find_edge_index(a, b)] *)
Definition find_edge_index (g : GraphData) (a b : string) : option (option nat) :=
  find_index_from (sorted_pair a b) 0 (gd_edges g).

(** [GraphData.upsert_edge(a, b, attrs)]: [edge = {"nodes": [key[0], key[1]], **attrs}]
    replaces the edge found for the pair, or is appended. *)
Definition upsert_edge (g : GraphData) (a b : string) (new_attrs : attrs) : option GraphData :=
  let key := sorted_pair a b in
  let edge := new_attrs ∪ {[ "nodes" := VList [VStr key.1; VStr key.2] ]} in
  match find_edge_index g a b with
  | Some (Some idx) => Some (mkGraphData (gd_nodes g) (<[idx := edge]> (gd_edges g)))
  | Some None => Some (mkGraphData (gd_nodes g) (gd_edges g ++ [edge]))
  | None => None
  end.

(** The endpoints an edge of the editor references: the members of its
    ["nodes"] list (or the two characters of a two-character string, which
    is how [GraphData.load] unpacks such a value). *)
Definition edge_references (e : attrs) (x : string) : Prop :=
  (exists l, e !! "nodes" = Some (VList l) /\ In (VStr x) l) \/
  (exists c1 c2, e !! "nodes" = Some (VStr (String c1 (String c2 EmptyString))) /\
                 (x = String c1 EmptyString \/ x = String c2 EmptyString)).

(* ------------------------------------------------------------------ *)
(** ** travel_gui.py: shortest_path *)

(** [a < b] on floats. *)
Definition Qltb (a b : Q) : bool := negb (Qle_bool b a).

(** Python's ordering of the heap tuples [(cost, node)]. *)
Definition entry_lt (x y : Q * string) : bool :=
  Qltb x.1 y.1 || (Qeq_bool x.1 y.1 && String.ltb x.2 y.2).

(** The heap as the multiset of its tuples: [heappop] returns the least
    tuple (equal tuples are indistinguishable, so the heap layout does not
    matter); [heappush] adds one. *)
Fixpoint extract_min (x : Q * string) (l : list (Q * string)) : (Q * string) * list (Q * string) :=
  match l with
  | [] => (x, [])
  | y :: l' =>
      if entry_lt y x
      then let '(m, r) := extract_min y l' in (m, x :: r)
      else let '(m, r) := extract_min x l' in (m, y :: r)
  end.

Definition heappop (h : list (Q * string)) : option ((Q * string) * list (Q * string)) :=
  match h with
  | [] => None
  | x :: l => Some (extract_min x l)
  end.

Definition heappush (h : list (Q * string)) (x : Q * string) : list (Q * string) := x :: h.

(** Outcome of a loop run with a fuel bound. *)
Inductive run_result (A : Type) : Type :=
| Done (a : A)
| Raised
| OutOfFuel.
Arguments Done {A} a.
Arguments Raised {A}.
Arguments OutOfFuel {A}.

Record search_state : Type := mkSearch {
  dist : gmap string Q;
  prev : gmap string string;
  heap : list (Q * string)
}.

(** [adjacency.get(node, [])] *)
Definition adj_get (adj : adjacency_t) (u : string) : list (string * attrs) :=
  match adj !! u with Some es => es | None => [] end.

(** [new_cost < dist.get(v, float("inf"))] *)
Definition improves (d : gmap string Q) (v : string) (new_cost : Q) : bool :=
  match d !! v with Some old => Qltb new_cost old | None => true end.

(** The inner [for neigh, attrs in adjacency.get(node, [])] loop. *)
Fixpoint relax (node : string) (cost : Q) (es : list (string * attrs)) (st : search_state)
  : option search_state :=
  match es with
  | [] => Some st
  | (neigh, a) :: es' =>
      match edge_weight a with
      | None => None
      | Some weight =>
          let new_cost := cost + weight in
          if improves (dist st) neigh new_cost
          then relax node cost es'
                 (mkSearch (<[neigh := new_cost]> (dist st)) (<[neigh := node]> (prev st))
                           (heappush (heap st) (new_cost, neigh)))
          else relax node cost es' st
      end
  end.

(** The [while heap:] loop. *)
Fixpoint dijkstra_loop (fuel : nat) (adj : adjacency_t) (dest : string) (st : search_state)
  : run_result search_state :=
  match fuel with
  | O => OutOfFuel
  | S fuel' =>
      match heappop (heap st) with
      | None => Done st
      | Some ((cost, node), h) =>
          if String.eqb node dest then Done st
          else if match dist st !! node with Some d => Qltb d cost | None => false end
          then dijkstra_loop fuel' adj dest (mkSearch (dist st) (prev st) h)
          else match relax node cost (adj_get adj node) (mkSearch (dist st) (prev st) h) with
               | Some st' => dijkstra_loop fuel' adj dest st'
               | None => Raised
               end
      end
  end.

(** The first adjacency entry of [u] leading to [v] (the [break] loop). *)
Fixpoint first_edge_to (v : string) (es : list (string * attrs)) : option attrs :=
  match es with
  | [] => None
  | (n, a) :: es' => if String.eqb n v then Some a else first_edge_to v es'
  end.

(** The [while cur != start:] reconstruction loop; [path] is appended to. *)
Fixpoint reconstruct (fuel : nat) (adj : adjacency_t) (start : string) (pv : gmap string string)
         (cur : string) (path : list string) (total : Q) : run_result (list string * Q) :=
  match fuel with
  | O => OutOfFuel
  | S fuel' =>
      if String.eqb cur start then Done (rev (path ++ [start]), total)
      else match pv !! cur with
           | None => Raised
           | Some p =>
               match first_edge_to cur (adj_get adj p) with
               | Some a =>
                   match py_num (approx_distance a) with
                   | Some km => reconstruct fuel' adj start pv p (path ++ [cur]) (total + km)
                   | None => Raised
                   end
               | None => reconstruct fuel' adj start pv p (path ++ [cur]) total
               end
           end
  end.

(** [shortest_path(adjacency, start, dest)]: (path nodes, total physical
    distance, weighted cost); both loops run with the fuel bound. *)
Definition shortest_path (fuel : nat) (adj : adjacency_t) (start dest : option string)
  : run_result (list string * Q * Q) :=
  match start, dest with
  | Some s, Some d =>
      if negb (truthy start) || negb (truthy dest) then Done ([], 0, 0)
      else if String.eqb s d then Done ([s], 0, 0)
      else match dijkstra_loop fuel adj d (mkSearch {[s := 0]} ∅ [(0, s)]) with
           | Done st =>
               match dist st !! d with
               | None => Done ([], 0, 0)
               | Some c =>
                   match reconstruct fuel adj s (prev st) d [] 0 with
                   | Done (p, tot) => Done (p, tot, c)
                   | Raised => Raised
                   | OutOfFuel => OutOfFuel
                   end
               end
           | Raised => Raised
           | OutOfFuel => OutOfFuel
           end
  | _, _ => Done ([], 0, 0)
  end.

(** Walks through the adjacency view, with their weighted cost and their
    physical distance. *)
Inductive walk (adj : adjacency_t) : string -> string -> list string -> Q -> Q -> Prop :=
| walk_here u : walk adj u u [u] 0 0
| walk_step u v w es a wt km p c k :
    adj !! u = Some es -> In (v, a) es ->
    edge_weight a = Some wt -> py_num (approx_distance a) = Some km ->
    walk adj v w p c k -> walk adj u w (u :: p) (wt + c) (km + k).

(** Every edge has a numeric, non-negative weight. *)
Definition weights_nonneg (adj : adjacency_t) : Prop :=
  forall u es v a, adj !! u = Some es -> In (v, a) es ->
    exists w, edge_weight a = Some w /\ 0 <= w.

(** At most one edge between two distinct nodes: no neighbour other than
    [u] itself is listed twice for [u] (a self-loop, which [prepare_graph]
    lists twice, is allowed). *)
Definition single_edges (adj : adjacency_t) : Prop :=
  forall u es, adj !! u = Some es -> NoDup (List.filter (fun v => negb (String.eqb v u)) (map fst es)).

(** Sample adjacency views built as [prepare_graph] builds them. *)
Definition undirected_adj (edges : list (string * string * attrs)) : adjacency_t :=
  fold_left (fun m '(a, b, ea) =>
               let m1 := <[a := adj_get m a ++ [(b, ea)]]> m in
               <[b := adj_get m1 b ++ [(a, ea)]]> m1)
            edges ∅.

Definition km (d : Q) : attrs := {[ "approx_distance_km" := VNum d ]}.

(** The line graph A-B-C-D of §8, edges of 10 km; B-C has the given extra attributes. *)
Definition line_ABCD (bc_extra : attrs) : adjacency_t :=
  undirected_adj [("A", "B", km 10); ("B", "C", km 10 ∪ bc_extra); ("C", "D", km 10)].

(* ================================================================== *)
(** Sample editor data: nodes A and B joined by a 10 km edge. *)
Definition gd_AB : GraphData :=
  mkGraphData (<["A" := ∅]> (<["B" := ∅]> ∅))
              [<["nodes" := VList [VStr "A"; VStr "B"]]> {[ "approx_distance_km" := VNum 10 ]}].

(** What holds of every state reached from a session over [adj]. *)
Definition leg_inv (adj : adjacency_t) (s : TravelSession) : Prop :=
  adjacency s = adj /\
  forall l, active_leg s = Some l ->
    0 <= traveled_km l /\ traveled_km l <= distance_km l /\
    forall f, difficulty_for_edge (leg_attrs l) = Some f -> 0 <= f.

(** What every graph built by [add_node]/[add_edge] keeps: a node bag
    carries its own id and no keyword that [add_node] refuses; an edge
    bag is stored under a sorted key, names that key as its ["nodes"],
    carries ["undirected"], no keyword that [add_edge] refuses, and joins
    two nodes of the graph. *)
Definition node_ok (k : string) (v : attrs) : Prop :=
  v !! "id" = Some (VStr k) /\ v !! "node_id" = None /\ v !! "self" = None.

Definition edge_ok (ns : gmap string attrs) (k : string * string) (v : attrs) : Prop :=
  v !! "nodes" = Some (VList [VStr k.1; VStr k.2]) /\ sorted_pair k.1 k.2 = k /\
  v !! "source" = None /\ v !! "target" = None /\ v !! "self" = None /\
  is_Some (v !! "undirected") /\ is_Some (ns !! k.1) /\ is_Some (ns !! k.2).

Definition graph_ok (g : Graph) : Prop :=
  map_Forall node_ok (g_nodes g) /\ map_Forall (edge_ok (g_nodes g)) (g_edges g).

(** ** Bookkeeping for the termination and correctness of [shortest_path] *)

(** Edges still to be scanned: the adjacency lists of the nodes not yet
    settled. *)
Definition pend (S : list string) (L : list (string * list (string * attrs))) : nat :=
  fold_right (fun '(x, es) acc => (if in_dec String.string_dec x S then 0 else length es) + acc)%nat
             0%nat L.

Definition pending (adj : adjacency_t) (S : list string) : nat := pend S (map_to_list adj).

(** The loop measure: heap entries plus edges still to be scanned. *)
Definition measure (adj : adjacency_t) (st : search_state) (S : list string) : nat :=
  (length (heap st) + pending adj S)%nat.

(** The invariant of the search loop, for the list [S] of settled nodes
    (latest first): settled nodes have final distances, every tentative
    distance of an open node is on the heap, [prev] points to settled
    nodes along tight edges and towards older settled nodes, and every
    distance is the cost of some walk from the start. *)
Record dinv (adj : adjacency_t) (s d : string) (st : search_state) (S : list string) : Prop := {
  di_src : dist st !! s = Some 0;
  di_nonneg : forall v dv, dist st !! v = Some dv -> 0 <= dv;
  di_heap : forall c v, In (c, v) (heap st) -> exists dv, dist st !! v = Some dv /\ dv <= c;
  di_open : forall v dv, dist st !! v = Some dv -> ~ In v S -> In (dv, v) (heap st);
  di_relaxed : forall u du, In u S -> dist st !! u = Some du ->
    forall v a w, In (v, a) (adj_get adj u) -> edge_weight a = Some w ->
    exists dv, dist st !! v = Some dv /\ dv <= du + w;
  di_settled_dom : forall u, In u S -> is_Some (dist st !! u);
  di_settled_min : forall u du c v, In u S -> dist st !! u = Some du -> In (c, v) (heap st) -> du <= c;
  di_settled_dest : forall u, In u S -> u <> d;
  di_prev : forall v u, prev st !! v = Some u -> In u S /\
    exists a w du dv, In (v, a) (adj_get adj u) /\ edge_weight a = Some w /\
      dist st !! u = Some du /\ dist st !! v = Some dv /\ dv == du + w;
  di_prev_rank : forall v u, prev st !! v = Some u -> In v S ->
    forall l1 l2, S = l1 ++ v :: l2 -> In u l2;
  di_prev_dom : forall v, is_Some (dist st !! v) -> v <> s -> is_Some (prev st !! v);
  di_reach : forall v dv, dist st !! v = Some dv -> exists p c k, walk adj s v p c k;
  di_prev_ne : forall v u, prev st !! v = Some u -> u <> v
}.

(** The rank that bounds how many [prev] steps remain from [cur]. *)
Definition rank_ok (s : string) (S : list string) (cur : string) (n : nat) : Prop :=
  (0 < n)%nat /\
  (cur = s \/ (exists l1 l2, S = l1 ++ cur :: l2 /\ (length l2 < n)%nat) \/
   (~ In cur S /\ (length S < n)%nat)).

(** Boolean checks of [weights_nonneg] and [single_edges] for concrete
    adjacency views. *)
Definition weights_nonneg_b (adj : adjacency_t) : bool :=
  forallb (fun ues => forallb (fun va => match edge_weight va.2 with
                                         | Some w => Qle_bool 0 w
                                         | None => false
                                         end) ues.2)
          (map_to_list adj).
Definition single_edges_b (adj : adjacency_t) : bool :=
  forallb (fun ues => bool_decide (NoDup (List.filter (fun v => negb (String.eqb v ues.1)) (map fst ues.2))))
          (map_to_list adj).

(** Boolean check of [adjacency_nonneg]. *)
Definition adjacency_nonneg_b (adj : adjacency_t) : bool :=
  forallb (fun ues => forallb (fun va =>
             match py_float (approx_distance va.2) with Some q => Qle_bool 0 q | None => true end &&
             match difficulty_for_edge va.2 with Some f => Qle_bool 0 f | None => true end) ues.2)
          (map_to_list adj).

(** A triangle with a negative difficulty factor on C-B, and two parallel
    A-B edges of 10 km and 1 km. *)
Definition adj_negative : adjacency_t :=
  undirected_adj [("A", "B", km 2); ("A", "C", km 3);
                  ("C", "B", <["difficulty_factor" := VNum (-1)]> (km 2))].
Definition adj_parallel : adjacency_t :=
  undirected_adj [("A", "B", km 10); ("A", "B", km 1)].

(** The line A-B-C-D with a 1 km self-loop at B, as [prepare_graph]
    lists it (twice in the list of B). *)
Definition line_ABCD_loop : adjacency_t :=
  undirected_adj [("A", "B", km 10); ("B", "B", km 1); ("B", "C", km 10); ("C", "D", km 10)].

(** A lone A-B edge with a non-numeric difficulty factor, and one with
    difficulty factor -1 (the walk A,B,A has negative cost). *)
Definition adj_bad_factor : adjacency_t :=
  undirected_adj [("A", "B", <["difficulty_factor" := VStr "steep"]> (km 2))].
Definition neg_edge : attrs := <["difficulty_factor" := VNum (-1)]> (km 1).
Definition adj_neg_cycle : adjacency_t := undirected_adj [("A", "B", neg_edge)].

(** Boolean check that every neighbour listed in an adjacency view is in [N]. *)
Definition neighbours_in_b (N : list string) (adj : adjacency_t) : bool :=
  forallb (fun ues => forallb (fun va => bool_decide (va.1 ∈ N)) ues.2) (map_to_list adj).

(* ================================================================== *)
(** Python truthiness of a JSON value. *)
Definition py_truthy (v : value) : bool :=
  match v with
  | VNum q => negb (Qeq_bool q 0)
  | VStr s => negb (String.eqb s "")
  | VBool b => b
  | VNull => false
  | VList l => match l with [] => false | _ => true end
  end.

(** A loop whose body may raise, over a list. *)
Fixpoint foldM_opt {S X : Type} (f : S -> X -> option S) (s : S) (l : list X) : option S :=
  match l with
  | [] => Some s
  | x :: l' => match f s x with Some s' => foldM_opt f s' l' | None => None end
  end.

(** [edge_attrs.get("approx_distance_km") or edge_attrs.get("distance_km") or 0.0] *)
Definition prep_distance (a : attrs) : value :=
  match a !! "approx_distance_km" with
  | Some v => if py_truthy v then v else
                match a !! "distance_km" with
                | Some w => if py_truthy w then w else VNum 0
                | None => VNum 0
                end
  | None => match a !! "distance_km" with
            | Some w => if py_truthy w then w else VNum 0
            | None => VNum 0
            end
  end.

(** One iteration of [{n["id"]: n for n in data.get("nodes", [])}]; node
    ids are strings in this model (a missing id raises [KeyError]). *)
Definition prep_node (ns : gmap string attrs) (n : attrs) : option (gmap string attrs) :=
  match n !! "id" with
  | Some (VStr k) => Some (<[k := n]> ns)
  | _ => None
  end.

(** The attributes of a raw edge without its endpoint keys. *)
Definition edge_payload (e : attrs) : attrs :=
  delete "nodes" (delete "source" (delete "target" e)).

(** One iteration of the edge loop of [prepare_graph]: the edge, with its
    distance normalised to a float, is appended to the lists of both
    endpoints. *)
Definition prep_edge (adj : adjacency_t) (e : attrs) : option adjacency_t :=
  match edge_endpoints e with
  | None => None
  | Some (a, b) =>
      let ea := edge_payload e in
      match py_float (prep_distance ea) with
      | None => None
      | Some d =>
          let ea' := <["approx_distance_km" := VNum d]> ea in
          let adj1 := <[a := adj_get adj a ++ [(b, ea')]]> adj in
          Some (<[b := adj_get adj1 b ++ [(a, ea')]]> adj1)
      end
  end.

(** [prepare_graph(data)]: the node dict and the adjacency view. *)
Definition prepare_graph (d : Document) : option (gmap string attrs * adjacency_t) :=
  match foldM_opt prep_node ∅ (doc_nodes d) with
  | None => None
  | Some ns =>
      match foldM_opt prep_edge ∅ (doc_edges d) with
      | Some adj => Some (ns, adj)
      | None => None
      end
  end.


(** What every adjacency built by [prepare_graph] keeps. *)
Definition prep_inv (adj : adjacency_t) : Prop :=
  (forall x y f, In (y, f) (adj_get adj x) -> In (x, f) (adj_get adj y)) /\
  (forall x y f, In (y, f) (adj_get adj x) -> exists d, f !! "approx_distance_km" = Some (VNum d)).

(* ------------------------------------------------------------------ *)
(** ** graph_editor.py: GraphData.load and GraphData.save *)

(** [list(v)] on a JSON value that is not a list: a string gives its
    characters; numbers, booleans and [None] raise [TypeError]. *)
Fixpoint str_chars (s : string) : list value :=
  match s with
  | EmptyString => []
  | String c s' => VStr (String c EmptyString) :: str_chars s'
  end.

Definition py_list (v : value) : option (list value) :=
  match v with
  | VStr s => Some (str_chars s)
  | VList l => Some l
  | _ => None
  end.

(** [bool(v)] *)
Definition py_bool (v : value) : bool := py_truthy v.

(** One iteration of the node loop of [GraphData.load]. *)
Definition gd_load_node (ns : gmap string attrs) (n : attrs) : option (gmap string attrs) :=
  let a := delete "id" n in
  let a' := match a !! "is_port" with
            | Some v => <["is_port" := VBool (py_bool v)]> a
            | None => a
            end in
  match n !! "id" with
  | Some (VStr nid) => Some (<[nid := a']> ns)
  | _ => None
  end.

(** A Python dict with its insertion order: assigning an existing key
    replaces the value in place, a new key goes last. *)
Fixpoint od_insert {K V} `{EqDecision K} (k : K) (v : V) (l : list (K * V)) : list (K * V) :=
  match l with
  | [] => [(k, v)]
  | (k', v') :: l' => if decide (k = k') then (k, v) :: l' else (k', v') :: od_insert k v l'
  end.

(** The [allowed_modes] normalisation of [GraphData.load]. *)
Definition normalise_modes (a : attrs) : option attrs :=
  match a !! "allowed_modes" with
  | None => Some a
  | Some (VList _) => Some a
  | Some v => match py_list v with
              | Some l => Some (<["allowed_modes" := VList l]> a)
              | None => None
              end
  end.

(** One iteration of the edge loop of [GraphData.load]:
    [edges[key] = {"nodes": [key[0], key[1]], **attrs}]. *)
Definition gd_load_edge (es : list ((string * string) * attrs)) (e : attrs)
  : option (list ((string * string) * attrs)) :=
  match edge_endpoints e with
  | None => None
  | Some (a, b) =>
      let key := sorted_pair a b in
      match normalise_modes (edge_payload e) with
      | None => None
      | Some a' => Some (od_insert key (a' ∪ {[ "nodes" := VList [VStr key.1; VStr key.2] ]}) es)
      end
  end.

(** [GraphData.load] on the parsed JSON document. *)
Definition gd_load (d : Document) : option GraphData :=
  match foldM_opt gd_load_node ∅ (doc_nodes d) with
  | None => None
  | Some ns =>
      match foldM_opt gd_load_edge [] (doc_edges d) with
      | None => None
      | Some es => Some (mkGraphData ns (map snd es))
      end
  end.

(** [sorted(self.nodes.items())]: node ids are distinct, so the tuples are
    ordered by their ids. *)
Definition item_le (x y : string * attrs) : Prop := str_le x.1 y.1.
#[global] Instance item_le_dec : RelDecision item_le.
Proof. intros x y. unfold item_le. apply _. Defined.

(** [GraphData.save]: the document written ([{"id": nid, **attrs}]). *)
Definition gd_save (g : GraphData) : Document :=
  mkDoc (map (fun '(nid, a) => a ∪ {[ "id" := VStr nid ]}) (merge_sort item_le (map_to_list (gd_nodes g))))
        (gd_edges g).

(** What [GraphData.load] produces: node bags without ["id"] whose
    ["is_port"], when present, is a boolean; edges whose ["nodes"] is their
    sorted pair of endpoints, without ["source"]/["target"], whose
    ["allowed_modes"], when present, is a list, no two with the same pair. *)
Definition gd_node_wf (a : attrs) : Prop :=
  a !! "id" = None /\ forall v, a !! "is_port" = Some v -> exists b, v = VBool b.

Definition gd_edge_wf (e : attrs) : Prop :=
  exists x y, e !! "nodes" = Some (VList [VStr x; VStr y]) /\ sorted_pair x y = (x, y) /\
    e !! "source" = None /\ e !! "target" = None /\
    forall v, e !! "allowed_modes" = Some v -> exists l, v = VList l.

Definition gd_wf (g : GraphData) : Prop :=
  map_Forall (fun _ a => gd_node_wf a) (gd_nodes g) /\
  Forall gd_edge_wf (gd_edges g) /\ NoDup (map edge_endpoints (gd_edges g)).

(** [[e for e in self.edges if tuple(sorted(e.get("nodes", []))) != key]] *)
Fixpoint gd_filter_key (key : string * string) (es : list attrs) : option (list attrs) :=
  match es with
  | [] => Some []
  | e :: es' =>
      match edge_key e, gd_filter_key key es' with
      | Some k, Some r => if bool_decide (k = Some key) then Some r else Some (e :: r)
      | _, _ => None
      end
  end.

(** [GraphData.remove_edge(a, b)] *)
Definition gd_remove_edge (g : GraphData) (a b : string) : option GraphData :=
  match gd_filter_key (sorted_pair a b) (gd_edges g) with
  | Some es => Some (mkGraphData (gd_nodes g) es)
  | None => None
  end.

(** An edge whose ["nodes"] can be compared and differs from [key]. *)
Definition key_differs (key : string * string) (e : attrs) : Prop :=
  exists k, edge_key e = Some k /\ k <> Some key.

(** The state of the edge loop: each value is well formed and stored
    under its own endpoints, keys distinct. *)
Definition od_wf (od : list ((string * string) * attrs)) : Prop :=
  Forall (fun kv => gd_edge_wf kv.2 /\ edge_endpoints kv.2 = Some kv.1) od /\ NoDup od.*1.

(* ------------------------------------------------------------------ *)
(** ** graph_editor.py: GraphEditorApp.save_edge *)

(** [GraphData.ensure_node(node_id)] *)
Definition gd_ensure_node (g : GraphData) (node_id : string) : GraphData :=
  match gd_nodes g !! node_id with
  | Some _ => g
  | None => mkGraphData (<[node_id := ∅]> (gd_nodes g)) (gd_edges g)
  end.

(** The distance entry of the edge form: blank (after [strip()]), text
    that [float()] parses to a number, or text it rejects with
    [ValueError]. *)
Inductive dist_field : Type :=
| DistBlank
| DistNumber (q : Q)
| DistInvalid.

(** What [save_edge] reads from the form: both endpoint entries after
    [strip()], the undirected box, the ticked route types and modes in the
    form's order, the distance entry, and the answer to the
    "Create nodes?" question. *)
Record EdgeForm : Type := mkEdgeForm {
  ef_a : string;
  ef_b : string;
  ef_undirected : bool;
  ef_route_types : list string;
  ef_distance : dist_field;
  ef_modes : list string;
  ef_create_nodes : bool
}.

(** [GraphEditorApp.save_edge()] on the editor's graph: a warning or an
    error dialog returns with the graph unchanged; [None] when
    [find_edge_index] raises. *)
Definition save_edge (g : GraphData) (f : EdgeForm) : option GraphData :=
  let a := ef_a f in
  let b := ef_b f in
  if String.eqb a "" || String.eqb b "" then Some g else
  if String.eqb a b then Some g else
  match find_edge_index g a b with
  | None => None
  | Some existing_idx =>
      let existing_attrs :=
        match existing_idx with
        | Some i => delete "nodes" (default ∅ (gd_edges g !! i))
        | None => ∅
        end in
      let attrs := <["undirected" := VBool (ef_undirected f)]> existing_attrs in
      let attrs :=
        match ef_route_types f with
        | rt :: _ => <["route_type" := VStr rt]> (<["route_types" := VList (map VStr (ef_route_types f))]> attrs)
        | [] => let attrs := delete "route_types" attrs in
                match attrs !! "route_type" with
                | Some _ => attrs
                | None => <["route_type" := VStr "route"]> attrs
                end
        end in
      match ef_distance f with
      | DistInvalid => Some g
      | dist =>
          let attrs := match dist with
                       | DistNumber q => <["approx_distance_km" := VNum q]> attrs
                       | _ => attrs
                       end in
          let attrs := <["allowed_modes" := VList (map VStr (ef_modes f))]> attrs in
          if bool_decide (is_Some (gd_nodes g !! a)) && bool_decide (is_Some (gd_nodes g !! b))
          then upsert_edge g a b attrs
          else if ef_create_nodes f
               then upsert_edge (gd_ensure_node (gd_ensure_node g a) b) a b attrs
               else Some g
      end
  end.

(** The attribute bag of the edge [find_edge_index] finds, [{}] if none. *)
Definition found_edge (g : GraphData) (a b : string) : attrs :=
  match find_edge_index g a b with
  | Some (Some i) => default ∅ (gd_edges g !! i)
  | _ => ∅
  end.

(* ------------------------------------------------------------------ *)
(** ** graph_editor.py: the node list of GraphEditorApp *)

Definition port_suffix : string := " (port)".

(** [s.endswith(suffix)] *)
Fixpoint str_endswith (s suffix : string) : bool :=
  String.eqb s suffix ||
  match s with
  | EmptyString => false
  | String _ s' => str_endswith s' suffix
  end.

(** [GraphEditorApp._strip_port_suffix(label)]: [label[:-7]] drops the
    last seven characters. *)
Definition strip_port_suffix (label : string) : string :=
  if str_endswith label port_suffix
  then String.substring 0 (String.length label - 7) label
  else label.

(** [bool(self.graph.nodes.get(nid, {}).get("is_port"))] *)
Definition node_is_port (g : GraphData) (nid : string) : bool :=
  match gd_nodes g !! nid with
  | Some a => match a !! "is_port" with Some v => py_truthy v | None => false end
  | None => false
  end.

(** The row [refresh_lists] shows for node [nid]. *)
Definition node_label (g : GraphData) (nid : string) : string :=
  nid ++ (if node_is_port g nid then port_suffix else "").

(** [on_node_select]: the node id and port flag loaded into the form
    from a row of the node list. *)
Definition on_node_select (g : GraphData) (row : string) : string * bool :=
  let node_id := strip_port_suffix row in
  (node_id, node_is_port g node_id).

(** [GraphEditorApp.save_node()] with the stripped id entry and the port
    box; an empty id only shows a warning. *)
Definition save_node (g : GraphData) (node_id : string) (is_port : bool) : GraphData :=
  if String.eqb node_id "" then g else
  let existing := default ∅ (gd_nodes g !! node_id) in
  mkGraphData (<[node_id := <["is_port" := VBool is_port]> existing]> (gd_nodes g)) (gd_edges g).

(** What every session state keeps over a node table [ns]: the table
    itself, and a current city and a leg destination, when set, that are
    nodes of it. *)
Definition at_node_inv (ns : gmap string attrs) (adj : adjacency_t) (s : TravelSession) : Prop :=
  nodes s = ns /\ adjacency s = adj /\
  (forall c, current_city s = Some c -> is_Some (ns !! c)) /\
  (forall l, active_leg s = Some l -> is_Some (ns !! destination l)).

(** [n] presses of the "Travel Day" button of [TravelApp] with the same
    mode and hours: [self.session.travel_day(mode, hours)] called [n]
    times, a raised exception ending the run. *)
Fixpoint travel_days (n : nat) (mode : string) (hours : Q) : M unit :=
  match n with
  | O => ret tt
  | S n' => bind (travel_day mode hours) (fun _ => travel_days n' mode hours)
  end.

(* ------------------------------------------------------------------ *)
(** ** Sample data *)

(** A document with nodes A and B joined by an edge of 10 km given as
    [distance_km]. *)
Definition doc_AB : Document :=
  mkDoc [{[ "id" := VStr "A" ]}; {[ "id" := VStr "B" ]}]
        [<["nodes" := VList [VStr "A"; VStr "B"]]> {[ "distance_km" := VNum 10 ]}].

Definition prepared_AB : gmap string attrs * adjacency_t :=
  match prepare_graph doc_AB with Some p => p | None => (∅, ∅) end.

(** The entry [prepare_graph] makes for the edge of [doc_AB]. *)
Definition entry_AB : attrs :=
  <["approx_distance_km" := VNum 10]> {[ "distance_km" := VNum 10 ]}.

(** The session after [reset_trip("A", "B")] over [doc_AB]. *)
Definition trip_AB : TravelSession :=
  snd (reset_trip "A" "B" (new_session prepared_AB.1 prepared_AB.2)).

(** The session on the 50 km road after [reset_trip("A", "B")] and
    [start_leg("B")]. *)
Definition on_leg_AB : TravelSession :=
  snd (start_leg "B" (snd (reset_trip "A" "B" (session_AB (edge_attrs_50 ∅))))).

Definition leg_AB50 : ActiveLeg := mkLeg "A" "B" (edge_attrs_50 ∅) 50 0.

Definition ops_AB : list graph_op := [OpAddNode "A" ∅; OpAddNode "B" ∅; OpAddEdge "A" "B" (km 10)].

Definition built_AB : Graph := match build_graph ops_AB with Some g => g | None => empty_graph end.

Definition loaded_AB : GraphData := match gd_load doc_AB with Some g => g | None => gd_AB end.

(** An edge form for A--B: undirected, a road of 12 km open to walkers. *)
Definition form_AB : EdgeForm := mkEdgeForm "A" "B" true ["road"] (DistNumber 12) ["foot"] false.

Definition saved_AB : GraphData := match save_edge gd_AB form_AB with Some g => g | None => gd_AB end.

Definition upserted_AB : GraphData :=
  match upsert_edge gd_AB "B" "A" {[ "route_type" := VStr "road" ]} with Some g => g | None => gd_AB end.

Definition nodes_only_AB : GraphData := mkGraphData (gd_nodes gd_AB) [].

Definition upserted_nodes_only_AB : GraphData :=
  match upsert_edge nodes_only_AB "A" "B" (km 10) with Some g => g | None => gd_AB end.

Definition nodes_AB : gmap string attrs := <["A" := ∅]> (<["B" := ∅]> ∅).

(** * Proofs *)

Ltac unfold_M := unfold bind, get, put, modify, ret, raise, lift_opt in *.

(** ** Arithmetic helpers *)

Lemma Qltb_iff (a b : Q) : Qltb a b = true <-> a < b.
Proof.
  unfold Qltb. rewrite negb_true_iff. split.
  - intros H. apply Qnot_le_lt. intros C. apply Qle_bool_iff in C. congruence.
  - intros H. destruct (Qle_bool b a) eqn:E; [|reflexivity].
    apply Qle_bool_iff in E. lra.
Qed.

Lemma Qltb_false (a b : Q) : Qltb a b = false <-> b <= a.
Proof.
  unfold Qltb. rewrite negb_false_iff. apply Qle_bool_iff.
Qed.

Lemma Qle_bool_pos_false (h : Q) : 0 < h -> Qle_bool h 0 = false.
Proof.
  intros H. destruct (Qle_bool h 0) eqn:E; [|reflexivity].
  apply Qle_bool_iff in E. lra.
Qed.

Lemma py_min_Qmin (a b : Q) : py_min a b == Qmin a b.
Proof.
  unfold py_min. destruct (Qlt_le_dec b a).
  - rewrite Q.min_r; lra.
  - rewrite Q.min_l; lra.
Qed.

Lemma py_max0_Qmax (x : Q) : py_max0 x == Qmax 0 x.
Proof.
  unfold py_max0. destruct (Qlt_le_dec 0 x).
  - rewrite Q.max_r; lra.
  - rewrite Q.max_l; lra.
Qed.

Lemma py_min_le_r (a b : Q) : py_min a b <= b.
Proof. unfold py_min. destruct (Qlt_le_dec b a); lra. Qed.

Lemma py_min_ge (a b c : Q) : c <= a -> c <= b -> c <= py_min a b.
Proof. unfold py_min. destruct (Qlt_le_dec b a); lra. Qed.

Lemma py_max0_nonneg (x : Q) : 0 <= py_max0 x.
Proof. unfold py_max0. destruct (Qlt_le_dec 0 x); lra. Qed.

Lemma py_max0_le (x : Q) : 0 <= x -> py_max0 x <= x.
Proof. unfold py_max0. destruct (Qlt_le_dec 0 x); lra. Qed.

Lemma speed_for_mode_pos (mode : string) : 0 < speed_for_mode mode.
Proof.
  unfold speed_for_mode. destruct (SPEEDS_KMH !! mode) as [q|] eqn:E; [|reflexivity].
  apply elem_of_map_to_list, list_elem_of_In in E.
  remember (map_to_list SPEEDS_KMH) as l eqn:Hl. vm_compute in Hl. subst l.
  repeat match goal with
         | H : _ \/ _ |- _ => destruct H as [H|H]
         | H : (_, _) = (_, _) |- _ => injection H as _ <-
         | H : False |- _ => destruct H
         | H : In _ _ |- _ => simpl in H
         end; reflexivity.
Qed.

(** ** The trip simulator *)

(** One successful [travel_day] call, step by step. *)
Lemma travel_day_run (s : TravelSession) (leg : ActiveLeg) (mode : string) (hours d : Q) :
  active_leg s = Some leg -> 0 < hours -> difficulty_for_edge (leg_attrs leg) = Some d ->
  let traveled := py_min (speed_for_mode mode * hours * d) (remaining_km leg) in
  let leg' := mkLeg (origin leg) (destination leg) (leg_attrs leg) (distance_km leg)
                    (traveled_km leg + traveled) in
  let reached := isclose (traveled_km leg') (distance_km leg')
                 || Qle_bool (distance_km leg') (traveled_km leg') in
  exists r s',
    travel_day mode hours s = (Ok r, s') /\
    res_traveled_km r = traveled /\
    res_reached_destination r = reached /\
    active_leg s' = (if reached then None else Some leg') /\
    current_city s' = (if reached then Some (destination leg) else current_city s) /\
    adjacency s' = adjacency s /\ nodes s' = nodes s /\ day s' = S (day s).
Proof.
  intros Hleg Hh Hd. cbv zeta.
  unfold travel_day. unfold_M.
  rewrite Hleg, (Qle_bool_pos_false _ Hh), Hd. cbn.
  destruct (isclose _ _ || Qle_bool _ _); cbn; eauto 10.
Qed.

(** Claim C2. For a session in the Traveling state and [hours > 0] (the
    edge's difficulty resolving to a number [d]), [travel_day(mode, hours)]
    covers exactly [min(speed(mode) * hours * d, remaining leg distance)];
    a leg still active afterwards has not overshot its distance; when the
    new traveled distance is close to (math.isclose) or at least the leg's
    distance, the current location becomes the leg's destination and the
    leg is cleared, otherwise the leg stays active with that traveled
    distance.  On a 50 km road leg, [travel_day("foot", 100)] covers 50 km
    (not 450), completes the leg and moves the traveller to its end. *)
Theorem travel_day_clamps_and_completes :
  (forall (s : TravelSession) (leg : ActiveLeg) (mode : string) (hours d : Q),
    active_leg s = Some leg -> 0 < hours -> difficulty_for_edge (leg_attrs leg) = Some d ->
    exists r s',
      travel_day mode hours s = (Ok r, s') /\
      res_traveled_km r == Qmin (speed_for_mode mode * hours * d)
                                (Qmax 0 (distance_km leg - traveled_km leg)) /\
      (forall l', active_leg s' = Some l' -> traveled_km l' <= distance_km l') /\
      (let t' := traveled_km leg + res_traveled_km r in
       if isclose t' (distance_km leg) || Qle_bool (distance_km leg) t'
       then current_city s' = Some (destination leg) /\ active_leg s' = None
       else current_city s' = current_city s /\
            exists l', active_leg s' = Some l' /\ traveled_km l' = t')) /\
  (let '(o, s') := leg_AB_then_day "foot" 100 (session_AB (edge_attrs_50 ∅)) in
   (exists r, o = Ok r /\ res_traveled_km r == 50 /\ res_reached_destination r = true) /\
   current_city s' = Some "B" /\ active_leg s' = None).
Proof.
  split.
  - intros s leg mode hours d Hleg Hh Hd.
    pose proof (travel_day_run s leg mode hours d Hleg Hh Hd) as Hstep. cbv zeta in Hstep.
    destruct Hstep as (r & s' & Hrun & Htr & Hreach & Hact & Hcur & _).
    exists r, s'. split; [exact Hrun|]. split.
    { rewrite Htr. unfold remaining_km. rewrite py_min_Qmin, py_max0_Qmax. reflexivity. }
    cbv zeta. rewrite Htr. cbn in Hact, Hcur.
    destruct (isclose _ _ || Qle_bool _ _) eqn:E.
    + split; [congruence|]. split; assumption.
    + split.
      * intros l' Hl. rewrite Hact in Hl. injection Hl as <-.
        cbn [traveled_km distance_km] in *.
        apply orb_false_iff in E as [_ E].
        apply Qlt_le_weak, Qnot_le_lt. intros C. apply Qle_bool_iff in C. congruence.
      * split; [assumption|]. eexists; split; [exact Hact|reflexivity].
  - vm_compute. split; [eexists; split; [reflexivity|split; reflexivity]|split; reflexivity].
Qed.

Lemma route_table_agrees (rt : string) :
  route_type_difficulty (Some (VStr rt)) = Some (spec_route_table rt).
Proof.
  unfold route_type_difficulty, spec_route_table.
  destruct (String.eqb rt "road") eqn:E1; [apply String.eqb_eq in E1; subst; reflexivity|].
  destruct (String.eqb rt "trail") eqn:E2; [apply String.eqb_eq in E2; subst; reflexivity|].
  destruct (String.eqb rt "mountain_pass") eqn:E3; [apply String.eqb_eq in E3; subst; reflexivity|].
  destruct (String.eqb rt "shore") eqn:E4; [apply String.eqb_eq in E4; subst; reflexivity|].
  destruct (String.eqb rt "sea") eqn:E5; [apply String.eqb_eq in E5; subst; reflexivity|].
  apply String.eqb_neq in E1, E2, E3, E4, E5.
  unfold ROUTE_DIFFICULTY. rewrite (not_elem_of_list_to_map_1 _ rt); [reflexivity|].
  cbn. rewrite !elem_of_cons, elem_of_nil. intros [?|[?|[?|[?|[?|[]]]]]]; congruence.
Qed.

Lemma difficulty_for_edge_typed (a : attrs) :
  difficulty_typed a -> difficulty_for_edge a = Some (difficulty_spec a).
Proof.
  intros (Hf & Hm & Hr). unfold difficulty_for_edge, difficulty_spec.
  destruct (a !! "difficulty_factor") as [v|] eqn:Ef.
  { destruct (Hf v eq_refl) as [q ->]. reflexivity. }
  destruct (a !! "difficulty_modifier") as [v|] eqn:Em.
  { destruct (Hm v eq_refl) as [q ->]. reflexivity. }
  destruct (a !! "route_type") as [v|] eqn:Er; [|reflexivity].
  destruct v as [q|rt|b| |l]; try reflexivity.
  - apply route_table_agrees.
  - exfalso. exact (Hr l eq_refl).
Qed.

(** Claim C8. For an attribute bag whose difficulty attributes, when
    present, are numbers (and whose route type is not a list), the
    resolved difficulty is the explicit [difficulty_factor], else the
    [difficulty_modifier], else the route-type table (road 1.0, trail
    0.85, mountain_pass 0.7, shore 1.0, sea 1.0), 1.0 for unknown or
    missing route types; the router weighs an edge by distance times this
    value, and [travel_day] multiplies speed and hours by the same value. *)
Theorem difficulty_resolution :
  (forall a : attrs, difficulty_typed a -> difficulty_for_edge a = Some (difficulty_spec a)) /\
  (forall (a : attrs) (base : Q), difficulty_typed a -> py_num (approx_distance a) = Some base ->
     edge_weight a = Some (base * difficulty_spec a)) /\
  (forall (s : TravelSession) (leg : ActiveLeg) (mode : string) (hours : Q),
     active_leg s = Some leg -> difficulty_typed (leg_attrs leg) -> 0 < hours ->
     exists r s', travel_day mode hours s = (Ok r, s') /\
       res_traveled_km r = py_min (speed_for_mode mode * hours * difficulty_spec (leg_attrs leg))
                                  (remaining_km leg)).
Proof.
  split; [|split].
  - exact difficulty_for_edge_typed.
  - intros a base Ht Hb. unfold edge_weight. rewrite Hb, (difficulty_for_edge_typed a Ht).
    reflexivity.
  - intros s leg mode hours Hleg Ht Hh.
    pose proof (travel_day_run s leg mode hours _ Hleg Hh (difficulty_for_edge_typed _ Ht)) as H.
    cbv zeta in H. destruct H as (r & s' & Hrun & Htr & _).
    exists r, s'. split; assumption.
Qed.

(** Claim C10. A call of [reset_trip], [start_leg] or [travel_day] that
    raises one of its typed errors (any exception other than the
    [TypeError] of a non-numeric attribute: [UnknownNode],
    [AlreadyTraveling], [SameLocation], [NoSuchRoute], [NoActiveLeg],
    [NonPositiveHours]) leaves the whole session (current location, start
    and destination cities, active leg, day counter, total distance and
    log) as it was. *)
Theorem typed_failures_are_atomic :
  (forall (s : TravelSession) (a b : string) (e : exn) (s' : TravelSession),
     reset_trip a b s = (Raise e, s') -> e <> TypeError -> s' = s) /\
  (forall (s : TravelSession) (d : string) (e : exn) (s' : TravelSession),
     start_leg d s = (Raise e, s') -> e <> TypeError -> s' = s) /\
  (forall (s : TravelSession) (m : string) (h : Q) (e : exn) (s' : TravelSession),
     travel_day m h s = (Raise e, s') -> e <> TypeError -> s' = s).
Proof.
  split; [|split].
  - intros s a b e s' H _. unfold reset_trip in H. unfold_M.
    destruct (_ && _); cbn in H; congruence.
  - intros s d e s' H _. unfold start_leg in H. unfold_M.
    destruct (active_leg s); cbn in H; [congruence|].
    destruct (bool_decide _); cbn in H; [congruence|].
    destruct (routes_dict _ !! d); cbn in H; [|congruence].
    destruct (py_float _); cbn in H; congruence.
  - intros s m h e s' H He. unfold travel_day in H. unfold_M.
    destruct (active_leg s) as [leg|]; cbn in H; [|congruence].
    destruct (Qle_bool h 0); cbn in H; [congruence|].
    destruct (difficulty_for_edge _); cbn in H; [|congruence].
    destruct (isclose _ _ || Qle_bool _ _); cbn in H; congruence.
Qed.

(** ** start_leg *)

Lemma fold_insert_snoc (l : list (string * attrs)) (x : string * attrs) (m : gmap string attrs) :
  fold_left (fun m '(k, v) => <[k := v]> m) (l ++ [x]) m
  = <[x.1 := x.2]> (fold_left (fun m '(k, v) => <[k := v]> m) l m).
Proof. rewrite fold_left_app. destruct x. reflexivity. Qed.

(** The dict comprehension keeps the last entry of each neighbour. *)
Lemma routes_dict_lookup (l : list (string * attrs)) (k : string) :
  (forall v, routes_dict l !! k = Some v ->
     exists l1 l2, l = l1 ++ (k, v) :: l2 /\ k ∉ map fst l2) /\
  ((forall v, ~ In (k, v) l) -> routes_dict l !! k = None).
Proof.
  unfold routes_dict. induction l as [|x l IH] using rev_ind.
  - split; [intros v H; discriminate H|reflexivity].
  - rewrite fold_insert_snoc. destruct IH as [IH1 IH2]. destruct x as [k' v']. cbn.
    destruct (decide (k' = k)) as [->|Hne].
    + rewrite lookup_insert_eq. split.
      * intros v [= <-]. exists l, []. split; [reflexivity|]. apply not_elem_of_nil.
      * intros H. exfalso. apply (H v'). apply in_or_app. right. left. reflexivity.
    + rewrite lookup_insert_ne by exact Hne. split.
      * intros v Hv. destruct (IH1 v Hv) as (l1 & l2 & -> & Hn).
        exists l1, (l2 ++ [(k', v')]). split; [rewrite <- app_assoc; reflexivity|].
        rewrite map_app, elem_of_app. cbn. rewrite elem_of_cons, elem_of_nil. intuition.
      * intros H. apply IH2. intros v Hv. apply (H v). apply in_or_app. left. exact Hv.
Qed.

Lemma available_routes_set (s : TravelSession) (c : string) :
  current_city s = Some c -> c <> "" -> available_routes s = adj_get (adjacency s) c.
Proof.
  intros Hc Hne. unfold available_routes, adj_get. rewrite Hc. cbn.
  destruct (String.eqb c "") eqn:E; [apply String.eqb_eq in E; contradiction|reflexivity].
Qed.

(** A successful [start_leg]. *)
Lemma start_leg_ok_inv (s : TravelSession) (d : string) (l : ActiveLeg) (s' : TravelSession) :
  start_leg d s = (Ok l, s') ->
  active_leg s = None /\ active_leg s' = Some l /\ adjacency s' = adjacency s /\
  nodes s' = nodes s /\ traveled_km l = 0 /\ destination l = d /\
  routes_dict (available_routes s) !! d = Some (leg_attrs l) /\
  py_float (approx_distance (leg_attrs l)) = Some (distance_km l).
Proof.
  intros H. unfold start_leg in H. unfold_M.
  destruct (active_leg s) eqn:Ea; cbn in H; [congruence|].
  destruct (bool_decide _); cbn in H; [congruence|].
  destruct (routes_dict _ !! d) as [a|] eqn:Er; cbn in H; [|congruence].
  destruct (py_float _) as [q|] eqn:Ef; cbn in H; [|congruence].
  injection H as <- <-. cbn. repeat split; assumption.
Qed.

Lemma available_routes_in (s : TravelSession) (k : string) (a : attrs) :
  In (k, a) (available_routes s) ->
  exists c, current_city s = Some c /\ In (k, a) (adj_get (adjacency s) c).
Proof.
  unfold available_routes. destruct (current_city s) as [c|]; [|intros []].
  destruct (truthy _); [|intros []]. intros H. exists c. split; [reflexivity|].
  unfold adj_get. exact H.
Qed.

Lemma routes_dict_in (l : list (string * attrs)) (k : string) (v : attrs) :
  In (k, v) l -> is_Some (routes_dict l !! k).
Proof.
  unfold routes_dict. induction l as [|x l IH] using rev_ind; [intros []|].
  intros Hin. rewrite fold_insert_snoc. destruct x as [k' v']. cbn.
  destruct (decide (k' = k)) as [->|Hkd].
  - rewrite lookup_insert_eq. eexists; reflexivity.
  - rewrite lookup_insert_ne by exact Hkd. apply IH.
    apply in_app_or in Hin as [H|[H|[]]]; [exact H|congruence].
Qed.

(** Claim C7 (as amended). For a session whose current location is a
    non-empty node id [c]: [start_leg(d)] raises [AlreadyTraveling]
    exactly when a leg is active; otherwise it raises [SameLocation] when
    [d = c] and [NoSuchRoute] when [d] is not a neighbour of [c]; each of
    these leaves the session unchanged.  Otherwise, when the distance
    attribute converts to a number, it succeeds and makes active a leg from
    [c] to [d] that snapshots the attributes of the (last) adjacency entry
    for [d], its distance, and a traveled distance of 0. *)
Theorem start_leg_outcomes (s : TravelSession) (c d : string) :
  current_city s = Some c -> c <> "" ->
  (fst (start_leg d s) = Raise AlreadyTraveling <-> is_Some (active_leg s)) /\
  (is_Some (active_leg s) -> start_leg d s = (Raise AlreadyTraveling, s)) /\
  (active_leg s = None -> d = c -> start_leg d s = (Raise SameLocation, s)) /\
  (active_leg s = None -> d <> c -> (forall a, ~ In (d, a) (adj_get (adjacency s) c)) ->
     start_leg d s = (Raise NoSuchRoute, s)) /\
  (active_leg s = None -> d <> c -> (exists a, In (d, a) (adj_get (adjacency s) c)) ->
     (forall a, In (d, a) (adj_get (adjacency s) c) -> is_Some (py_float (approx_distance a))) ->
     exists l s' l1 l2,
       start_leg d s = (Ok l, s') /\ active_leg s' = Some l /\
       adj_get (adjacency s) c = l1 ++ (d, leg_attrs l) :: l2 /\ ~ In d (map fst l2) /\
       origin l = c /\ destination l = d /\ traveled_km l = 0 /\
       py_float (approx_distance (leg_attrs l)) = Some (distance_km l)).
Proof.
  intros Hc Hne.
  pose proof (available_routes_set s c Hc Hne) as Har.
  unfold start_leg. unfold_M. rewrite Har, Hc.
  destruct (routes_dict_lookup (adj_get (adjacency s) c) d) as [Hlast Hnone].
  destruct (active_leg s) as [leg|] eqn:Ea.
  - split; [split; [intros _; eexists; reflexivity|reflexivity]|].
    split; [reflexivity|]. split; [intros H; discriminate H|]. split; intros H; discriminate H.
  - split.
    { split; [|intros [? ?]; discriminate]. cbn.
      destruct (bool_decide _); [discriminate|].
      destruct (routes_dict _ !! d); [|discriminate].
      destruct (py_float _); discriminate. }
    split; [intros [? ?]; discriminate|].
    split.
    { intros _ ->. rewrite bool_decide_eq_true_2 by reflexivity. reflexivity. }
    split.
    { intros _ Hdc Hn. rewrite bool_decide_eq_false_2 by congruence.
      rewrite (Hnone Hn). reflexivity. }
    intros _ Hdc [a0 Ha0] Hnum. rewrite bool_decide_eq_false_2 by congruence.
    destruct (routes_dict_in _ _ _ Ha0) as [a Er]. rewrite Er.
    destruct (Hlast a Er) as (l1 & l2 & Hsplit & Hn2).
    assert (Hin : In (d, a) (adj_get (adjacency s) c)).
    { rewrite Hsplit. apply in_or_app. right. left. reflexivity. }
    destruct (Hnum a Hin) as [q Hq]. rewrite Hq. cbn.
    eexists _, _, l1, l2. split; [reflexivity|]. cbn.
    repeat split; try assumption.
    rewrite <- list_elem_of_In. exact Hn2.
Qed.

(** ** The leg invariant *)

Lemma reset_trip_ok_inv (s : TravelSession) (a b : string) (s' : TravelSession) :
  reset_trip a b s = (Ok tt, s') -> adjacency s' = adjacency s /\ active_leg s' = None.
Proof.
  intros H. unfold reset_trip in H. unfold_M.
  destruct (_ && _); cbn in H; [injection H as <-; split; reflexivity|discriminate].
Qed.

Lemma travel_day_ok_inv (s : TravelSession) (m : string) (h : Q) (r : DayResult) (s' : TravelSession) :
  travel_day m h s = (Ok r, s') ->
  exists leg f, active_leg s = Some leg /\ 0 < h /\ difficulty_for_edge (leg_attrs leg) = Some f.
Proof.
  intros H. unfold travel_day in H. unfold_M.
  destruct (active_leg s) as [leg|]; cbn in H; [|discriminate].
  destruct (Qle_bool h 0) eqn:Eh; cbn in H; [discriminate|].
  destruct (difficulty_for_edge _) as [f|] eqn:Ef; cbn in H; [|discriminate].
  exists leg, f. split; [reflexivity|]. split; [|exact Ef].
  apply Qnot_le_lt. intros C. apply Qle_bool_iff in C. congruence.
Qed.

Lemma leg_inv_travel_day (adj : adjacency_t) (s : TravelSession) (m : string) (h : Q)
      (r : DayResult) (s' : TravelSession) :
  leg_inv adj s -> travel_day m h s = (Ok r, s') -> leg_inv adj s'.
Proof.
  intros [Hadj Hl] Hrun.
  destruct (travel_day_ok_inv _ _ _ _ _ Hrun) as (leg & f & Hleg & Hh & Hf).
  pose proof (travel_day_run s leg m h f Hleg Hh Hf) as Hstep. cbv zeta in Hstep.
  destruct Hstep as (r' & s'' & Hrun' & _ & _ & Hact & _ & Hadj' & _).
  rewrite Hrun in Hrun'. injection Hrun' as <- <-.
  destruct (Hl leg Hleg) as (Ht0 & Htd & Hf0).
  split; [congruence|].
  intros l Hl'. rewrite Hact in Hl'.
  destruct (isclose _ _ || Qle_bool _ _); [discriminate|].
  injection Hl' as <-. cbn.
  assert (Hsp := speed_for_mode_pos m). assert (Hf' := Hf0 f Hf).
  assert (Hpot : 0 <= speed_for_mode m * h * f).
  { apply Qmult_le_0_compat; [|exact Hf']. apply Qmult_le_0_compat; lra. }
  assert (Hrem : 0 <= remaining_km leg) by apply py_max0_nonneg.
  assert (Hrem' : remaining_km leg <= distance_km leg - traveled_km leg)
    by (apply py_max0_le; lra).
  pose proof (py_min_le_r (speed_for_mode m * h * f) (remaining_km leg)).
  pose proof (py_min_ge (speed_for_mode m * h * f) (remaining_km leg) 0 Hpot Hrem).
  split; [lra|]. split; [lra|]. exact Hf0.
Qed.

Lemma leg_inv_start_leg (adj : adjacency_t) (s : TravelSession) (d : string) (l : ActiveLeg)
      (s' : TravelSession) :
  adjacency_nonneg adj -> leg_inv adj s -> start_leg d s = (Ok l, s') -> leg_inv adj s'.
Proof.
  intros Hnn [Hadj _] Hrun.
  destruct (start_leg_ok_inv _ _ _ _ Hrun) as (_ & Hact & Hadj' & _ & Ht & _ & Hr & Hd).
  split; [congruence|].
  intros l' Hl'. rewrite Hact in Hl'. injection Hl' as <-.
  destruct (routes_dict_lookup (available_routes s) d) as [Hlast _].
  destruct (Hlast _ Hr) as (l1 & l2 & Hsplit & _).
  assert (Hin : In (d, leg_attrs l) (available_routes s)).
  { rewrite Hsplit. apply in_or_app. right. left. reflexivity. }
  destruct (available_routes_in _ _ _ Hin) as (c & _ & Hin').
  unfold adj_get in Hin'. rewrite Hadj in Hin'.
  destruct (adj !! c) as [es|] eqn:Ees; [|destruct Hin'].
  destruct (Hnn c es d (leg_attrs l) Ees Hin') as [Hdist Hdiff].
  rewrite Ht. split; [lra|]. split; [apply Hdist; exact Hd|exact Hdiff].
Qed.

Lemma leg_inv_reachable (ns : gmap string attrs) (adj : adjacency_t) (s : TravelSession) :
  adjacency_nonneg adj -> session_reachable (new_session ns adj) s -> leg_inv adj s.
Proof.
  intros Hnn Hr. induction Hr as [|s a b s' _ IH H|s d l s' _ IH H|s m h r s' _ IH H].
  - split; [reflexivity|]. intros l Hl. discriminate Hl.
  - destruct (reset_trip_ok_inv _ _ _ _ H) as [Ha Hl]. destruct IH as [IHa _].
    split; [congruence|]. intros l Hl'. congruence.
  - exact (leg_inv_start_leg adj s d l s' Hnn IH H).
  - exact (leg_inv_travel_day adj s m h r s' IH H).
Qed.

(** Claim C9 (as amended). In a session over a graph whose edge distances
    and difficulty factors are non-negative, every state reached by
    successful [reset_trip], [start_leg] and [travel_day] calls has an
    active leg, if any, with [0 <= traveled <= distance]; each
    [travel_day] call keeps this bound. *)
Theorem active_leg_within_bounds :
  forall (ns : gmap string attrs) (adj : adjacency_t) (s : TravelSession),
    adjacency_nonneg adj -> session_reachable (new_session ns adj) s ->
    (forall l, active_leg s = Some l -> 0 <= traveled_km l /\ traveled_km l <= distance_km l) /\
    (forall m h r s', travel_day m h s = (Ok r, s') ->
       forall l, active_leg s' = Some l -> 0 <= traveled_km l /\ traveled_km l <= distance_km l).
Proof.
  intros ns adj s Hnn Hr.
  pose proof (leg_inv_reachable ns adj s Hnn Hr) as Hinv.
  split.
  - intros l Hl. destruct Hinv as [_ H]. destruct (H l Hl) as (? & ? & _). split; assumption.
  - intros m h r s' Hrun l Hl.
    destruct (leg_inv_travel_day adj s m h r s' Hinv Hrun) as [_ H].
    destruct (H l Hl) as (? & ? & _). split; assumption.
Qed.

(** Claim C9, as worded for every session: a negative difficulty factor on
    the A--B edge makes [travel_day("foot", 1)] move the traveller 4.5 km
    backwards, leaving an active leg with a negative traveled distance. *)
Lemma active_leg_within_bounds_counterexample :
  ~ (forall (ns : gmap string attrs) (adj : adjacency_t) (s : TravelSession),
       session_reachable (new_session ns adj) s ->
       forall l, active_leg s = Some l -> 0 <= traveled_km l /\ traveled_km l <= distance_km l).
Proof.
  intros H.
  pose (a := edge_attrs_50 {[ "difficulty_factor" := VNum (-1) ]}).
  pose (s0 := session_AB a).
  pose (s1 := snd (reset_trip "A" "B" s0)).
  pose (s2 := snd (start_leg "B" s1)).
  assert (E1 : reset_trip "A" "B" s0 = (Ok tt, s1)) by (vm_compute; reflexivity).
  assert (E2 : start_leg "B" s1 = (Ok (mkLeg "A" "B" a 50 0), s2)) by (vm_compute; reflexivity).
  destruct (travel_day "foot" 1 s2) as [o3 s3] eqn:E3.
  assert (Hs3 : s3 = snd (travel_day "foot" 1 s2)) by (rewrite E3; reflexivity).
  destruct o3 as [r3|e3]; [|vm_compute in E3; discriminate E3].
  assert (Hr : session_reachable s0 s3).
  { eapply reach_travel; [|exact E3]. eapply reach_start; [|exact E2].
    eapply reach_reset; [|exact E1]. apply reach_init. }
  assert (Hl : exists l, active_leg s3 = Some l /\ traveled_km l < 0).
  { rewrite Hs3. vm_compute. eexists; split; [reflexivity|]. vm_compute. reflexivity. }
  destruct Hl as (l & Hl & Hneg).
  destruct (H _ _ s3 Hr l Hl) as [C _]. lra.
Qed.


(** ** Canonical edges *)

Lemma lookup_union_opt (m1 m2 : attrs) (i : string) :
  (m1 ∪ m2) !! i = match m1 !! i with Some x => Some x | None => m2 !! i end.
Proof. rewrite lookup_union. destruct (m1 !! i), (m2 !! i); reflexivity. Qed.

Lemma sorted_pair_comm (a b : string) : sorted_pair a b = sorted_pair b a.
Proof.
  unfold sorted_pair, String.ltb. rewrite (String.compare_antisym a b).
  destruct (String.compare b a) eqn:E; cbn; try reflexivity.
  apply String.compare_eq_iff in E. subst. reflexivity.
Qed.

Lemma sorted_pair_idem (a b : string) :
  sorted_pair (sorted_pair a b).1 (sorted_pair a b).2 = sorted_pair a b.
Proof.
  unfold sorted_pair at 2 3 4, String.ltb.
  destruct (String.compare b a) eqn:E; cbn; unfold sorted_pair, String.ltb.
  - rewrite E. reflexivity.
  - rewrite (String.compare_antisym a b), E. reflexivity.
  - rewrite E. reflexivity.
Qed.

Lemma find_index_from_none (key : string * string) (i : nat) (es : list attrs) :
  find_index_from key i es = Some None <-> Forall (key_differs key) es.
Proof.
  revert i. induction es as [|e es IH]; intros i; cbn.
  - split; [constructor|reflexivity].
  - rewrite Forall_cons. destruct (edge_key e) as [[k|]|] eqn:Ek.
    + case_bool_decide as Hk.
      * split; [discriminate|]. intros [(k' & Ek' & Hne) _]. rewrite Ek in Ek'.
        injection Ek' as <-. subst k. contradiction.
      * rewrite IH. split; [intros H; split; [exists (Some k); split; [exact Ek|congruence]|exact H]|tauto].
    + rewrite IH. split; [intros H; split; [exists None; split; [exact Ek|discriminate]|exact H]|tauto].
    + split; [discriminate|]. intros [(k' & Ek' & _) _]. congruence.
Qed.

Lemma find_index_from_some (key : string * string) (i j : nat) (es : list attrs) :
  find_index_from key i es = Some (Some j) ->
  exists l1 e l2, es = l1 ++ e :: l2 /\ j = (i + length l1)%nat /\
    edge_key e = Some (Some key) /\ Forall (key_differs key) l1.
Proof.
  revert i. induction es as [|e es IH]; intros i H; cbn in H; [discriminate|].
  destruct (edge_key e) as [[k|]|] eqn:Ek; [| |discriminate].
  - case_bool_decide as Hk.
    + injection H as <-. subst k. exists [], e, es. rewrite Nat.add_0_r. auto.
    + destruct (IH (S i) H) as (l1 & e' & l2 & -> & -> & He' & Hf).
      exists (e :: l1), e', l2. cbn. split; [reflexivity|]. split; [lia|]. split; [exact He'|].
      constructor; [exists (Some k); split; [exact Ek|congruence]|exact Hf].
  - destruct (IH (S i) H) as (l1 & e' & l2 & -> & -> & He' & Hf).
    exists (e :: l1), e', l2. cbn. split; [reflexivity|]. split; [lia|]. split; [exact He'|].
    constructor; [exists None; split; [exact Ek|discriminate]|exact Hf].
Qed.

(** Claim C4 (as amended). [add_edge(A, B, attrs)] and
    [add_edge(B, A, attrs)] behave identically; a successful call changes
    only the edge stored under the sorted pair key, whose bag becomes the
    new payload merged key by key over the previous bag (keys of the new
    payload win, the other keys of the previous bag are kept).  The
    editor's [upsert_edge] is also symmetric in its two endpoints and keeps
    the nodes; it does not duplicate the edge: the first edge stored for
    the pair is replaced in place by [{"nodes": [...], **attrs}] (instead
    of merging), and only when the pair has no edge is the new one
    appended. *)
Theorem add_edge_canonical_merge :
  (forall (g : Graph) (a b : string) (ea : attrs), add_edge g a b ea = add_edge g b a ea) /\
  (forall (g : Graph) (a b : string) (ea : attrs) (g' : Graph),
     add_edge g a b ea = Some g' ->
     let key := sorted_pair a b in
     g_nodes g' = g_nodes g /\
     (forall k, k <> key -> g_edges g' !! k = g_edges g !! k) /\
     exists e', g_edges g' !! key = Some e' /\
       forall j, e' !! j = match (ea ∪ edge_header key) !! j with
                           | Some v => Some v
                           | None => match g_edges g !! key with
                                     | Some old => old !! j
                                     | None => None
                                     end
                           end) /\
  (forall (gd : GraphData) (a b : string) (ea : attrs),
     upsert_edge gd a b ea = upsert_edge gd b a ea /\
     forall gd', upsert_edge gd a b ea = Some gd' ->
       let key := sorted_pair a b in
       let edge := ea ∪ {[ "nodes" := VList [VStr key.1; VStr key.2] ]} in
       gd_nodes gd' = gd_nodes gd /\
       ((exists l1 old l2, gd_edges gd = l1 ++ old :: l2 /\ Forall (key_differs key) l1 /\
           edge_key old = Some (Some key) /\ gd_edges gd' = l1 ++ edge :: l2) \/
        (Forall (key_differs key) (gd_edges gd) /\ gd_edges gd' = gd_edges gd ++ [edge]))).
Proof.
  split; [|split].
  - intros g a b ea. unfold add_edge.
    rewrite (sorted_pair_comm a b), (andb_comm (bool_decide (is_Some (g_nodes g !! a)))).
    reflexivity.
  - intros g a b ea g' H. cbv zeta. unfold add_edge in H.
    destruct (kwargs_clash _ _); [discriminate H|].
    destruct (_ && _); [|discriminate H]. cbv zeta in H.
    destruct (g_edges g !! sorted_pair a b) as [old|] eqn:Eold;
      injection H as <-; cbn [g_nodes g_edges]; (split; [reflexivity|]);
      (split; [intros k Hk; apply lookup_insert_ne; congruence|]);
      (eexists; split; [apply lookup_insert_eq|]); intros j.
    + apply lookup_union_opt.
    + destruct ((ea ∪ edge_header (sorted_pair a b)) !! j); reflexivity.
  - intros gd a b ea. split.
    + unfold upsert_edge, find_edge_index. rewrite (sorted_pair_comm a b). reflexivity.
    + intros gd' H key edge. unfold upsert_edge in H. fold key edge in H.
      destruct (find_edge_index gd a b) as [[idx|]|] eqn:Ef; [| |discriminate H];
        injection H as <-; cbn [gd_edges gd_nodes]; (split; [reflexivity|]).
      * left. unfold find_edge_index in Ef. fold key in Ef.
        destruct (find_index_from_some _ 0 idx _ Ef) as (l1 & old & l2 & Hes & -> & Hk & Hf).
        exists l1, old, l2. split; [exact Hes|]. split; [exact Hf|]. split; [exact Hk|].
        rewrite Hes, insert_app_r_alt by lia. rewrite Nat.sub_diag. reflexivity.
      * right. split; [|reflexivity]. unfold find_edge_index in Ef.
        apply find_index_from_none in Ef. exact Ef.
Qed.

(** Claim C4, as worded for [upsert_edge]: re-upserting the A--B edge of
    the editor's sample data with a bag that lacks [approx_distance_km]
    drops that key instead of keeping it. *)
Lemma upsert_edge_replaces_counterexample :
  (exists e, In e (gd_edges gd_AB) /\ e !! "approx_distance_km" = Some (VNum 10)) /\
  exists gd', upsert_edge gd_AB "B" "A" {[ "route_type" := VStr "road" ]} = Some gd' /\
    forall e, In e (gd_edges gd') -> e !! "approx_distance_km" = None.
Proof.
  split.
  - eexists. split; [left; reflexivity|]. vm_compute. reflexivity.
  - exists (mkGraphData (gd_nodes gd_AB)
             [<["route_type" := VStr "road"]> {[ "nodes" := VList [VStr "A"; VStr "B"] ]}]).
    split; [vm_compute; reflexivity|].
    intros e [<-|[]]. vm_compute. reflexivity.
Qed.

(** ** Cascading delete *)

Lemma filter_not_mentioning_In (x : string) (es r : list attrs) :
  filter_not_mentioning x es = Some r -> forall e, In e r -> edge_mentions x e = Some false.
Proof.
  revert r. induction es as [|e0 es IH]; intros r H e Hin; cbn in H.
  - injection H as <-. destruct Hin.
  - destruct (edge_mentions x e0) as [[|]|] eqn:Em, (filter_not_mentioning x es) as [r'|] eqn:Er;
      try discriminate H; injection H as <-.
    + exact (IH _ eq_refl e Hin).
    + destruct Hin as [<-|Hin]; [exact Em|exact (IH _ eq_refl e Hin)].
Qed.

Lemma edge_mentions_false (x : string) (e : attrs) :
  edge_mentions x e = Some false -> ~ edge_references e x.
Proof.
  unfold edge_mentions. intros H [(l & Hl & Hin)|(c1 & c2 & Hs & Hx)].
  - rewrite Hl in H. injection H as H.
    assert (existsb (fun v => match v with VStr s => String.eqb s x | _ => false end) l = true)
      as C by (apply existsb_exists; exists (VStr x); split; [exact Hin|apply String.eqb_refl]).
    congruence.
  - rewrite Hs in H. injection H as H.
    revert H. destruct Hx as [->| ->]; cbn;
      repeat (destruct (Ascii.ascii_dec _ _); cbn); congruence.
Qed.

(** Claim C6. After a successful [remove_node(X)] the node X is gone and
    no remaining edge references X as an endpoint. *)
Theorem remove_node_cascades (g : GraphData) (x : string) (g' : GraphData) :
  gd_remove_node g x = Some g' ->
  gd_nodes g' !! x = None /\ forall e, In e (gd_edges g') -> ~ edge_references e x.
Proof.
  unfold gd_remove_node. intros H.
  destruct (filter_not_mentioning x (gd_edges g)) as [es|] eqn:Ef; [|discriminate H].
  injection H as <-. cbn [gd_nodes gd_edges]. split.
  - destruct (gd_nodes g !! x) eqn:Ex; [apply lookup_delete_eq|exact Ex].
  - intros e Hin. apply edge_mentions_false. exact (filter_not_mentioning_In x _ _ Ef e Hin).
Qed.

Lemma remove_node_cascades_witness :
  gd_remove_node gd_AB "A" = Some (mkGraphData (delete "A" (gd_nodes gd_AB)) []) /\
  gd_nodes (mkGraphData (delete "A" (gd_nodes gd_AB)) []) !! "A" = None /\
  forall e, In e (gd_edges (mkGraphData (delete "A" (gd_nodes gd_AB)) [])) -> ~ edge_references e "A".
Proof.
  assert (E : gd_remove_node gd_AB "A" = Some (mkGraphData (delete "A" (gd_nodes gd_AB)) []))
    by (vm_compute; reflexivity).
  split; [exact E|]. exact (remove_node_cascades gd_AB "A" _ E).
Defined.

(** ** Serialisation round trip *)

Ltac lk := repeat first
  [ rewrite lookup_union_opt | rewrite lookup_insert_eq | rewrite lookup_insert_ne by discriminate
  | rewrite lookup_singleton_eq | rewrite lookup_singleton_ne by discriminate
  | rewrite lookup_delete_eq | rewrite lookup_delete_ne by discriminate ].

Lemma kwargs_clash_false (names : list string) (a : attrs) :
  kwargs_clash names a = false -> forall k, In k ("self" :: names) -> a !! k = None.
Proof.
  unfold kwargs_clash. intros H k Hk. destruct (a !! k) as [v|] eqn:E; [|reflexivity].
  exfalso. assert (C : existsb (fun k => bool_decide (is_Some (a !! k))) ("self" :: names) = true).
  { apply existsb_exists. exists k. split; [exact Hk|]. apply bool_decide_eq_true_2. rewrite E. eexists; reflexivity. }
  congruence.
Qed.

Lemma kwargs_clash_none (names : list string) (a : attrs) :
  (forall k, In k ("self" :: names) -> a !! k = None) -> kwargs_clash names a = false.
Proof.
  intros H. unfold kwargs_clash. apply not_true_iff_false. intros C.
  apply existsb_exists in C as (k & Hk & C). apply bool_decide_eq_true_1 in C.
  rewrite (H k Hk) in C. destruct C as [? C]. discriminate C.
Qed.

Lemma edge_ok_mono (ns ns' : gmap string attrs) (k : string * string) (v : attrs) :
  (forall j, is_Some (ns !! j) -> is_Some (ns' !! j)) -> edge_ok ns k v -> edge_ok ns' k v.
Proof. intros Hm (H1 & H2 & H3 & H4 & H5 & H6 & H7 & H8). repeat split; auto. Qed.

Lemma graph_ok_empty : graph_ok empty_graph.
Proof. split; intros k v H; cbn in H; rewrite lookup_empty in H; discriminate H. Qed.

Lemma add_node_ok (g g' : Graph) (n : string) (a : attrs) :
  graph_ok g -> a !! "id" = None -> add_node g n a = Some g' -> graph_ok g'.
Proof.
  intros [Hn He] Hid H. unfold add_node in H.
  destruct (kwargs_clash ["node_id"] a) eqn:Ek; [discriminate H|].
  pose proof (kwargs_clash_false _ _ Ek) as Hk.
  assert (Hself : a !! "self" = None) by (apply Hk; left; reflexivity).
  assert (Hnid : a !! "node_id" = None) by (apply Hk; right; left; reflexivity).
  assert (Hp : node_ok n (a ∪ {[ "id" := VStr n ]})).
  { unfold node_ok. lk. rewrite Hid, Hself, Hnid. lk. repeat split; reflexivity. }
  assert (Hmono : forall j, is_Some (g_nodes g !! j) ->
            forall v, is_Some (<[n := v]> (g_nodes g) !! j)).
  { intros j Hj v. destruct (decide (n = j)) as [->|Hne]; [rewrite lookup_insert_eq; eexists; reflexivity|].
    rewrite lookup_insert_ne by exact Hne. exact Hj. }
  destruct (g_nodes g !! n) as [old|] eqn:Eold; injection H as <-; split; cbn [g_nodes g_edges].
  - intros k v Hv. destruct (decide (n = k)) as [<-|Hne].
    + rewrite lookup_insert_eq in Hv. injection Hv as <-.
      destruct Hp as (P1 & P2 & P3). destruct (Hn n old Eold) as (_ & O2 & O3).
      unfold node_ok. rewrite !(lookup_union_opt _ old), P1, P2, P3, O2, O3. repeat split; reflexivity.
    + rewrite lookup_insert_ne in Hv by exact Hne. exact (Hn k v Hv).
  - intros k v Hv. apply (edge_ok_mono (g_nodes g)); [intros j Hj; apply Hmono, Hj|exact (He k v Hv)].
  - intros k v Hv. destruct (decide (n = k)) as [<-|Hne].
    + rewrite lookup_insert_eq in Hv. injection Hv as <-. exact Hp.
    + rewrite lookup_insert_ne in Hv by exact Hne. exact (Hn k v Hv).
  - intros k v Hv. apply (edge_ok_mono (g_nodes g)); [intros j Hj; apply Hmono, Hj|exact (He k v Hv)].
Qed.

Lemma sorted_pair_cases (a b : string) : sorted_pair a b = (a, b) \/ sorted_pair a b = (b, a).
Proof. unfold sorted_pair. destruct (String.ltb b a); [right|left]; reflexivity. Qed.

Lemma add_edge_ok (g g' : Graph) (s t : string) (a : attrs) :
  graph_ok g -> a !! "nodes" = None -> add_edge g s t a = Some g' -> graph_ok g'.
Proof.
  intros [Hn He] Hnodes H. unfold add_edge in H.
  destruct (kwargs_clash ["source"; "target"] a) eqn:Ek; [discriminate H|].
  pose proof (kwargs_clash_false _ _ Ek) as Hk.
  assert (Hself : a !! "self" = None) by (apply Hk; left; reflexivity).
  assert (Hsrc : a !! "source" = None) by (apply Hk; right; left; reflexivity).
  assert (Htgt : a !! "target" = None) by (apply Hk; right; right; left; reflexivity).
  destruct (bool_decide (is_Some (g_nodes g !! s))) eqn:Es; [|discriminate H].
  destruct (bool_decide (is_Some (g_nodes g !! t))) eqn:Et; [|discriminate H].
  apply bool_decide_eq_true_1 in Es, Et. cbn [andb] in H. cbv zeta in H.
  set (key := sorted_pair s t) in H.
  assert (Hp : edge_ok (g_nodes g) key (a ∪ edge_header key)).
  { unfold edge_ok, edge_header. lk. rewrite Hnodes, Hsrc, Htgt, Hself. lk.
    split; [reflexivity|]. split; [apply sorted_pair_idem|].
    split; [reflexivity|]. split; [reflexivity|]. split; [reflexivity|].
    split; [destruct (a !! "undirected"); eexists; reflexivity|].
    unfold key. destruct (sorted_pair_cases s t) as [-> | ->]; cbn; split; assumption. }
  destruct (g_edges g !! key) as [old|] eqn:Eold; injection H as <-; split; cbn [g_nodes g_edges];
    try exact Hn.
  - intros k v Hv. destruct (decide (key = k)) as [<-|Hne].
    + rewrite lookup_insert_eq in Hv. injection Hv as <-.
      destruct Hp as (P1 & P2 & P3 & P4 & P5 & [u P6] & P7 & P8).
      destruct (He key old Eold) as (_ & _ & O3 & O4 & O5 & _).
      unfold edge_ok. rewrite !(lookup_union_opt _ old), P1, P3, P4, P5, P6, O3, O4, O5.
      repeat split; try reflexivity; try assumption. eexists; reflexivity.
    + rewrite lookup_insert_ne in Hv by exact Hne. exact (He k v Hv).
  - intros k v Hv. destruct (decide (key = k)) as [<-|Hne].
    + rewrite lookup_insert_eq in Hv. injection Hv as <-. exact Hp.
    + rewrite lookup_insert_ne in Hv by exact Hne. exact (He k v Hv).
Qed.

Lemma build_graph_ok (ops : list graph_op) (g : Graph) :
  Forall op_no_reserved ops -> build_graph ops = Some g -> graph_ok g.
Proof.
  unfold build_graph. generalize empty_graph graph_ok_empty. intros g0 H0 Hops.
  revert g0 H0. induction Hops as [|op ops Hop Hops IH]; intros g0 H0 H; cbn in H.
  - injection H as <-. exact H0.
  - destruct (run_op g0 op) as [g1|] eqn:E; [|discriminate H].
    apply (IH g1); [|exact H].
    destruct op; cbn in Hop, E; [eapply add_node_ok|eapply add_edge_ok]; eassumption.
Qed.

Lemma In_merge_sort_keys {K A} `{Countable K} (R : relation K) `{!RelDecision R}
      (m : gmap K A) (j : K) :
  In j (merge_sort R (map fst (map_to_list m))) <-> is_Some (m !! j).
Proof.
  split.
  - intros Hin. apply Permutation_in with (l' := map fst (map_to_list m)) in Hin;
      [|apply merge_sort_Permutation].
    apply in_map_iff in Hin as ([k v] & <- & Hin).
    apply list_elem_of_In, elem_of_map_to_list in Hin. exists v. exact Hin.
  - intros [v Hv]. apply Permutation_in with (l := map fst (map_to_list m));
      [symmetry; apply merge_sort_Permutation|].
    apply in_map_iff. exists (j, v). split; [reflexivity|].
    apply list_elem_of_In, elem_of_map_to_list, Hv.
Qed.

Lemma NoDup_merge_sort_keys {K A} `{Countable K} (R : relation K) `{!RelDecision R}
      (m : gmap K A) :
  NoDup (merge_sort R (map fst (map_to_list m))).
Proof.
  rewrite (merge_sort_Permutation R). exact (NoDup_fst_map_to_list m).
Qed.

Lemma omap_cons_Some {X Y} (f : X -> option Y) (x : X) (l : list X) (y : Y) :
  f x = Some y -> omap f (x :: l) = y :: omap f l.
Proof. intros H. unfold omap, list_omap. rewrite H. reflexivity. Qed.

Lemma fold_load_nodes (N : gmap string attrs) (ks : list string) (G : Graph) :
  NoDup ks -> (forall k, In k ks -> g_nodes G !! k = None) ->
  (forall k, In k ks -> exists v, N !! k = Some v /\ node_ok k v) ->
  exists G', fold_opt load_node G (omap (fun k => N !! k) ks) = Some G' /\
    g_edges G' = g_edges G /\
    forall j, (In j ks -> g_nodes G' !! j = N !! j) /\ (~ In j ks -> g_nodes G' !! j = g_nodes G !! j).
Proof.
  revert G. induction ks as [|k ks IH]; intros G Hnd Hfresh Hok.
  - exists G. split; [reflexivity|]. split; [reflexivity|]. intros j. split; [intros []|reflexivity].
  - apply NoDup_cons in Hnd as [Hk Hnd]. rewrite list_elem_of_In in Hk.
    destruct (Hok k (or_introl eq_refl)) as (v & Hv & Hid & Hnid & Hself).
    rewrite (omap_cons_Some (fun k => N !! k) k ks v Hv). cbn [fold_opt].
    assert (Hload : load_node G v = Some (mkGraph (<[k := v]> (g_nodes G)) (g_edges G))).
    { unfold load_node. rewrite Hid. unfold add_node.
      rewrite kwargs_clash_none.
      2: { intros x [<-|[<-|[]]]; lk; assumption. }
      rewrite (Hfresh k (or_introl eq_refl)).
      replace (delete "id" v ∪ {[ "id" := VStr k ]}) with v; [reflexivity|].
      apply map_eq. intros j. lk. destruct (decide (j = "id")) as [->|Hne].
      - lk. exact Hid.
      - rewrite lookup_delete_ne by congruence. destruct (v !! j); [reflexivity|].
        rewrite lookup_singleton_ne by congruence. reflexivity. }
    rewrite Hload.
    destruct (IH (mkGraph (<[k := v]> (g_nodes G)) (g_edges G)) Hnd) as (G' & HG' & He & Hj).
    + intros k' Hk'. cbn [g_nodes]. rewrite lookup_insert_ne by (intros ->; contradiction).
      apply Hfresh. right. exact Hk'.
    + intros k' Hk'. apply Hok. right. exact Hk'.
    + exists G'. split; [exact HG'|]. split; [exact He|]. intros j.
      destruct (Hj j) as [Hin Hout]. split.
      * intros [<-|Hj']; [|exact (Hin Hj')].
        rewrite (Hout Hk). cbn [g_nodes]. rewrite lookup_insert_eq. symmetry. exact Hv.
      * intros Hn. rewrite Hout by (intros C; apply Hn; right; exact C). cbn [g_nodes].
        apply lookup_insert_ne. intros ->. apply Hn. left. reflexivity.
Qed.

Lemma load_edge_payload (k : string * string) (v : attrs) :
  v !! "nodes" = Some (VList [VStr k.1; VStr k.2]) ->
  v !! "source" = None -> v !! "target" = None -> is_Some (v !! "undirected") ->
  delete "nodes" (delete "source" (delete "target" v)) ∪ edge_header k = v.
Proof.
  intros Hn Hs Ht [u Hu]. apply map_eq. intros j. unfold edge_header. lk.
  destruct (decide (j = "nodes")) as [->|H1]; [lk; symmetry; exact Hn|].
  rewrite lookup_delete_ne by congruence.
  destruct (decide (j = "source")) as [->|H2]; [lk; rewrite Hs; reflexivity|].
  rewrite lookup_delete_ne by congruence.
  destruct (decide (j = "target")) as [->|H3]; [lk; rewrite Ht; reflexivity|].
  rewrite lookup_delete_ne by congruence.
  destruct (v !! j) eqn:Ej; [reflexivity|].
  rewrite lookup_insert_ne by congruence.
  destruct (decide (j = "undirected")) as [->|H4]; [congruence|].
  rewrite lookup_singleton_ne by congruence. reflexivity.
Qed.

Lemma fold_load_edges (E : gmap (string * string) attrs) (ks : list (string * string)) (G : Graph) :
  NoDup ks -> (forall k, In k ks -> g_edges G !! k = None) ->
  (forall k, In k ks -> exists v, E !! k = Some v /\ edge_ok (g_nodes G) k v) ->
  exists G', fold_opt load_edge G (omap (fun k => E !! k) ks) = Some G' /\
    g_nodes G' = g_nodes G /\
    forall j, (In j ks -> g_edges G' !! j = E !! j) /\ (~ In j ks -> g_edges G' !! j = g_edges G !! j).
Proof.
  revert G. induction ks as [|k ks IH]; intros G Hnd Hfresh Hok.
  - exists G. split; [reflexivity|]. split; [reflexivity|]. intros j. split; [intros []|reflexivity].
  - apply NoDup_cons in Hnd as [Hk Hnd]. rewrite list_elem_of_In in Hk.
    destruct (Hok k (or_introl eq_refl)) as (v & Hv & Hn & Hsp & Hs & Ht & Hself & Hu & H1 & H2).
    rewrite (omap_cons_Some (fun k => E !! k) k ks v Hv). cbn [fold_opt].
    assert (Hload : load_edge G v = Some (mkGraph (g_nodes G) (<[k := v]> (g_edges G)))).
    { unfold load_edge, edge_endpoints. rewrite Hn. cbn [py_len length unpack2].
      unfold add_edge. rewrite kwargs_clash_none.
      2: { intros x [<-|[<-|[<-|[]]]]; lk; [exact Hself|reflexivity|reflexivity]. }
      rewrite !bool_decide_eq_true_2 by assumption. cbn [andb]. cbv zeta.
      rewrite Hsp, (Hfresh k (or_introl eq_refl)).
      rewrite (load_edge_payload k v Hn Hs Ht Hu). reflexivity. }
    rewrite Hload.
    destruct (IH (mkGraph (g_nodes G) (<[k := v]> (g_edges G))) Hnd) as (G' & HG' & HN & Hj).
    + intros k' Hk'. cbn [g_edges]. rewrite lookup_insert_ne by (intros ->; contradiction).
      apply Hfresh. right. exact Hk'.
    + intros k' Hk'. apply Hok. right. exact Hk'.
    + exists G'. split; [exact HG'|]. split; [exact HN|]. intros j.
      destruct (Hj j) as [Hin Hout]. split.
      * intros [<-|Hj']; [|exact (Hin Hj')].
        rewrite (Hout Hk). cbn [g_edges]. rewrite lookup_insert_eq. symmetry. exact Hv.
      * intros Hn'. rewrite Hout by (intros C; apply Hn'; right; exact C). cbn [g_edges].
        apply lookup_insert_ne. intros ->. apply Hn'. left. reflexivity.
Qed.

Lemma roundtrip_ok (g : Graph) : graph_ok g -> from_dict (to_dict g) = Some g.
Proof.
  intros [Hn He]. unfold from_dict, to_dict. cbn [doc_nodes doc_edges].
  destruct (fold_load_nodes (g_nodes g) (merge_sort str_le (map fst (map_to_list (g_nodes g))))
              empty_graph) as (G1 & HG1 & HE1 & HN1).
  - apply NoDup_merge_sort_keys.
  - intros k _. apply lookup_empty.
  - intros k Hk. apply In_merge_sort_keys in Hk as [v Hv]. exists v. split; [exact Hv|].
    exact (Hn k v Hv).
  - assert (HG1n : g_nodes G1 = g_nodes g).
    { apply map_eq. intros j. destruct (HN1 j) as [Hin Hout].
      destruct (g_nodes g !! j) eqn:Ej.
      - apply Hin, In_merge_sort_keys. rewrite Ej. eexists; reflexivity.
      - rewrite Hout; [apply lookup_empty|].
        intros Hj. apply In_merge_sort_keys in Hj. rewrite Ej in Hj. destruct Hj as [? C]; discriminate C. }
    rewrite HG1.
    destruct (fold_load_edges (g_edges g) (merge_sort pair_le (map fst (map_to_list (g_edges g))))
                G1) as (G2 & HG2 & HN2 & HE2).
    + apply NoDup_merge_sort_keys.
    + intros k _. rewrite HE1. apply lookup_empty.
    + intros k Hk. apply In_merge_sort_keys in Hk as [v Hv]. exists v. split; [exact Hv|].
      rewrite HG1n. exact (He k v Hv).
    + rewrite HG2. f_equal. destruct G2 as [n2 e2], g as [n e]. cbn in *. f_equal; [congruence|].
      apply map_eq. intros j. destruct (HE2 j) as [Hin Hout].
      destruct (e !! j) eqn:Ej.
      * apply Hin, In_merge_sort_keys. rewrite Ej. eexists; reflexivity.
      * rewrite Hout, HE1; [apply lookup_empty|].
        intros Hj. apply In_merge_sort_keys in Hj. rewrite Ej in Hj. destruct Hj as [? C]; discriminate C.
Qed.

(** Claim C3 (as amended). A graph built by [add_node]/[add_edge] calls
    whose node bags carry no ["id"] keyword and whose edge bags carry no
    ["nodes"] keyword survives [from_dict(to_dict(g))] unchanged: the same
    node bags under the same ids and the same edge bags under the same
    sorted pairs. *)
Theorem to_dict_from_dict_roundtrip (ops : list graph_op) (g : Graph) :
  Forall op_no_reserved ops -> build_graph ops = Some g -> from_dict (to_dict g) = Some g.
Proof. intros Hops Hb. apply roundtrip_ok. exact (build_graph_ok ops g Hops Hb). Qed.

(** Claim C3, as worded for every graph: an edge added with a ["nodes"]
    keyword of length three is stored, but [from_dict] refuses the
    serialised edge (its ["nodes"] has not length two and it has no
    [source]/[target]), so the round trip raises instead of giving the
    graph back. *)
Lemma roundtrip_counterexample :
  exists g, build_graph [OpAddNode "A" ∅; OpAddNode "B" ∅;
                         OpAddEdge "A" "B" {[ "nodes" := VStr "xyz" ]}] = Some g /\
            from_dict (to_dict g) = None.
Proof.
  exists (match build_graph [OpAddNode "A" ∅; OpAddNode "B" ∅;
                             OpAddEdge "A" "B" {[ "nodes" := VStr "xyz" ]}] with
          | Some g => g | None => empty_graph end).
  split; vm_compute; reflexivity.
Qed.

(* ------------------------------------------------------------------ *)
(** ** shortest_path: termination, optimality and the no-route cases *)

Lemma extract_min_spec (x : Q * string) (l : list (Q * string)) (m : Q * string) (r : list (Q * string)) :
  extract_min x l = (m, r) -> Permutation (x :: l) (m :: r) /\ forall y, In y (x :: l) -> m.1 <= y.1.
Proof.
  revert x m r. induction l as [|y l IH]; intros x m r H; cbn in H.
  - injection H as <- <-. split; [reflexivity|]. intros y [<-|[]]. apply Qle_refl.
  - destruct (entry_lt y x) eqn:Elt.
    + destruct (extract_min y l) as [m' r'] eqn:E. injection H as <- <-.
      destruct (IH y m' r' E) as [Hp Hm]. split.
      * transitivity (x :: m' :: r'); [apply perm_skip, Hp|apply perm_swap].
      * assert (Hyx : y.1 <= x.1).
        { unfold entry_lt in Elt. apply orb_true_iff in Elt as [E1|E1].
          - apply Qltb_iff in E1. apply Qlt_le_weak, E1.
          - apply andb_true_iff in E1 as [E1 _]. apply Qeq_bool_iff in E1. rewrite E1. apply Qle_refl. }
        intros z [<-|[<-|Hz]].
        -- apply Qle_trans with y.1; [apply Hm; left; reflexivity|exact Hyx].
        -- apply Hm. left. reflexivity.
        -- apply Hm. right. exact Hz.
    + destruct (extract_min x l) as [m' r'] eqn:E. injection H as <- <-.
      destruct (IH x m' r' E) as [Hp Hm]. split.
      * transitivity (y :: x :: l); [apply perm_swap|].
        transitivity (y :: m' :: r'); [apply perm_skip, Hp|apply perm_swap].
      * assert (Hxy : x.1 <= y.1).
        { unfold entry_lt in Elt. apply orb_false_iff in Elt as [E1 _].
          apply Qnot_lt_le. intros C. apply Qltb_iff in C. congruence. }
        intros z [<-|[<-|Hz]].
        -- apply Hm. left. reflexivity.
        -- apply Qle_trans with x.1; [apply Hm; left; reflexivity|exact Hxy].
        -- apply Hm. right. exact Hz.
Qed.

Lemma heappop_spec (H h : list (Q * string)) (c : Q) (u : string) :
  heappop H = Some ((c, u), h) ->
  (forall e, In e H <-> e = (c, u) \/ In e h) /\ length H = S (length h) /\
  forall y, In y H -> c <= y.1.
Proof.
  destruct H as [|x l]; cbn; [discriminate|]. intros E. injection E as E.
  destruct (extract_min_spec x l _ _ E) as [Hp Hm].
  split; [|split].
  - intros e. split.
    + intros Hin. apply (Permutation_in _ Hp) in Hin. destruct Hin as [<-|Hin]; [left|right]; auto.
    + intros Hin. apply (Permutation_in _ (Permutation_sym Hp)).
      destruct Hin as [->|Hin]; [left; reflexivity|right; exact Hin].
  - apply Permutation_length in Hp. exact Hp.
  - exact Hm.
Qed.

Lemma improves_true (D : gmap string Q) (v : string) (q : Q) :
  improves D v q = true -> forall old, D !! v = Some old -> q < old.
Proof. unfold improves. intros H old E. rewrite E in H. apply Qltb_iff, H. Qed.

Lemma improves_false (D : gmap string Q) (v : string) (q : Q) :
  improves D v q = false -> exists old, D !! v = Some old /\ old <= q.
Proof.
  unfold improves. destruct (D !! v) as [old|]; [|discriminate].
  intros H. exists old. split; [reflexivity|]. apply Qnot_lt_le. intros C.
  apply Qltb_iff in C. congruence.
Qed.

Lemma relax_spec (node : string) (cost : Q) (es : list (string * attrs)) (st : search_state) :
  (forall v a, In (v, a) es -> exists w, edge_weight a = Some w /\ 0 <= w) ->
  exists st', relax node cost es st = Some st' /\
   (forall v, (dist st' !! v = dist st !! v /\ prev st' !! v = prev st !! v) \/
      (exists a w, In (v, a) es /\ edge_weight a = Some w /\ dist st' !! v = Some (cost + w) /\
         prev st' !! v = Some node /\ In (cost + w, v) (heap st') /\
         forall old, dist st !! v = Some old -> cost + w < old)) /\
   (forall c v, In (c, v) (heap st') -> In (c, v) (heap st) \/
      ((exists dv, dist st' !! v = Some dv /\ dv <= c) /\
       exists a w, In (v, a) es /\ edge_weight a = Some w /\ c = cost + w)) /\
   (forall v old, dist st !! v = Some old -> exists new, dist st' !! v = Some new /\ new <= old) /\
   (forall v a w, In (v, a) es -> edge_weight a = Some w ->
      exists dv, dist st' !! v = Some dv /\ dv <= cost + w) /\
   (length (heap st') <= length (heap st) + length es)%nat /\
   (forall e, In e (heap st) -> In e (heap st')).
Proof.
  revert st. induction es as [|[v0 a0] es IH]; intros st Hw.
  - exists st. split; [reflexivity|]. split; [intros v; left; split; reflexivity|].
    split; [intros c v Hin; left; exact Hin|].
    split; [intros v old E; exists old; split; [exact E|apply Qle_refl]|].
    split; [intros v a w []|]. split; [cbn; lia|]. intros e He; exact He.
  - destruct (Hw v0 a0 (or_introl eq_refl)) as (w0 & Ew0 & Hw0).
    assert (Hw' : forall v a, In (v, a) es -> exists w, edge_weight a = Some w /\ 0 <= w)
      by (intros v a Hin; apply (Hw v a); right; exact Hin).
    cbn [relax]. rewrite Ew0. cbv zeta.
    destruct (improves (dist st) v0 (cost + w0)) eqn:Ei.
    + set (st1 := mkSearch (<[v0 := cost + w0]> (dist st)) (<[v0 := node]> (prev st))
                           (heappush (heap st) (cost + w0, v0))).
      destruct (IH st1 Hw') as (st' & Hrun & R1 & R3 & R4 & R5 & R6 & R7).
      exists st'. split; [exact Hrun|].
      assert (Hd1 : dist st1 !! v0 = Some (cost + w0)) by apply lookup_insert_eq.
      split.
      { intros v. destruct (decide (v = v0)) as [->|Hne].
        - right. destruct (R1 v0) as [[E1 E2]|(a & w & Hin & Ew & E1 & E2 & E3 & E4)].
          + exists a0, w0. split; [left; reflexivity|]. split; [exact Ew0|].
            split; [rewrite E1; exact Hd1|]. split; [rewrite E2; apply lookup_insert_eq|].
            split; [apply R7; left; reflexivity|]. exact (improves_true _ _ _ Ei).
          + exists a, w. split; [right; exact Hin|]. do 4 (split; [assumption|]).
            intros old Eo. specialize (E4 _ Hd1).
            pose proof (improves_true _ _ _ Ei old Eo). lra.
        - destruct (R1 v) as [[E1 E2]|(a & w & Hin & Ew & E1 & E2 & E3 & E4)].
          + left. unfold st1 in E1, E2; cbn [dist prev] in E1, E2.
            rewrite lookup_insert_ne in E1 by congruence.
            rewrite lookup_insert_ne in E2 by congruence. split; assumption.
          + right. exists a, w. split; [right; exact Hin|]. do 4 (split; [assumption|]).
            intros old Eo. apply E4. unfold st1; cbn [dist]. rewrite lookup_insert_ne by congruence. exact Eo. }
      split.
      { intros c v Hin. destruct (R3 c v Hin) as [[E|Hin']|[Hd (a & w & Hin' & Ew & ->)]].
        - injection E as <- <-. right. split.
          + destruct (R4 v0 _ Hd1) as (n & En & Hn). exists n. split; assumption.
          + exists a0, w0. split; [left; reflexivity|]. split; [exact Ew0|reflexivity].
        - left. exact Hin'.
        - right. split; [exact Hd|]. exists a, w. split; [right; exact Hin'|]. split; [exact Ew|reflexivity]. }
      split.
      { intros v old Eo. destruct (decide (v = v0)) as [->|Hne].
        - destruct (R4 v0 _ Hd1) as (n & En & Hn). exists n. split; [exact En|].
          pose proof (improves_true _ _ _ Ei old Eo). lra.
        - apply R4. unfold st1; cbn [dist]. rewrite lookup_insert_ne by congruence. exact Eo. }
      split.
      { intros v a w [E|Hin] Ew.
        - injection E as <- <-. rewrite Ew0 in Ew. injection Ew as <-.
          destruct (R4 v0 _ Hd1) as (n & En & Hn). exists n. split; assumption.
        - exact (R5 v a w Hin Ew). }
      split.
      { unfold st1 in R6; cbn [heap heappush length] in R6. cbn [length]. lia. }
      intros e He. apply R7. right. exact He.
    + destruct (IH st Hw') as (st' & Hrun & R1 & R3 & R4 & R5 & R6 & R7).
      exists st'. split; [exact Hrun|].
      split.
      { intros v. destruct (R1 v) as [E|(a & w & Hin & Rest)]; [left; exact E|].
        right. exists a, w. split; [right; exact Hin|exact Rest]. }
      split.
      { intros c v Hin. destruct (R3 c v Hin) as [Hin'|[Hd (a & w & Hin' & Rest)]]; [left; exact Hin'|].
        right. split; [exact Hd|]. exists a, w. split; [right; exact Hin'|exact Rest]. }
      split; [exact R4|].
      split.
      { intros v a w [E|Hin] Ew.
        - injection E as <- <-. rewrite Ew0 in Ew. injection Ew as <-.
          destruct (improves_false _ _ _ Ei) as (old & Eo & Ho).
          destruct (R4 v0 old Eo) as (n & En & Hn). exists n. split; [exact En|]. lra.
        - exact (R5 v a w Hin Ew). }
      split; [cbn [length]; lia|exact R7].
Qed.

Lemma relax_noop (node : string) (cost : Q) (es : list (string * attrs)) (st : search_state) :
  (forall v a, In (v, a) es -> exists w, edge_weight a = Some w /\
     exists dv, dist st !! v = Some dv /\ dv <= cost + w) ->
  relax node cost es st = Some st.
Proof.
  induction es as [|[v0 a0] es IH]; intros H; [reflexivity|].
  destruct (H v0 a0 (or_introl eq_refl)) as (w & Ew & dv & Ed & Hle).
  cbn [relax]. rewrite Ew. cbv zeta. unfold improves. rewrite Ed.
  rewrite (proj2 (Qltb_false _ _) Hle).
  apply IH. intros v a Hin. apply H. right. exact Hin.
Qed.

Lemma adj_get_In (adj : adjacency_t) (u v : string) (a : attrs) :
  In (v, a) (adj_get adj u) -> exists es, adj !! u = Some es /\ In (v, a) es.
Proof.
  unfold adj_get. destruct (adj !! u) as [es|]; [|intros []]. intros H. exists es. split; [reflexivity|exact H].
Qed.

Lemma weights_nonneg_get (adj : adjacency_t) (u v : string) (a : attrs) :
  weights_nonneg adj -> In (v, a) (adj_get adj u) -> exists w, edge_weight a = Some w /\ 0 <= w.
Proof.
  intros Hnn Hin. destruct (adj_get_In adj u v a Hin) as (es & Ees & Hin').
  exact (Hnn u es v a Ees Hin').
Qed.

Lemma edge_weight_num (a : attrs) (w : Q) :
  edge_weight a = Some w -> exists km, py_num (approx_distance a) = Some km.
Proof.
  unfold edge_weight. destruct (py_num (approx_distance a)) as [b|]; [|discriminate].
  intros _. exists b. reflexivity.
Qed.

Lemma walk_cost_nonneg (adj : adjacency_t) (u w : string) (p : list string) (c k : Q) :
  weights_nonneg adj -> walk adj u w p c k -> 0 <= c.
Proof.
  intros Hnn H. induction H as [u|u v w es a wt km p c k Ees Hin Ew Hkm _ IH]; [apply Qle_refl|].
  destruct (Hnn u es v a Ees Hin) as (w' & Ew' & Hw'). rewrite Ew in Ew'. injection Ew' as <-. lra.
Qed.

Lemma walk_snoc (adj : adjacency_t) (s u v : string) (p : list string) (c k : Q) (a : attrs) (w : Q) :
  walk adj s u p c k -> In (v, a) (adj_get adj u) -> edge_weight a = Some w ->
  exists c' k', walk adj s v (p ++ [v]) c' k'.
Proof.
  intros H. induction H as [u|u x y es b wt km p c k Ees Hin Ew Hkm _ IH]; intros Hva Hw.
  - destruct (adj_get_In adj u v a Hva) as (es & Ees & Hin).
    destruct (edge_weight_num a w Hw) as [km Hkm].
    exists (w + 0), (km + 0). cbn. eapply walk_step; [exact Ees|exact Hin|exact Hw|exact Hkm|apply walk_here].
  - destruct (IH Hva Hw) as (c' & k' & Hw').
    exists (wt + c'), (km + k'). cbn. eapply walk_step; eassumption.
Qed.

(** Pending edges of unsettled nodes. *)
Lemma pend_cons (S : list string) (x : string) (es : list (string * attrs)) (L : list (string * list (string * attrs))) :
  pend S ((x, es) :: L) = ((if in_dec String.string_dec x S then 0 else length es) + pend S L)%nat.
Proof. reflexivity. Qed.

Lemma pend_absent (u : string) (S : list string) (L : list (string * list (string * attrs))) :
  (forall es, ~ In (u, es) L) -> pend (u :: S) L = pend S L.
Proof.
  induction L as [|[x es'] L IH]; intros H; [reflexivity|].
  rewrite !pend_cons. rewrite IH by (intros es Hin; apply (H es); right; exact Hin).
  f_equal. destruct (in_dec String.string_dec x (u :: S)) as [Hi|Hi], (in_dec String.string_dec x S) as [Hj|Hj];
    try reflexivity.
  - destruct Hi as [->|Hi]; [|contradiction]. exfalso. apply (H es'). left. reflexivity.
  - exfalso. apply Hi. right. exact Hj.
Qed.

Lemma pend_cons_le (u : string) (S : list string) (L : list (string * list (string * attrs))) :
  (pend (u :: S) L <= pend S L)%nat.
Proof.
  induction L as [|[x es'] L IH]; [cbn; lia|]. rewrite !pend_cons.
  destruct (in_dec String.string_dec x (u :: S)) as [Hi|Hi], (in_dec String.string_dec x S) as [Hj|Hj];
    try lia.
  exfalso. apply Hi. right. exact Hj.
Qed.

Lemma pend_settle (u : string) (S : list string) (L : list (string * list (string * attrs))) (es : list (string * attrs)) :
  ~ In u S -> NoDup (map fst L) -> In (u, es) L -> (pend (u :: S) L + length es = pend S L)%nat.
Proof.
  intros Hu. induction L as [|[x es'] L IH]; intros Hnd Hin; [destruct Hin|].
  cbn [map fst] in Hnd. apply NoDup_cons in Hnd as [Hx Hnd]. rewrite list_elem_of_In in Hx.
  rewrite !pend_cons.
  destruct Hin as [E|Hin].
  - injection E as -> ->.
    destruct (in_dec String.string_dec u (u :: S)) as [_|Hi]; [|exfalso; apply Hi; left; reflexivity].
    destruct (in_dec String.string_dec u S) as [Hj|_]; [contradiction|].
    rewrite pend_absent; [lia|].
    intros es2 Hin2. apply Hx. apply in_map_iff. exists (u, es2). split; [reflexivity|exact Hin2].
  - rewrite <- (IH Hnd Hin).
    destruct (in_dec String.string_dec x (u :: S)) as [Hi|Hi], (in_dec String.string_dec x S) as [Hj|Hj];
      try lia.
    + destruct Hi as [<-|Hi]; [|contradiction].
      exfalso. apply Hx. apply in_map_iff. exists (u, es). split; [reflexivity|exact Hin].
    + exfalso. apply Hi. right. exact Hj.
Qed.

Lemma pending_settle (adj : adjacency_t) (u : string) (S : list string) :
  ~ In u S -> (pending adj (u :: S) + length (adj_get adj u) = pending adj S)%nat.
Proof.
  intros Hu. unfold pending, adj_get. destruct (adj !! u) as [es|] eqn:E.
  - apply pend_settle; [exact Hu| |].
    + exact (NoDup_fst_map_to_list adj).
    + apply list_elem_of_In, elem_of_map_to_list, E.
  - rewrite pend_absent; [cbn; lia|].
    intros es Hin. apply list_elem_of_In, elem_of_map_to_list in Hin. congruence.
Qed.

Section Search.
Variable adj : adjacency_t.
Variables s d : string.
Hypothesis Hnn : weights_nonneg adj.

Lemma dinv_init : dinv adj s d (mkSearch {[ s := 0 ]} ∅ [(0, s)]) [].
Proof.
  constructor; cbn [dist prev heap].
  - apply lookup_singleton_eq.
  - intros v dv E. apply lookup_singleton_Some in E as [_ <-]. apply Qle_refl.
  - intros c v [E|[]]. injection E as <- <-. exists 0. split; [apply lookup_singleton_eq|apply Qle_refl].
  - intros v dv E _. apply lookup_singleton_Some in E as [<- <-]. left. reflexivity.
  - intros u du [].
  - intros u [].
  - intros u du c v [].
  - intros u [].
  - intros v u E. rewrite lookup_empty in E. discriminate E.
  - intros v u E. rewrite lookup_empty in E. discriminate E.
  - intros v [dv E] Hv. apply lookup_singleton_Some in E as [<- _]. contradiction.
  - intros v dv E. apply lookup_singleton_Some in E as [<- _]. exists [s], 0, 0. apply walk_here.
  - intros v u E. rewrite lookup_empty in E. discriminate E.
Qed.

Lemma dinv_drop (st : search_state) (S : list string) (c : Q) (u : string) (h : list (Q * string)) :
  dinv adj s d st S -> heappop (heap st) = Some ((c, u), h) ->
  (~ In u S -> forall du, dist st !! u = Some du -> du <> c) ->
  dinv adj s d (mkSearch (dist st) (prev st) h) S.
Proof.
  intros I Hp Hu. destruct (heappop_spec _ _ _ _ Hp) as (Hin & _ & _).
  destruct I. constructor; cbn [dist prev heap]; try assumption.
  - intros c' v H. apply di_heap0, Hin. right. exact H.
  - intros v dv E Hv. apply di_open0 in E as E'; [|exact Hv].
    apply Hin in E' as [E'|E']; [|exact E'].
    injection E' as Edc Evu. subst v. exfalso. exact (Hu Hv dv E Edc).
  - intros u' du c' v H1 H2 H3. apply (di_settled_min0 u' du c' v H1 H2). apply Hin. right. exact H3.
Qed.

Lemma dinv_settle (st : search_state) (S : list string) (c : Q) (u : string) (h : list (Q * string)) (du : Q) :
  dinv adj s d st S -> heappop (heap st) = Some ((c, u), h) ->
  dist st !! u = Some du -> du <= c -> c <= du -> u <> d -> ~ In u S ->
  exists st', relax u c (adj_get adj u) (mkSearch (dist st) (prev st) h) = Some st' /\
    dinv adj s d st' (u :: S) /\
    (length (heap st') <= length h + length (adj_get adj u))%nat.
Proof.
  intros I Hp Hdu Hle1 Hle2 Hud HuS.
  destruct (heappop_spec _ _ _ _ Hp) as (Hin & _ & Hmin).
  assert (HcH : In (c, u) (heap st)) by (apply Hin; left; reflexivity).
  assert (Hc0 : 0 <= c) by (pose proof (di_nonneg _ _ _ _ _ I u du Hdu); lra).
  destruct (relax_spec u c (adj_get adj u) (mkSearch (dist st) (prev st) h))
    as (st' & Hrun & R1 & R3 & R4 & R5 & R6 & R7).
  { intros v a H. exact (weights_nonneg_get adj u v a Hnn H). }
  cbn [dist prev heap] in R1, R3, R4, R6, R7.
  exists st'. split; [exact Hrun|]. split; [|exact R6].
  (* settled nodes keep their distance and predecessor *)
  assert (F1 : forall x, (x = u \/ In x S) -> dist st' !! x = dist st !! x /\ prev st' !! x = prev st !! x).
  { intros x Hx. destruct (R1 x) as [E|(a & w & Hva & Ew & E1 & _ & _ & Hlt)]; [exact E|exfalso].
    destruct (weights_nonneg_get adj u x a Hnn Hva) as (w' & Ew' & Hw'). rewrite Ew in Ew'. injection Ew' as <-.
    destruct Hx as [->|Hx].
    - specialize (Hlt du Hdu). lra.
    - destruct (di_settled_dom _ _ _ _ _ I x Hx) as [dx Edx].
      specialize (Hlt dx Edx). pose proof (di_settled_min _ _ _ _ _ I x dx c u Hx Edx HcH). lra. }
  destruct I. constructor.
  - destruct (R1 s) as [[E _]|(a & w & Hva & Ew & E1 & _ & _ & Hlt)]; [rewrite E; exact di_src0|].
    exfalso. destruct (weights_nonneg_get adj u s a Hnn Hva) as (w' & Ew' & Hw').
    rewrite Ew in Ew'. injection Ew' as <-. specialize (Hlt 0 di_src0). lra.
  - intros v dv E. destruct (R1 v) as [[E' _]|(a & w & Hva & Ew & E1 & _ & _ & _)].
    + rewrite E' in E. exact (di_nonneg0 v dv E).
    + destruct (weights_nonneg_get adj u v a Hnn Hva) as (w' & Ew' & Hw').
      rewrite Ew in Ew'. injection Ew' as <-. rewrite E in E1. injection E1 as ->. lra.
  - intros c' v H. destruct (R3 c' v H) as [H'|[Hd _]]; [|exact Hd].
    destruct (di_heap0 c' v (proj2 (Hin _) (or_intror H'))) as (dv & Edv & Hdv).
    destruct (R4 v dv Edv) as (n & En & Hn). exists n. split; [exact En|]. lra.
  - intros v dv E Hv. destruct (R1 v) as [[E' _]|(a & w & Hva & Ew & E1 & _ & Hh & _)].
    + rewrite E' in E. assert (Hv' : ~ In v S) by (intros C; apply Hv; right; exact C).
      apply (di_open0 v dv E) in Hv'. apply Hin in Hv' as [Hv'|Hv'].
      * injection Hv' as _ ->. exfalso. apply Hv. left. reflexivity.
      * apply R7. exact Hv'.
    + rewrite E in E1. injection E1 as ->. exact Hh.
  - intros x dx Hx Edx v a w Hva Ew.
    destruct (F1 x (match Hx with or_introl e => or_introl (eq_sym e) | or_intror i => or_intror i end))
      as [Ex _]. rewrite Ex in Edx.
    destruct Hx as [<-|Hx].
    + rewrite Hdu in Edx. injection Edx as <-.
      destruct (R5 v a w Hva Ew) as (dv & Edv & Hdv). exists dv. split; [exact Edv|]. lra.
    + destruct (di_relaxed0 x dx Hx Edx v a w Hva Ew) as (dv & Edv & Hdv).
      destruct (R4 v dv Edv) as (n & En & Hn). exists n. split; [exact En|]. lra.
  - intros x Hx.
    destruct (F1 x (match Hx with or_introl e => or_introl (eq_sym e) | or_intror i => or_intror i end))
      as [Ex _]. rewrite Ex.
    destruct Hx as [<-|Hx]; [rewrite Hdu; eexists; reflexivity|exact (di_settled_dom0 x Hx)].
  - intros x dx c' v Hx Edx H.
    destruct (F1 x (match Hx with or_introl e => or_introl (eq_sym e) | or_intror i => or_intror i end))
      as [Ex _]. rewrite Ex in Edx.
    assert (Hxc : dx <= c).
    { destruct Hx as [<-|Hx]; [rewrite Hdu in Edx; injection Edx as <-; exact Hle1|].
      exact (di_settled_min0 x dx c u Hx Edx HcH). }
    destruct (R3 c' v H) as [H'|[_ (a & w & Hva & Ew & ->)]].
    + destruct Hx as [<-|Hx].
      * rewrite Hdu in Edx. injection Edx as <-.
        pose proof (Hmin (c', v) (proj2 (Hin _) (or_intror H'))). cbn in H0. lra.
      * exact (di_settled_min0 x dx c' v Hx Edx (proj2 (Hin _) (or_intror H'))).
    + destruct (weights_nonneg_get adj u v a Hnn Hva) as (w' & Ew' & Hw').
      rewrite Ew in Ew'. injection Ew' as <-. lra.
  - intros x [<-|Hx]; [intros ->; exact (Hud eq_refl)|exact (di_settled_dest0 x Hx)].
  - intros v x E. destruct (R1 v) as [[E1 E2]|(a & w & Hva & Ew & E1 & E2 & _ & _)].
    + rewrite E2 in E. destruct (di_prev0 v x E) as [Hx (a & w & dx & dv & Hva & Ew & Edx & Edv & Heq)].
      split; [right; exact Hx|]. exists a, w, dx, dv. split; [exact Hva|]. split; [exact Ew|].
      split; [rewrite (proj1 (F1 x (or_intror Hx))); exact Edx|]. split; [rewrite E1; exact Edv|exact Heq].
    + rewrite E2 in E. injection E as <-. split; [left; reflexivity|].
      exists a, w, du, (c + w). split; [exact Hva|]. split; [exact Ew|].
      split; [rewrite (proj1 (F1 u (or_introl eq_refl))); exact Hdu|]. split; [exact E1|].
      assert (c == du) by (apply Qle_antisym; assumption). rewrite H. reflexivity.
  - intros v x E Hv l1 l2 Hsplit.
    destruct (F1 v (match Hv with or_introl e => or_introl (eq_sym e) | or_intror i => or_intror i end))
      as [_ Ep]. rewrite Ep in E.
    destruct l1 as [|y l1].
    + injection Hsplit as -> ->. exact (proj1 (di_prev0 _ x E)).
    + injection Hsplit as -> Hsplit. refine (di_prev_rank0 v x E _ l1 l2 Hsplit).
      rewrite Hsplit. apply in_or_app. right. left. reflexivity.
  - intros v Hv Hvs. destruct (R1 v) as [[E1 E2]|(a & w & Hva & Ew & E1 & E2 & _ & _)].
    + rewrite E2. apply di_prev_dom0; [rewrite <- E1; exact Hv|exact Hvs].
    + rewrite E2. eexists; reflexivity.
  - intros v dv E. destruct (R1 v) as [[E1 _]|(a & w & Hva & Ew & E1 & _ & _ & _)].
    + rewrite E1 in E. exact (di_reach0 v dv E).
    + destruct (di_reach0 u du Hdu) as (p & c' & k & Hw).
      destruct (walk_snoc adj s u v p c' k a w Hw Hva Ew) as (c2 & k2 & Hw2).
      exists (p ++ [v]), c2, k2. exact Hw2.
  - intros v x E. destruct (R1 v) as [[_ E2]|(a & w & Hva & Ew & _ & E2 & _ & Hlt)].
    + rewrite E2 in E. exact (di_prev_ne0 v x E).
    + rewrite E2 in E. injection E as <-. intros <-.
      destruct (weights_nonneg_get adj _ _ a Hnn Hva) as (w' & Ew' & Hw').
      rewrite Ew in Ew'. injection Ew' as <-. specialize (Hlt du Hdu). lra.
Qed.


Lemma heappop_None (H : list (Q * string)) : heappop H = None -> H = [].
Proof. destruct H; [reflexivity|discriminate]. Qed.

Lemma loop_spec (fuel : nat) : forall (st : search_state) (S : list string),
  dinv adj s d st S ->
  match dijkstra_loop fuel adj d st with
  | Done st' => exists S', dinv adj s d st' S' /\
      (heap st' = [] \/ exists c h, heappop (heap st') = Some ((c, d), h)) /\
      (length S' + measure adj st' S' <= length S + measure adj st S)%nat
  | Raised => False
  | OutOfFuel => (fuel <= measure adj st S)%nat
  end.
Proof.
  induction fuel as [|fuel IH]; intros st S I; [cbn; lia|].
  cbn [dijkstra_loop].
  destruct (heappop (heap st)) as [[[c u] h]|] eqn:Ep.
  2: { exists S. split; [exact I|]. split; [left; apply heappop_None, Ep|lia]. }
  destruct (heappop_spec _ _ _ _ Ep) as (Hin & Hlen & Hmin).
  destruct (String.eqb u d) eqn:Eud.
  { apply String.eqb_eq in Eud. subst u. exists S. split; [exact I|].
    split; [right; exists c, h; exact Ep|lia]. }
  apply String.eqb_neq in Eud.
  destruct (di_heap _ _ _ _ _ I c u (proj2 (Hin _) (or_introl eq_refl))) as (du & Edu & Hdu).
  rewrite Edu.
  assert (Hmeas : measure adj st S = (1 + measure adj (mkSearch (dist st) (prev st) h) S)%nat).
  { unfold measure. cbn [heap]. rewrite Hlen. reflexivity. }
  destruct (Qltb du c) eqn:Es.
  - apply Qltb_iff in Es.
    assert (I' : dinv adj s d (mkSearch (dist st) (prev st) h) S).
    { apply (dinv_drop st S c u h I Ep). intros _ du' E ->. rewrite Edu in E. injection E as ->.
      exact (Qlt_irrefl _ Es). }
    specialize (IH _ _ I').
    destruct (dijkstra_loop fuel adj d _) as [st'| |]; [|exact IH|lia].
    destruct IH as (S' & I'' & Hend & Hm). exists S'. split; [exact I''|]. split; [exact Hend|lia].
  - apply Qltb_false in Es.
    destruct (in_dec String.string_dec u S) as [HuS|HuS].
    + rewrite relax_noop.
      2: { intros v a Hva. destruct (weights_nonneg_get adj u v a Hnn Hva) as (w & Ew & _).
           exists w. split; [exact Ew|]. cbn [dist].
           destruct (di_relaxed _ _ _ _ _ I u du HuS Edu v a w Hva Ew) as (dv & Edv & Hdv).
           exists dv. split; [exact Edv|]. lra. }
      assert (I' : dinv adj s d (mkSearch (dist st) (prev st) h) S).
      { apply (dinv_drop st S c u h I Ep). intros C. contradiction. }
      specialize (IH _ _ I').
      destruct (dijkstra_loop fuel adj d _) as [st'| |]; [|exact IH|lia].
      destruct IH as (S' & I'' & Hend & Hm). exists S'. split; [exact I''|]. split; [exact Hend|lia].
    + destruct (dinv_settle st S c u h du I Ep Edu Hdu Es Eud HuS) as (st' & Hrun & I' & Hl).
      rewrite Hrun. specialize (IH _ _ I').
      assert (Hm' : (measure adj st' (u :: S) + 1 <= measure adj st S)%nat).
      { pose proof (pending_settle adj u S HuS). unfold measure in *. cbn [heap] in Hmeas. lia. }
      destruct (dijkstra_loop fuel adj d st') as [st''| |]; [|exact IH|lia].
      destruct IH as (S' & I'' & Hend & Hm). exists S'. split; [exact I''|]. split; [exact Hend|].
      cbn [length] in Hm. lia.
Qed.


Lemma walk_open (st : search_state) (S : list string) (u w : string) (p : list string) (C k : Q) :
  dinv adj s d st S -> walk adj u w p C k -> w = d ->
  forall du, dist st !! u = Some du ->
  exists v dv, ~ In v S /\ dist st !! v = Some dv /\ dv <= du + C.
Proof.
  intros I H. induction H as [u|u v w es a wt km p c k Ees Hin Ew Hkm Hwalk IH]; intros Hw du Edu.
  - subst u. exists d, du. split; [intros C; exact (di_settled_dest _ _ _ _ _ I d C eq_refl)|].
    split; [exact Edu|lra].
  - destruct (Hnn u es v a Ees Hin) as (w' & Ew' & Hw'). rewrite Ew in Ew'. injection Ew' as <-.
    pose proof (walk_cost_nonneg adj v w p c k Hnn Hwalk) as Hc.
    destruct (in_dec String.string_dec u S) as [HuS|HuS].
    + assert (Hva : In (v, a) (adj_get adj u)) by (unfold adj_get; rewrite Ees; exact Hin).
      destruct (di_relaxed _ _ _ _ _ I u du HuS Edu v a wt Hva Ew) as (dv & Edv & Hdv).
      destruct (IH Hw dv Edv) as (x & dx & Hx & Edx & Hdx).
      exists x, dx. split; [exact Hx|]. split; [exact Edx|lra].
    + exists u, du. split; [exact HuS|]. split; [exact Edu|lra].
Qed.

Lemma dest_optimal (st : search_state) (S : list string) :
  dinv adj s d st S ->
  (heap st = [] \/ exists c h, heappop (heap st) = Some ((c, d), h)) ->
  forall p C k, walk adj s d p C k ->
  exists dd, dist st !! d = Some dd /\ dd <= C.
Proof.
  intros I Hend p C k Hw.
  destruct (walk_open st S s d p C k I Hw eq_refl 0 (di_src _ _ _ _ _ I)) as (v & dv & Hv & Edv & Hdv).
  pose proof (di_open _ _ _ _ _ I v dv Edv Hv) as Hh.
  destruct Hend as [He|(c & h & Hp)]; [rewrite He in Hh; destruct Hh|].
  destruct (heappop_spec _ _ _ _ Hp) as (Hin & _ & Hmin).
  pose proof (Hmin _ Hh) as Hc. cbn in Hc.
  destruct (di_heap _ _ _ _ _ I c d (proj2 (Hin _) (or_introl eq_refl))) as (dd & Edd & Hdd).
  exists dd. split; [exact Edd|lra].
Qed.

Lemma first_edge_to_some (v : string) (es : list (string * attrs)) (a : attrs) :
  In (v, a) es -> exists a', first_edge_to v es = Some a' /\ In (v, a') es /\
    (forall u, u <> v -> NoDup (List.filter (fun x => negb (String.eqb x u)) (map fst es)) -> a' = a).
Proof.
  induction es as [|[x b] es IH]; intros Hin; [destruct Hin|].
  cbn [first_edge_to]. destruct (String.eqb x v) eqn:E.
  - apply String.eqb_eq in E. subst x. exists b. split; [reflexivity|]. split; [left; reflexivity|].
    intros u Hu Hnd. destruct Hin as [E|Hin]; [injection E as ->; reflexivity|].
    cbn [map fst List.filter] in Hnd. rewrite (proj2 (String.eqb_neq v u) (not_eq_sym Hu)) in Hnd.
    cbn [negb] in Hnd. apply NoDup_cons in Hnd as [Hx _]. exfalso. apply Hx.
    apply list_elem_of_In, filter_In. split; [|rewrite (proj2 (String.eqb_neq v u) (not_eq_sym Hu)); reflexivity].
    apply in_map_iff. exists (v, a). split; [reflexivity|exact Hin].
  - apply String.eqb_neq in E. destruct Hin as [E'|Hin]; [injection E' as -> _; contradiction|].
    destruct (IH Hin) as (a' & Ef & Hin' & Hu). exists a'. split; [exact Ef|].
    split; [right; exact Hin'|]. intros u Hne Hnd. apply (Hu u Hne). cbn [map fst List.filter] in Hnd.
    destruct (negb (String.eqb x u)); [apply NoDup_cons in Hnd as [_ Hnd]|]; exact Hnd.
Qed.


Lemma reconstruct_spec (st : search_state) (S : list string) (dd : Q) :
  dinv adj s d st S -> dist st !! d = Some dd ->
  forall fuel cur path total c2 k2 dcur,
  dist st !! cur = Some dcur ->
  walk adj cur d (cur :: rev path) c2 k2 -> total == k2 ->
  (single_edges adj -> dcur + c2 == dd) ->
  match reconstruct fuel adj s (prev st) cur path total with
  | Done (p, tot) => exists c k, walk adj s d p c k /\ k == tot /\ (single_edges adj -> c == dd)
  | Raised => False
  | OutOfFuel => ~ rank_ok s S cur fuel
  end.
Proof.
  intros I Edd fuel. induction fuel as [|fuel IH]; intros cur path total c2 k2 dcur Ecur Hw Ht Hse.
  { cbn. intros [C _]. lia. }
  cbn [reconstruct]. destruct (String.eqb cur s) eqn:Es.
  { apply String.eqb_eq in Es. subst cur. rewrite rev_app_distr. cbn [rev app].
    exists c2, k2. split; [exact Hw|]. split; [symmetry; exact Ht|].
    intros Hs. specialize (Hse Hs). rewrite (di_src _ _ _ _ _ I) in Ecur. injection Ecur as <-.
    rewrite <- Hse. ring. }
  apply String.eqb_neq in Es.
  destruct (di_prev_dom _ _ _ _ _ I cur (ex_intro _ dcur Ecur) Es) as [u Eu]. rewrite Eu.
  destruct (di_prev _ _ _ _ _ I cur u Eu) as [HuS (a & w & du & dv & Hva & Ew & Edu & Edv & Heq)].
  pose proof (di_prev_ne _ _ _ _ _ I cur u Eu) as Hucur.
  rewrite Ecur in Edv. injection Edv as <-.
  destruct (adj_get_In adj u cur a Hva) as (es & Ees & Hin).
  destruct (first_edge_to_some cur (adj_get adj u) a Hva) as (a' & Ef & Hin' & Huniq).
  rewrite Ef.
  destruct (weights_nonneg_get adj u cur a' Hnn Hin') as (w' & Ew' & Hw').
  destruct (edge_weight_num a' w' Ew') as [km Hkm]. rewrite Hkm.
  assert (Hin'' : In (cur, a') es) by (unfold adj_get in Hin'; rewrite Ees in Hin'; exact Hin').
  specialize (IH u (path ++ [cur]) (total + km) (w' + c2) (km + k2) du Edu).
  rewrite rev_app_distr in IH. cbn [rev app] in IH.
  specialize (IH (walk_step adj u cur d es a' w' km _ c2 k2 Ees Hin'' Ew' Hkm Hw)).
  assert (Ht' : total + km == km + k2) by (rewrite Ht; ring).
  specialize (IH Ht').
  assert (Hse' : single_edges adj -> du + (w' + c2) == dd).
  { intros Hs. assert (a' = a) as ->.
    { apply (Huniq u Hucur). unfold adj_get. rewrite Ees. exact (Hs u es Ees). }
    rewrite Ew in Ew'. injection Ew' as <-. rewrite <- (Hse Hs), Heq. ring. }
  specialize (IH Hse').
  destruct (reconstruct fuel adj s (prev st) u (path ++ [cur]) (total + km)) as [[p tot]| |];
    [exact IH|exact IH|].
  intros [Hpos Hr]. apply IH. split.
  - destruct Hr as [C|[(l1 & l2 & Hsplit & Hl)|[_ Hl]]]; [contradiction| |].
    + pose proof (di_prev_rank _ _ _ _ _ I cur u Eu) as Hrk.
      assert (Hc : In cur S) by (rewrite Hsplit; apply in_or_app; right; left; reflexivity).
      pose proof (Hrk Hc l1 l2 Hsplit) as Hu2. destruct (in_split _ _ Hu2) as (m1 & m2 & ->).
      rewrite length_app in Hl. cbn [length] in Hl. lia.
    + destruct (in_split _ _ HuS) as (m1 & m2 & ->). rewrite length_app in Hl. cbn [length] in Hl. lia.
  - right. left.
    destruct Hr as [C|[(l1 & l2 & Hsplit & Hl)|[_ Hl]]]; [contradiction| |].
    + assert (Hc : In cur S) by (rewrite Hsplit; apply in_or_app; right; left; reflexivity).
      pose proof (di_prev_rank _ _ _ _ _ I cur u Eu Hc l1 l2 Hsplit) as Hu2.
      destruct (in_split _ _ Hu2) as (m1 & m2 & ->).
      exists (l1 ++ cur :: m1), m2. split; [rewrite Hsplit, <- app_assoc; reflexivity|].
      rewrite length_app in Hl. cbn [length] in Hl. lia.
    + destruct (in_split _ _ HuS) as (m1 & m2 & Hsplit).
      exists m1, m2. split; [exact Hsplit|]. rewrite Hsplit, length_app in Hl. cbn [length] in Hl. lia.
Qed.

Lemma search_outcome (fuel : nat) : s <> d -> s <> "" -> d <> "" ->
  match shortest_path fuel adj (Some s) (Some d) with
  | Done (p, phys, cost) =>
      (p = [] /\ phys = 0 /\ cost = 0 /\ ~ (exists p' c' k', walk adj s d p' c' k')) \/
      (exists c k, walk adj s d p c k /\ k == phys /\ (single_edges adj -> c == cost) /\
         forall p' c' k', walk adj s d p' c' k' -> cost <= c')
  | Raised => False
  | OutOfFuel => (fuel <= measure adj (mkSearch {[ s := 0%Q ]} ∅ [(0%Q, s)]) [])%nat
  end.
Proof.
  intros Hsd Hs Hd.
  assert (E : shortest_path fuel adj (Some s) (Some d) =
    match dijkstra_loop fuel adj d (mkSearch {[s := 0]} ∅ [(0, s)]) with
    | Done st =>
        match dist st !! d with
        | None => Done ([], 0, 0)
        | Some c =>
            match reconstruct fuel adj s (prev st) d [] 0 with
            | Done (p, tot) => Done (p, tot, c)
            | Raised => Raised
            | OutOfFuel => OutOfFuel
            end
        end
    | Raised => Raised
    | OutOfFuel => OutOfFuel
    end).
  { unfold shortest_path, truthy.
    rewrite (proj2 (String.eqb_neq s "") Hs), (proj2 (String.eqb_neq d "") Hd),
      (proj2 (String.eqb_neq s d) Hsd). reflexivity. }
  rewrite E. clear E.
  pose proof (loop_spec fuel _ [] dinv_init) as L.
  destruct (dijkstra_loop fuel adj d (mkSearch {[s := 0]} ∅ [(0, s)])) as [st'| |];
    [|exact L|exact L].
  destruct L as (S' & I' & Hend & Hm). cbn [length] in Hm.
  destruct (dist st' !! d) as [dd|] eqn:Edd.
  2: { left. split; [reflexivity|]. split; [reflexivity|]. split; [reflexivity|].
       intros (p & c & k & Hw). destruct (dest_optimal st' S' I' Hend p c k Hw) as (dd & E' & _).
       congruence. }
  assert (Hz : single_edges adj -> dd + 0 == dd) by (intros _; ring).
  pose proof (reconstruct_spec st' S' dd I' Edd fuel d [] 0 0 0 dd Edd (walk_here adj d)
                (Qeq_refl 0) Hz) as R.
  destruct (reconstruct fuel adj s (prev st') d [] 0) as [[p tot]| |]; [|exact R|].
  - right. destruct R as (c & k & Hw & Hk & Hc). exists c, k.
    split; [exact Hw|]. split; [exact Hk|]. split; [exact Hc|].
    intros p' c' k' Hw'. destruct (dest_optimal st' S' I' Hend p' c' k' Hw') as (dd' & E' & Hle).
    rewrite Edd in E'. injection E' as <-. exact Hle.
  - destruct (Nat.le_gt_cases fuel (measure adj (mkSearch {[s := 0]} ∅ [(0, s)]) [])) as [Hf|Hf];
      [exact Hf|]. exfalso. apply R. split; [lia|]. right. right.
    split; [intros C; exact (di_settled_dest _ _ _ _ _ I' d C eq_refl)|lia].
Qed.

End Search.

(** Claim C1, amended: for two distinct, non-empty node names [s] and [d]
    with [d] reachable from [s], over an adjacency view whose edge weights
    are non-negative and which has at most one edge between two distinct
    nodes (self-loops allowed),
    [shortest_path] terminates (some fuel gives a result) and whatever it
    returns is a walk from [s] to [d] along the returned nodes whose
    weighted cost is the reported cost, minimal over all walks from [s] to
    [d], and whose physical length is the reported distance. On the line
    A-B-C-D of 10 km edges with difficulty factor 0.5 on B-C it returns
    A,B,C,D with weighted cost 25 and physical distance 30. *)
Theorem shortest_path_optimal :
  (forall adj s d, s <> d -> s <> "" -> d <> "" -> weights_nonneg adj -> single_edges adj ->
     (exists p c k, walk adj s d p c k) ->
     (exists fuel r, shortest_path fuel adj (Some s) (Some d) = Done r) /\
     forall fuel p phys cost, shortest_path fuel adj (Some s) (Some d) = Done (p, phys, cost) ->
       exists c k, walk adj s d p c k /\ c == cost /\ k == phys /\
         forall p' c' k', walk adj s d p' c' k' -> cost <= c') /\
  exists phys cost,
    shortest_path 100 (line_ABCD {[ "difficulty_factor" := VNum (1 # 2) ]}) (Some "A") (Some "D")
      = Done (["A"; "B"; "C"; "D"], phys, cost) /\ cost == 25 /\ phys == 30.
Proof.
  split.
  - intros adj s d Hsd Hs Hd Hnn Hse Hreach. split.
    + set (N := S (measure adj (mkSearch {[s := 0]} ∅ [(0, s)]) [])).
      exists N. pose proof (search_outcome adj s d Hnn N Hsd Hs Hd) as O.
      destruct (shortest_path N adj (Some s) (Some d)) as [r| |]; [eauto|destruct O|].
      unfold N in O. lia.
    + intros fuel p phys cost E. pose proof (search_outcome adj s d Hnn fuel Hsd Hs Hd) as O.
      rewrite E in O.
      destruct O as [(_ & _ & _ & Hn)|(c & k & Hw & Hk & Hc & Hopt)]; [exfalso; exact (Hn Hreach)|].
      exists c, k. split; [exact Hw|]. split; [exact (Hc Hse)|]. split; [exact Hk|exact Hopt].
  - exists 30, (50 # 2). split; [vm_compute; reflexivity|]. split; reflexivity.
Qed.

(** Claim C5, amended: over any adjacency view, an unset endpoint
    ([None] or the empty name) gives the empty path with zero distance and
    zero cost.  Over an adjacency view with non-negative edge weights, for
    distinct endpoints with no walk between them the search terminates
    with the empty path and zeros, and every result it returns is that
    one; and [shortest_path] never raises. *)
Theorem shortest_path_no_route :
  (forall adj fuel start dest, truthy start = false \/ truthy dest = false ->
     shortest_path fuel adj start dest = Done ([], 0, 0)) /\
  (forall adj, weights_nonneg adj ->
    (forall s d, s <> d -> ~ (exists p c k, walk adj s d p c k) ->
       (exists fuel, shortest_path fuel adj (Some s) (Some d) = Done ([], 0, 0)) /\
       forall fuel r, shortest_path fuel adj (Some s) (Some d) = Done r -> r = ([], 0, 0)) /\
    (forall fuel start dest, shortest_path fuel adj start dest <> Raised)).
Proof.
  assert (Hunset0 : forall adj fuel start dest, truthy start = false \/ truthy dest = false ->
     shortest_path fuel adj start dest = Done ([], 0, 0)).
  { intros adj fuel [s|] [d|] Ht; try reflexivity. unfold shortest_path.
    destruct Ht as [-> | ->]; [reflexivity|]. rewrite orb_true_r. reflexivity. }
  split; [exact Hunset0|]. intros adj Hnn. pose proof (Hunset0 adj) as Hunset. split.
  - intros s d Hsd Hn.
    destruct (String.string_dec s "") as [->|Hs].
    { split; [exists O|intros fuel r E]; rewrite Hunset in *; try (left; reflexivity);
        try congruence. }
    destruct (String.string_dec d "") as [->|Hd].
    { split; [exists O|intros fuel r E]; rewrite Hunset in *; try (right; reflexivity);
        try congruence. }
    split.
    + set (N := S (measure adj (mkSearch {[s := 0]} ∅ [(0, s)]) [])).
      exists N. pose proof (search_outcome adj s d Hnn N Hsd Hs Hd) as O.
      destruct (shortest_path N adj (Some s) (Some d)) as [[[p phys] cost]| |].
      * destruct O as [(-> & -> & -> & _)|(c & k & Hw & _)]; [reflexivity|].
        exfalso. apply Hn. eauto.
      * destruct O.
      * unfold N in O. lia.
    + intros fuel r E. pose proof (search_outcome adj s d Hnn fuel Hsd Hs Hd) as O.
      rewrite E in O. destruct r as [[p phys] cost].
      destruct O as [(-> & -> & -> & _)|(c & k & Hw & _)]; [reflexivity|].
      exfalso. apply Hn. eauto.
  - intros fuel [s|] [d|] E; try discriminate.
    destruct (String.string_dec s "") as [->|Hs].
    { rewrite Hunset in E; [discriminate|left; reflexivity]. }
    destruct (String.string_dec d "") as [->|Hd].
    { rewrite Hunset in E; [discriminate|right; reflexivity]. }
    destruct (String.string_dec s d) as [->|Hsd].
    { unfold shortest_path, truthy in E. rewrite String.eqb_refl in E.
      rewrite (proj2 (String.eqb_neq d "") Hd) in E. discriminate. }
    pose proof (search_outcome adj s d Hnn fuel Hsd Hs Hd) as O. rewrite E in O. exact O.
Qed.

Lemma weights_nonneg_b_sound (adj : adjacency_t) : weights_nonneg_b adj = true -> weights_nonneg adj.
Proof.
  intros H u es v a Hu Hin. unfold weights_nonneg_b in H. rewrite forallb_forall in H.
  assert (Hl : In (u, es) (map_to_list adj)) by (apply list_elem_of_In, elem_of_map_to_list; exact Hu).
  specialize (H _ Hl). cbn in H. rewrite forallb_forall in H. specialize (H _ Hin). cbn in H.
  destruct (edge_weight a) as [w|]; [|discriminate]. exists w. split; [reflexivity|].
  apply Qle_bool_iff. exact H.
Qed.

Lemma single_edges_b_sound (adj : adjacency_t) : single_edges_b adj = true -> single_edges adj.
Proof.
  intros H u es Hu. unfold single_edges_b in H. rewrite forallb_forall in H.
  assert (Hl : In (u, es) (map_to_list adj)) by (apply list_elem_of_In, elem_of_map_to_list; exact Hu).
  specialize (H _ Hl). cbn [fst snd] in H. exact (bool_decide_eq_true_1 _ H).
Qed.

(** A walk along two nodes is a single edge. *)
Lemma walk_pair_inv (adj : adjacency_t) (u w v : string) (c k : Q) :
  walk adj u w [u; v] c k ->
  exists es a wt km, adj !! u = Some es /\ In (v, a) es /\ edge_weight a = Some wt /\
    py_num (approx_distance a) = Some km /\ c = wt + 0 /\ k = km + 0.
Proof.
  intros Hw. inversion Hw as [|u' v' w' es a wt km p c0 k0 Ees Hin Ew Hkm Hw']; subst.
  inversion Hw' as [|u'' v'' w'' es' a' wt' km' p' c1 k1 _ _ _ _ Hw'']; subst; [|inversion Hw''].
  exists es, a, wt, km. repeat split; assumption.
Qed.

(** Claim C1, as worded for every graph: (1) the node named by the empty
    string is falsy, so a reachable destination yields the empty path;
    (2) with a negative difficulty factor the search settles B at cost 2
    although the walk A,C,B costs 1; (3) with parallel A-B edges of 10 km
    and 1 km the reported cost is 1 but the reported distance is 10, the
    length of the first A-B edge, and no walk along A,B has both. *)
Lemma shortest_path_optimal_counterexample :
  ((exists p c k, walk (adjacency session_empty_id) "" "B" p c k) /\
   forall fuel, shortest_path fuel (adjacency session_empty_id) (Some "") (Some "B") = Done ([], 0, 0)) /\
  (shortest_path 100 adj_negative (Some "A") (Some "B") = Done (["A"; "B"], 2, 2) /\
   walk adj_negative "A" "B" ["A"; "C"; "B"] (3 + (-2 + 0)) (3 + (2 + 0))) /\
  (shortest_path 100 adj_parallel (Some "A") (Some "B") = Done (["A"; "B"], 10, 1) /\
   ~ (exists c k, walk adj_parallel "A" "B" ["A"; "B"] c k /\ c == 1 /\ k == 10)).
Proof.
  split; [split|split; [split|split]].
  - eexists _, _, _. eapply walk_step; [reflexivity|left; reflexivity|reflexivity|reflexivity|].
    apply walk_here.
  - intros fuel. reflexivity.
  - vm_compute. reflexivity.
  - apply (walk_step _ "A" "C" "B" [("B", km 2); ("C", km 3)] (km 3) 3 3);
      [vm_compute; reflexivity|right; left; reflexivity|vm_compute; reflexivity|reflexivity|].
    apply (walk_step _ "C" "B" "B" [("A", km 3); ("B", <["difficulty_factor" := VNum (-1)]> (km 2))]
             (<["difficulty_factor" := VNum (-1)]> (km 2)) (-2) 2);
      [vm_compute; reflexivity|right; left; reflexivity|vm_compute; reflexivity|reflexivity|].
    apply walk_here.
  - vm_compute. reflexivity.
  - intros (c & k & Hw & Hc & Hk).
    destruct (walk_pair_inv _ _ _ _ _ _ Hw) as (es & a & wt & km' & Ees & Hin & Ew & Hkm & -> & ->).
    assert (EA : adj_parallel !! "A" = Some [("B", km 10); ("B", km 1)]) by (vm_compute; reflexivity).
    rewrite EA in Ees. injection Ees as <-.
    destruct Hin as [E|[E|[]]]; injection E as <-.
    + assert (E10 : edge_weight (km 10) = Some 10) by (vm_compute; reflexivity).
      rewrite E10 in Ew. injection Ew as <-. vm_compute in Hc. discriminate.
    + assert (E1 : py_num (approx_distance (km 1)) = Some 1) by (vm_compute; reflexivity).
      rewrite E1 in Hkm. injection Hkm as <-. vm_compute in Hk. discriminate.
Qed.

Lemma neighbours_in_b_sound (N : list string) (adj : adjacency_t) :
  neighbours_in_b N adj = true ->
  forall u es v a, adj !! u = Some es -> In (v, a) es -> In v N.
Proof.
  intros H u es v a Hu Hin. unfold neighbours_in_b in H. rewrite forallb_forall in H.
  assert (Hl : In (u, es) (map_to_list adj)) by (apply list_elem_of_In, elem_of_map_to_list; exact Hu).
  specialize (H _ Hl). cbn [snd] in H. rewrite forallb_forall in H.
  apply list_elem_of_In. exact (bool_decide_eq_true_1 _ (H _ Hin)).
Qed.

(** Walks stay among the nodes an adjacency view lists as neighbours. *)
Lemma walk_closed (N : list string) (adj : adjacency_t) :
  (forall u es v a, adj !! u = Some es -> In (v, a) es -> In v N) ->
  forall u w p c k, walk adj u w p c k -> In u N -> In w N.
Proof.
  intros HN u w p c k H. induction H as [u|u v w es a wt km p c k Ees Hin _ _ _ IH]; intros Hu.
  - exact Hu.
  - apply IH. exact (HN u es v a Ees Hin).
Qed.

Lemma neg_edge_weight : edge_weight neg_edge = Some (-1).
Proof. vm_compute. reflexivity. Qed.

(** Over [adj_neg_cycle] the search towards the absent "C" pops A and B
    in turn at ever lower costs and never stops. *)
Lemma neg_cycle_loops (fuel : nat) : forall st c u v,
  ((u = "A" /\ v = "B") \/ (u = "B" /\ v = "A")) ->
  heap st = [(c, u)] -> dist st !! u = Some c ->
  (dist st !! v = None \/ exists d, dist st !! v = Some d /\ c + -1 < d) ->
  dijkstra_loop fuel adj_neg_cycle "C" st = OutOfFuel.
Proof.
  induction fuel as [|fuel IH]; intros st c u v Huv Hh Hu Hv; [reflexivity|].
  assert (Hadj : adj_get adj_neg_cycle u = [(v, neg_edge)])
    by (destruct Huv as [[-> ->]|[-> ->]]; vm_compute; reflexivity).
  assert (HuC : String.eqb u "C" = false) by (destruct Huv as [[-> _]|[-> _]]; reflexivity).
  assert (Hvu : v <> u) by (destruct Huv as [[-> ->]|[-> ->]]; discriminate).
  cbn [dijkstra_loop]. rewrite Hh. cbn [heappop extract_min]. rewrite HuC, Hu.
  rewrite (proj2 (Qltb_false c c) (Qle_refl c)).
  rewrite Hadj. cbn [relax]. rewrite neg_edge_weight. cbv zeta.
  assert (Himp : improves (dist st) v (c + -1) = true).
  { unfold improves. destruct Hv as [->|(d & -> & Hd)]; [reflexivity|apply Qltb_iff; exact Hd]. }
  cbn [dist prev heap]. rewrite Himp. cbn [relax].
  apply (IH _ (c + -1) v u).
  - destruct Huv as [[-> ->]|[-> ->]]; [right|left]; split; reflexivity.
  - reflexivity.
  - cbn [dist]. apply lookup_insert_eq.
  - right. exists c. cbn [dist]. rewrite lookup_insert_ne by congruence. split; [exact Hu|lra].
Qed.

(** Claim C5, as worded: (1) a start equal to the destination returns the
    one-node path even when that node is absent from the graph; (2) with a
    non-numeric difficulty factor the search towards an unreachable node
    raises; (3) with a negative difficulty factor the search towards an
    unreachable node never ends, whatever the fuel. *)
Lemma shortest_path_no_route_counterexample :
  ((∅ : adjacency_t) !! "Z" = None /\
   forall fuel, shortest_path fuel ∅ (Some "Z") (Some "Z") = Done (["Z"], 0, 0)) /\
  (~ (exists p c k, walk adj_bad_factor "A" "C" p c k) /\
   shortest_path 10 adj_bad_factor (Some "A") (Some "C") = Raised) /\
  (~ (exists p c k, walk adj_neg_cycle "A" "C" p c k) /\
   forall fuel, shortest_path fuel adj_neg_cycle (Some "A") (Some "C") = OutOfFuel).
Proof.
  split; [split; [reflexivity|intros fuel; reflexivity]|split; split].
  - intros (p & c & k & Hw).
    assert (HN : In "C" ["A"; "B"]).
    { apply (walk_closed ["A"; "B"] adj_bad_factor) with (u := "A") (p := p) (c := c) (k := k);
        [apply neighbours_in_b_sound; vm_compute; reflexivity|exact Hw|left; reflexivity]. }
    destruct HN as [E|[E|[]]]; discriminate E.
  - vm_compute. reflexivity.
  - intros (p & c & k & Hw).
    assert (HN : In "C" ["A"; "B"]).
    { apply (walk_closed ["A"; "B"] adj_neg_cycle) with (u := "A") (p := p) (c := c) (k := k);
        [apply neighbours_in_b_sound; vm_compute; reflexivity|exact Hw|left; reflexivity]. }
    destruct HN as [E|[E|[]]]; discriminate E.
  - intros fuel. unfold shortest_path. cbn -[dijkstra_loop].
    rewrite (neg_cycle_loops fuel _ 0 "A" "B"); [reflexivity|left; split; reflexivity|reflexivity
      |reflexivity|left; reflexivity].
Qed.

Lemma shortest_path_optimal_witness :
  (exists fuel r, shortest_path fuel line_ABCD_loop (Some "A") (Some "D") = Done r) /\
  forall fuel p phys cost,
    shortest_path fuel line_ABCD_loop (Some "A") (Some "D") = Done (p, phys, cost) ->
    exists c k, walk line_ABCD_loop "A" "D" p c k /\ c == cost /\ k == phys /\
      forall p' c' k', walk line_ABCD_loop "A" "D" p' c' k' -> cost <= c'.
Proof.
  apply (proj1 shortest_path_optimal); [discriminate|discriminate|discriminate
    |apply weights_nonneg_b_sound; vm_compute; reflexivity
    |apply single_edges_b_sound; vm_compute; reflexivity|].
  eexists _, _, _.
  eapply walk_step; [reflexivity|left; reflexivity|reflexivity|reflexivity|].
  eapply walk_step; [reflexivity|right; right; right; left; reflexivity|reflexivity|reflexivity|].
  eapply walk_step; [reflexivity|right; left; reflexivity|reflexivity|reflexivity|].
  apply walk_here.
Defined.

Lemma shortest_path_no_route_witness :
  (forall s d, s <> d -> ~ (exists p c k, walk (line_ABCD ∅) s d p c k) ->
     (exists fuel, shortest_path fuel (line_ABCD ∅) (Some s) (Some d) = Done ([], 0, 0)) /\
     forall fuel r, shortest_path fuel (line_ABCD ∅) (Some s) (Some d) = Done r -> r = ([], 0, 0)) /\
  (forall fuel start dest, shortest_path fuel (line_ABCD ∅) start dest <> Raised).
Proof.
  apply (proj2 shortest_path_no_route). apply weights_nonneg_b_sound. vm_compute. reflexivity.
Defined.

(* ------------------------------------------------------------------ *)
(** ** Instances of the theorems on the sample data *)

Lemma adjacency_nonneg_b_sound (adj : adjacency_t) :
  adjacency_nonneg_b adj = true -> adjacency_nonneg adj.
Proof.
  intros H u es v a Hu Hin. unfold adjacency_nonneg_b in H. rewrite forallb_forall in H.
  assert (Hl : In (u, es) (map_to_list adj)) by (apply list_elem_of_In, elem_of_map_to_list; exact Hu).
  specialize (H _ Hl). cbn in H. rewrite forallb_forall in H. specialize (H _ Hin). cbn in H.
  apply andb_prop in H as [H1 H2]. split.
  - intros q Eq. rewrite Eq in H1. apply Qle_bool_iff. exact H1.
  - intros f Ef. rewrite Ef in H2. apply Qle_bool_iff. exact H2.
Qed.

(** [start_leg] from A on the A--B road: to A it raises [SameLocation],
    to B it starts a fresh leg from A to B. *)
Lemma start_leg_outcomes_witness :
  start_leg "A" (snd (reset_trip "A" "B" (session_AB (edge_attrs_50 ∅))))
    = (Raise SameLocation, snd (reset_trip "A" "B" (session_AB (edge_attrs_50 ∅)))) /\
  exists l s', start_leg "B" (snd (reset_trip "A" "B" (session_AB (edge_attrs_50 ∅)))) = (Ok l, s') /\
    origin l = "A" /\ destination l = "B" /\ traveled_km l = 0.
Proof.
  split.
  - destruct (start_leg_outcomes (snd (reset_trip "A" "B" (session_AB (edge_attrs_50 ∅)))) "A" "A")
      as (_ & _ & H & _); [vm_compute; reflexivity|discriminate|].
    apply H; [vm_compute; reflexivity|reflexivity].
  - destruct (start_leg_outcomes (snd (reset_trip "A" "B" (session_AB (edge_attrs_50 ∅)))) "A" "B")
      as (_ & _ & _ & _ & H); [vm_compute; reflexivity|discriminate|].
    assert (EA : adj_get (adjacency (snd (reset_trip "A" "B" (session_AB (edge_attrs_50 ∅))))) "A"
                 = [("B", edge_attrs_50 ∅)]) by (vm_compute; reflexivity).
    rewrite EA in H.
    destruct H as (l & s' & l1 & l2 & E & _ & _ & _ & Ho & Hd & Ht & _).
    + vm_compute. reflexivity.
    + discriminate.
    + exists (edge_attrs_50 ∅). left. reflexivity.
    + intros a [Ea|[]]. injection Ea as <-. exists 50. vm_compute. reflexivity.
    + exists l, s'. split; [exact E|]. split; [exact Ho|]. split; [exact Hd|exact Ht].
Defined.

(** After [reset_trip("A", "B")] and [start_leg("B")] on the 50 km road,
    the active leg and the leg after any successful [travel_day] stay
    within their bounds. *)
Lemma active_leg_within_bounds_witness :
  (forall l, active_leg (snd (start_leg "B" (snd (reset_trip "A" "B" (session_AB (edge_attrs_50 ∅))))))
               = Some l -> 0 <= traveled_km l /\ traveled_km l <= distance_km l) /\
  (forall m h r s', travel_day m h (snd (start_leg "B" (snd (reset_trip "A" "B"
                      (session_AB (edge_attrs_50 ∅)))))) = (Ok r, s') ->
     forall l, active_leg s' = Some l -> 0 <= traveled_km l /\ traveled_km l <= distance_km l).
Proof.
  apply (active_leg_within_bounds (<["A" := ∅]> (<["B" := ∅]> ∅))
           (<["A" := [("B", edge_attrs_50 ∅)]]> (<["B" := [("A", edge_attrs_50 ∅)]]> ∅))).
  - apply adjacency_nonneg_b_sound. vm_compute. reflexivity.
  - apply (reach_start _ (snd (reset_trip "A" "B" (session_AB (edge_attrs_50 ∅)))) "B"
             (mkLeg "A" "B" (edge_attrs_50 ∅) 50 0)).
    + apply (reach_reset _ (session_AB (edge_attrs_50 ∅)) "A" "B"); [apply reach_init|].
      vm_compute. reflexivity.
    + vm_compute. reflexivity.
Defined.

(** The graph with nodes A, B and a 10 km edge between them survives the
    round trip. *)
Lemma to_dict_from_dict_roundtrip_witness :
  from_dict (to_dict (match build_graph [OpAddNode "A" ∅; OpAddNode "B" ∅; OpAddEdge "A" "B" (km 10)] with
                      | Some g => g | None => empty_graph end))
  = Some (match build_graph [OpAddNode "A" ∅; OpAddNode "B" ∅; OpAddEdge "A" "B" (km 10)] with
          | Some g => g | None => empty_graph end).
Proof.
  apply (to_dict_from_dict_roundtrip [OpAddNode "A" ∅; OpAddNode "B" ∅; OpAddEdge "A" "B" (km 10)]).
  - repeat constructor.
  - vm_compute. reflexivity.
Defined.

(** Claim C7, as worded for every session with a current location: when
    that location is the empty node id, [available_routes] is empty, so
    [start_leg("B")] raises [NoSuchRoute] although B is adjacent to it. *)
Lemma start_leg_outcomes_counterexample :
  current_city session_empty_id = Some "" /\ active_leg session_empty_id = None /\
  In ("B", edge_attrs_50 ∅) (adj_get (adjacency session_empty_id) "") /\
  start_leg "B" session_empty_id = (Raise NoSuchRoute, session_empty_id).
Proof.
  split; [reflexivity|]. split; [reflexivity|]. split; [left; reflexivity|].
  vm_compute. reflexivity.
Qed.

(* ================================================================== *)
(** * Further properties of the tools *)

Lemma adj_get_insert (adj : adjacency_t) (k x : string) (v : list (string * attrs)) :
  adj_get (<[k := v]> adj) x = if decide (k = x) then v else adj_get adj x.
Proof.
  unfold adj_get. destruct (decide (k = x)) as [->|Hne].
  - rewrite lookup_insert_eq. reflexivity.
  - rewrite lookup_insert_ne by exact Hne. reflexivity.
Qed.

(** One edge of [prepare_graph]: the adjacency grows by the two entries
    of the edge. *)
Lemma prep_edge_spec (adj adj' : adjacency_t) (e : attrs) :
  prep_edge adj e = Some adj' ->
  exists a b ea d, edge_endpoints e = Some (a, b) /\
    ea !! "approx_distance_km" = Some (VNum d) /\
    forall x y f, In (y, f) (adj_get adj' x) <->
      In (y, f) (adj_get adj x) \/ (x = a /\ y = b /\ f = ea) \/ (x = b /\ y = a /\ f = ea).
Proof.
  unfold prep_edge. destruct (edge_endpoints e) as [[a b]|]; [|discriminate].
  destruct (py_float (prep_distance (edge_payload e))) as [d|]; [|discriminate].
  intros H. injection H as <-.
  exists a, b, (<["approx_distance_km" := VNum d]> (edge_payload e)), d.
  split; [reflexivity|]. split; [apply lookup_insert_eq|].
  intros x y f. rewrite !adj_get_insert.
  destruct (decide (b = x)) as [<-|Hbx]; destruct (decide (a = b)) as [<-|Hab].
  - rewrite !in_app_iff. cbn. intuition congruence.
  - rewrite !in_app_iff. cbn. intuition congruence.
  - destruct (decide (a = x)) as [<-|Hax]; [congruence|].
    intuition congruence.
  - destruct (decide (a = x)) as [<-|Hax].
    + rewrite in_app_iff. cbn. intuition congruence.
    + intuition congruence.
Qed.


Lemma prep_edges_inv (adj adj' : adjacency_t) (es : list attrs) :
  prep_inv adj -> foldM_opt prep_edge adj es = Some adj' -> prep_inv adj'.
Proof.
  revert adj. induction es as [|e es IH]; intros adj Hinv H; cbn in H.
  - injection H as <-. exact Hinv.
  - destruct (prep_edge adj e) as [adj1|] eqn:E; [|discriminate].
    apply (IH adj1); [|exact H].
    destruct (prep_edge_spec adj adj1 e E) as (a & b & ea & d & _ & Hd & Hiff).
    destruct Hinv as [Hsym Hnum]. split.
    + intros x y f Hin. apply Hiff in Hin. apply Hiff.
      destruct Hin as [Hin|[(-> & -> & ->)|(-> & -> & ->)]]; auto.
    + intros x y f Hin. apply Hiff in Hin.
      destruct Hin as [Hin|[(-> & -> & ->)|(-> & -> & ->)]]; eauto.
Qed.

Lemma prepare_graph_inv (d : Document) (ns : gmap string attrs) (adj : adjacency_t) :
  prepare_graph d = Some (ns, adj) -> prep_inv adj.
Proof.
  unfold prepare_graph. destruct (foldM_opt prep_node ∅ (doc_nodes d)); [|discriminate].
  destruct (foldM_opt prep_edge ∅ (doc_edges d)) as [adj0|] eqn:E; [|discriminate].
  intros H. injection H as _ <-. apply (prep_edges_inv ∅ adj0 (doc_edges d)); [|exact E].
  split; intros x y f Hin; unfold adj_get in Hin; rewrite lookup_empty in Hin; destruct Hin.
Qed.

(** X1: the adjacency built by [prepare_graph] is symmetric. *)
Theorem prepare_graph_symmetric (d : Document) (ns : gmap string attrs) (adj : adjacency_t)
    (a b : string) (e : attrs) :
  prepare_graph d = Some (ns, adj) -> In (b, e) (adj_get adj a) -> In (a, e) (adj_get adj b).
Proof. intros H. apply (proj1 (prepare_graph_inv d ns adj H)). Qed.

(** X2: every adjacency entry carries a numeric approx_distance_km. *)
Theorem prepare_graph_numeric_distance (d : Document) (ns : gmap string attrs) (adj : adjacency_t)
    (a b : string) (e : attrs) :
  prepare_graph d = Some (ns, adj) -> In (b, e) (adj_get adj a) ->
  exists q, approx_distance e = VNum q /\ py_float (approx_distance e) = Some q.
Proof.
  intros H Hin. destruct (proj2 (prepare_graph_inv d ns adj H) a b e Hin) as [q Hq].
  exists q. unfold approx_distance. rewrite Hq. split; reflexivity.
Qed.

Lemma walk_snoc_cost (adj : adjacency_t) (s u v : string) (p : list string) (c k : Q)
    (a : attrs) (w m : Q) :
  walk adj s u p c k -> In (v, a) (adj_get adj u) -> edge_weight a = Some w ->
  py_num (approx_distance a) = Some m ->
  exists c' k', walk adj s v (p ++ [v]) c' k' /\ c' == c + w /\ k' == k + m.
Proof.
  intros H. induction H as [u|u x y es b wt km p c k Ees Hin Ew Hkm _ IH]; intros Hva Hw Hm.
  - destruct (adj_get_In adj u v a Hva) as (es & Ees & Hin).
    exists (w + 0), (m + 0). split; [|split; ring].
    cbn. eapply walk_step; [exact Ees|exact Hin|exact Hw|exact Hm|apply walk_here].
  - destruct (IH Hva Hw Hm) as (c' & k' & Hw' & Hc & Hk).
    exists (wt + c'), (km + k'). split; [|split; [rewrite Hc|rewrite Hk]; ring].
    cbn. eapply walk_step; eassumption.
Qed.

Lemma walk_rev_sym (adj : adjacency_t) (s t : string) (p : list string) (c k : Q) :
  (forall x y f, In (y, f) (adj_get adj x) -> In (x, f) (adj_get adj y)) ->
  walk adj s t p c k -> exists c' k', walk adj t s (rev p) c' k' /\ c' == c /\ k' == k.
Proof.
  intros Hsym H. induction H as [u|u x y es b wt km p c k Ees Hin Ew Hkm _ IH].
  - exists 0, 0. split; [apply walk_here|split; reflexivity].
  - destruct IH as (c1 & k1 & Hw1 & Hc1 & Hk1).
    assert (Hback : In (u, b) (adj_get adj x)).
    { apply Hsym. unfold adj_get. rewrite Ees. exact Hin. }
    destruct (walk_snoc_cost adj y x u (rev p) c1 k1 b wt km Hw1 Hback Ew Hkm)
      as (c2 & k2 & Hw2 & Hc2 & Hk2).
    exists c2, k2. cbn. split; [exact Hw2|].
    split; [rewrite Hc2, Hc1|rewrite Hk2, Hk1]; ring.
Qed.

(** X3: on a prepared adjacency every walk can be travelled backwards at
    the same weighted cost and distance. *)
Theorem prepare_graph_walk_reverse (d : Document) (ns : gmap string attrs) (adj : adjacency_t)
    (s t : string) (p : list string) (c k : Q) :
  prepare_graph d = Some (ns, adj) -> walk adj s t p c k ->
  exists c' k', walk adj t s (rev p) c' k' /\ c' == c /\ k' == k.
Proof.
  intros H. apply walk_rev_sym. exact (proj1 (prepare_graph_inv d ns adj H)).
Qed.

(** X4: in a session over a prepared adjacency, [start_leg] towards any
    neighbour of the current city succeeds when no leg is active. *)
Theorem prepare_graph_start_leg_succeeds (d : Document) (ns : gmap string attrs) (adj : adjacency_t)
    (s : TravelSession) (c dest : string) (e : attrs) :
  prepare_graph d = Some (ns, adj) -> adjacency s = adj ->
  current_city s = Some c -> c <> "" -> active_leg s = None -> dest <> c ->
  In (dest, e) (adj_get adj c) ->
  exists l s', start_leg dest s = (Ok l, s') /\ origin l = c /\ destination l = dest /\
    active_leg s' = Some l /\ In (dest, leg_attrs l) (adj_get adj c).
Proof.
  intros Hp Hadj Hc Hne Hleg Hdc Hin.
  pose proof (available_routes_set s c Hc Hne) as Hav. rewrite Hadj in Hav.
  destruct (routes_dict_in (available_routes s) dest e) as [a Ha]; [rewrite Hav; exact Hin|].
  assert (Hina : In (dest, a) (adj_get adj c)).
  { destruct (proj1 (routes_dict_lookup (available_routes s) dest) a Ha) as (l1 & l2 & El & _).
    rewrite <- Hav, El. apply in_app_iff. right. left. reflexivity. }
  destruct (proj2 (prepare_graph_inv d ns adj Hp) c dest a Hina) as [q Hq].
  assert (Hf : py_float (approx_distance a) = Some q) by (unfold approx_distance; rewrite Hq; reflexivity).
  unfold start_leg. unfold_M. rewrite Hleg.
  rewrite bool_decide_false by (rewrite Hc; congruence).
  rewrite Ha, Hf, Hc. cbn.
  eexists _, _. split; [reflexivity|]. cbn. repeat split; exact Hina.
Qed.

(** ** GraphData.load and GraphData.save *)

Lemma foldM_opt_cons {S X} (f : S -> X -> option S) (s : S) (x : X) (l : list X) :
  foldM_opt f s (x :: l) = match f s x with Some s' => foldM_opt f s' l | None => None end.
Proof. reflexivity. Qed.

Lemma od_insert_fresh {K V} `{EqDecision K} (k : K) (v : V) (l : list (K * V)) :
  k ∉ l.*1 -> od_insert k v l = l ++ [(k, v)].
Proof.
  induction l as [|[k' v'] l IH]; intros Hk; [reflexivity|].
  cbn. rewrite decide_False by (intros ->; apply Hk; left).
  rewrite IH; [reflexivity|]. intros Hin. apply Hk. right. exact Hin.
Qed.

Lemma od_insert_keys {K V} `{EqDecision K} (k : K) (v : V) (l : list (K * V)) (k' : K) :
  k' ∈ (od_insert k v l).*1 <-> k' = k \/ k' ∈ l.*1.
Proof.
  induction l as [|[k0 v0] l IH]; cbn.
  - rewrite elem_of_cons, elem_of_nil. tauto.
  - destruct (decide (k = k0)) as [->|Hne]; cbn; rewrite !elem_of_cons; [tauto|].
    rewrite IH. tauto.
Qed.

Lemma od_insert_NoDup {K V} `{EqDecision K} (k : K) (v : V) (l : list (K * V)) :
  NoDup l.*1 -> NoDup (od_insert k v l).*1.
Proof.
  induction l as [|[k0 v0] l IH]; intros Hnd; cbn.
  - constructor; [apply not_elem_of_nil|constructor].
  - apply NoDup_cons in Hnd as [Hk0 Hnd].
    destruct (decide (k = k0)) as [->|Hne]; cbn; constructor; try assumption.
    + rewrite od_insert_keys. intros [->|Hin]; [congruence|contradiction].
    + apply IH, Hnd.
Qed.

Lemma od_insert_In {K V} `{EqDecision K} (k : K) (v : V) (l : list (K * V)) (x : K * V) :
  In x (od_insert k v l) -> x = (k, v) \/ In x l.
Proof.
  induction l as [|[k0 v0] l IH]; cbn.
  - intros [<-|[]]. left. reflexivity.
  - destruct (decide (k = k0)) as [->|Hne]; cbn.
    + intros [<-|H]; [left; reflexivity|right; right; exact H].
    + intros [<-|H]; [right; left; reflexivity|]. destruct (IH H); [left|right; right]; assumption.
Qed.

Lemma gd_load_node_ser (m : gmap string attrs) (k : string) (a : attrs) :
  gd_node_wf a -> gd_load_node m (a ∪ {[ "id" := VStr k ]}) = Some (<[k := a]> m).
Proof.
  intros [Hid Hport]. unfold gd_load_node.
  assert (Hdel : delete "id" (a ∪ {[ "id" := VStr k ]}) = a).
  { apply map_eq. intros i. destruct (decide (i = "id")) as [->|Hne].
    - rewrite lookup_delete_eq, Hid. reflexivity.
    - rewrite lookup_delete_ne by congruence. rewrite lookup_union_opt.
      destruct (a !! i); [reflexivity|]. rewrite lookup_singleton_ne by congruence. reflexivity. }
  rewrite Hdel, lookup_union_opt, Hid, lookup_singleton_eq.
  destruct (a !! "is_port") as [v|] eqn:Ep; [|reflexivity].
  destruct (Hport v eq_refl) as [b ->]. rewrite (insert_id a); [reflexivity|].
  rewrite Ep. destruct b; reflexivity.
Qed.

Lemma foldM_load_nodes_ser (l : list (string * attrs)) (m : gmap string attrs) :
  Forall (fun ka => gd_node_wf ka.2) l ->
  foldM_opt gd_load_node m (map (fun '(nid, a) => a ∪ {[ "id" := VStr nid ]}) l)
  = Some (foldl (fun m '(k, a) => <[k := a]> m) m l).
Proof.
  revert m. induction l as [|[k a] l IH]; intros m Hwf; [reflexivity|].
  apply Forall_cons in Hwf as [Ha Hwf]. cbn [map foldl].
  rewrite foldM_opt_cons, gd_load_node_ser by exact Ha. apply IH, Hwf.
Qed.

Lemma foldl_insert_list_to_map (l : list (string * attrs)) (m : gmap string attrs) :
  NoDup l.*1 -> foldl (fun m '(k, a) => <[k := a]> m) m l = list_to_map l ∪ m.
Proof.
  revert m. induction l as [|[k a] l IH]; intros m Hnd; cbn.
  - rewrite map_empty_union. reflexivity.
  - apply NoDup_cons in Hnd as [Hk Hnd]. rewrite IH by exact Hnd.
    rewrite <- insert_union_r by (apply not_elem_of_list_to_map_1; exact Hk).
    rewrite insert_union_l. reflexivity.
Qed.

Lemma gd_save_nodes_reload (g : GraphData) :
  map_Forall (fun _ a => gd_node_wf a) (gd_nodes g) ->
  foldM_opt gd_load_node ∅ (doc_nodes (gd_save g)) = Some (gd_nodes g).
Proof.
  intros Hwf. cbn [gd_save doc_nodes].
  set (l := merge_sort item_le (map_to_list (gd_nodes g))).
  assert (Hp : l ≡ₚ map_to_list (gd_nodes g)) by apply merge_sort_Permutation.
  rewrite foldM_load_nodes_ser.
  - rewrite foldl_insert_list_to_map.
    + rewrite map_union_empty. f_equal.
      rewrite (list_to_map_proper l (map_to_list (gd_nodes g))); [apply list_to_map_to_list| |exact Hp].
      rewrite Hp. apply NoDup_fst_map_to_list.
    + rewrite Hp. apply NoDup_fst_map_to_list.
  - apply Forall_forall. intros [k a] Hin. rewrite Hp in Hin.
    apply elem_of_map_to_list in Hin. exact (Hwf k a Hin).
Qed.

Lemma gd_edge_wf_load (e : attrs) :
  gd_edge_wf e -> exists k, edge_endpoints e = Some k /\
    forall od, gd_load_edge od e = Some (od_insert k e od).
Proof.
  intros (x & y & Hn & Hs & Hsrc & Htgt & Hm).
  assert (He : edge_endpoints e = Some (x, y)) by (unfold edge_endpoints; rewrite Hn; reflexivity).
  exists (x, y). split; [exact He|]. intros od.
  unfold gd_load_edge. rewrite He, Hs.
  assert (Hpm : edge_payload e !! "allowed_modes" = e !! "allowed_modes").
  { unfold edge_payload. rewrite !lookup_delete_ne by congruence. reflexivity. }
  assert (Hnorm : normalise_modes (edge_payload e) = Some (edge_payload e)).
  { unfold normalise_modes. rewrite Hpm.
    destruct (e !! "allowed_modes") as [v|] eqn:Em; [|reflexivity].
    destruct (Hm v eq_refl) as [l ->]. reflexivity. }
  rewrite Hnorm. cbn [fst snd]. do 2 f_equal.
  apply map_eq. intros i. rewrite lookup_union_opt. unfold edge_payload.
  destruct (decide (i = "nodes")) as [->|Hn1].
  - rewrite lookup_delete_eq, lookup_singleton_eq. symmetry. exact Hn.
  - rewrite lookup_delete_ne by congruence.
    destruct (decide (i = "source")) as [->|Hn2].
    { rewrite lookup_delete_eq, Hsrc. rewrite lookup_singleton_ne by congruence. reflexivity. }
    rewrite lookup_delete_ne by congruence.
    destruct (decide (i = "target")) as [->|Hn3].
    { rewrite lookup_delete_eq, Htgt. rewrite lookup_singleton_ne by congruence. reflexivity. }
    rewrite lookup_delete_ne by congruence.
    destruct (e !! i); [reflexivity|]. rewrite lookup_singleton_ne by congruence. reflexivity.
Qed.

Lemma foldM_load_edges_wf (l : list attrs) (od : list ((string * string) * attrs)) :
  Forall gd_edge_wf l -> NoDup (map edge_endpoints l) ->
  (forall e k, In e l -> edge_endpoints e = Some k -> k ∉ od.*1) ->
  exists od', foldM_opt gd_load_edge od l = Some od' /\ map snd od' = map snd od ++ l.
Proof.
  revert od. induction l as [|e l IH]; intros od Hwf Hnd Hfresh.
  - exists od. rewrite app_nil_r. split; reflexivity.
  - apply Forall_cons in Hwf as [He Hwf]. cbn in Hnd. apply NoDup_cons in Hnd as [Hne Hnd].
    destruct (gd_edge_wf_load e He) as (k & Hk & Hload).
    rewrite foldM_opt_cons, Hload, od_insert_fresh by (apply (Hfresh e k); [left; reflexivity|exact Hk]).
    destruct (IH (od ++ [(k, e)]) Hwf Hnd) as (od' & Hf & Hs).
    + intros e' k' Hin Hk'. rewrite fmap_app, elem_of_app. cbn. rewrite elem_of_cons, elem_of_nil.
      intros [Hin'|[->|[]]].
      * exact (Hfresh e' k' (or_intror Hin) Hk' Hin').
      * apply Hne. rewrite Hk, <- Hk'. apply list_elem_of_In, in_map, Hin.
    + exists od'. split; [exact Hf|]. rewrite Hs, map_app, <- app_assoc. reflexivity.
Qed.

(** X6: saving a well-formed editor graph and loading the file back gives
    the same graph. *)
Theorem gd_save_load_roundtrip (g : GraphData) :
  gd_wf g -> gd_load (gd_save g) = Some g.
Proof.
  intros (Hn & He & Hnd). unfold gd_load. rewrite gd_save_nodes_reload by exact Hn.
  destruct (foldM_load_edges_wf (gd_edges g) [] He Hnd) as (od & Hf & Hs).
  { intros e k _ _. apply not_elem_of_nil. }
  cbn [gd_save doc_edges]. rewrite Hf, Hs. destruct g. reflexivity.
Qed.

Lemma gd_load_node_wf (m m' : gmap string attrs) (n : attrs) :
  map_Forall (fun _ a => gd_node_wf a) m -> gd_load_node m n = Some m' ->
  map_Forall (fun _ a => gd_node_wf a) m'.
Proof.
  intros Hm H. unfold gd_load_node in H.
  destruct (n !! "id") as [[| nid | | |]|]; try discriminate. injection H as <-.
  apply map_Forall_insert_2; [|exact Hm]. split.
  - destruct (delete "id" n !! "is_port").
    + rewrite lookup_insert_ne by congruence. apply lookup_delete_eq.
    + apply lookup_delete_eq.
  - intros v Hv. destruct (delete "id" n !! "is_port") as [w|] eqn:Ew.
    + rewrite lookup_insert_eq in Hv. injection Hv as <-. eexists; reflexivity.
    + congruence.
Qed.

Lemma foldM_load_nodes_wf (l : list attrs) (m m' : gmap string attrs) :
  map_Forall (fun _ a => gd_node_wf a) m -> foldM_opt gd_load_node m l = Some m' ->
  map_Forall (fun _ a => gd_node_wf a) m'.
Proof.
  revert m. induction l as [|n l IH]; intros m Hm H; cbn in H.
  - injection H as <-. exact Hm.
  - destruct (gd_load_node m n) as [m1|] eqn:E; [|discriminate].
    exact (IH m1 (gd_load_node_wf m m1 n Hm E) H).
Qed.


Lemma gd_load_edge_wf (od od' : list ((string * string) * attrs)) (e : attrs) :
  od_wf od -> gd_load_edge od e = Some od' -> od_wf od'.
Proof.
  intros [Hf Hnd] H. unfold gd_load_edge in H.
  destruct (edge_endpoints e) as [[a b]|]; [|discriminate].
  destruct (normalise_modes (edge_payload e)) as [a'|] eqn:En; [|discriminate].
  injection H as <-.
  set (key := sorted_pair a b).
  assert (Hn : a' !! "nodes" = None /\ a' !! "source" = None /\ a' !! "target" = None /\
               forall v, a' !! "allowed_modes" = Some v -> exists l, v = VList l).
  { unfold normalise_modes, edge_payload in En.
    destruct (delete "nodes" (delete "source" (delete "target" e)) !! "allowed_modes") as [v|] eqn:Em.
    - destruct v as [q|s|b0| |l];
        [| |destruct b0| |]; cbn in En; try discriminate; injection En as <-;
        rewrite ?lookup_insert_ne by congruence;
        (split; [apply lookup_delete_eq|]);
        (split; [rewrite lookup_delete_ne by congruence; apply lookup_delete_eq|]);
        (split; [rewrite !lookup_delete_ne by congruence; apply lookup_delete_eq|]);
        intros v Hv; rewrite ?lookup_insert_eq in Hv; rewrite ?Em in Hv; injection Hv as <-;
        eexists; reflexivity.
    - injection En as <-.
      split; [apply lookup_delete_eq|].
      split; [rewrite lookup_delete_ne by congruence; apply lookup_delete_eq|].
      split; [rewrite !lookup_delete_ne by congruence; apply lookup_delete_eq|].
      intros v Hv. congruence. }
  destruct Hn as (Hn & Hs & Ht & Hm).
  set (v := a' ∪ {[ "nodes" := VList [VStr key.1; VStr key.2] ]}).
  assert (Hvn : v !! "nodes" = Some (VList [VStr key.1; VStr key.2])).
  { unfold v. rewrite lookup_union_opt, Hn. apply lookup_singleton_eq. }
  assert (Hkey : (key.1, key.2) = key) by (destruct key; reflexivity).
  assert (Hv : gd_edge_wf v /\ edge_endpoints v = Some key).
  { split.
    - exists key.1, key.2. split; [exact Hvn|]. split.
      { rewrite Hkey. apply sorted_pair_idem. }
      unfold v. rewrite !lookup_union_opt, Hs, Ht, !lookup_singleton_ne by congruence.
      split; [reflexivity|]. split; [reflexivity|].
      intros w Hw.
      destruct (a' !! "allowed_modes") eqn:E; [injection Hw as <-; exact (Hm _ eq_refl)|].
      discriminate.
    - unfold edge_endpoints. rewrite Hvn. cbn. rewrite Hkey. reflexivity. }
  split.
  - apply Forall_forall. intros x Hx. apply list_elem_of_In, od_insert_In in Hx as [->|Hx]; [exact Hv|].
    rewrite Forall_forall in Hf. apply Hf, list_elem_of_In, Hx.
  - apply od_insert_NoDup, Hnd.
Qed.

Lemma foldM_load_edges_od (l : list attrs) (od od' : list ((string * string) * attrs)) :
  od_wf od -> foldM_opt gd_load_edge od l = Some od' -> od_wf od'.
Proof.
  revert od. induction l as [|e l IH]; intros od Hod H; cbn in H.
  - injection H as <-. exact Hod.
  - destruct (gd_load_edge od e) as [od1|] eqn:E; [|discriminate].
    exact (IH od1 (gd_load_edge_wf od od1 e Hod E) H).
Qed.

(** X7: [GraphData.load] produces a well-formed editor graph: node bags
    without ["id"] and with a boolean ["is_port"], edges keyed by their
    sorted endpoint pair, without ["source"]/["target"], with list-valued
    ["allowed_modes"], and no two edges with the same pair. *)
Theorem gd_load_wf (d : Document) (g : GraphData) :
  gd_load d = Some g -> gd_wf g.
Proof.
  unfold gd_load.
  destruct (foldM_opt gd_load_node ∅ (doc_nodes d)) as [ns|] eqn:En; [|discriminate].
  destruct (foldM_opt gd_load_edge [] (doc_edges d)) as [od|] eqn:Ee; [|discriminate].
  intros H. injection H as <-.
  assert (Hod : od_wf od).
  { apply (foldM_load_edges_od (doc_edges d) []); [|exact Ee]. split; constructor. }
  destruct Hod as [Hf Hnd]. split; [|split]; cbn [gd_nodes gd_edges].
  - apply (foldM_load_nodes_wf (doc_nodes d) ∅); [apply map_Forall_empty|exact En].
  - apply Forall_map. eapply Forall_impl; [exact Hf|]. intros kv [Hw _]. exact Hw.
  - assert (Hm : map edge_endpoints (map snd od) = map (fun kv => Some kv.1) od).
    { rewrite map_map. apply map_ext_Forall. eapply Forall_impl; [exact Hf|].
      intros kv [_ Hk]. exact Hk. }
    rewrite Hm. rewrite <- (map_map fst Some). apply NoDup_fmap_2; [intros x y H; congruence|].
    exact Hnd.
Qed.

(** ** find_edge_index, upsert_edge and remove_edge *)

Lemma find_index_from_app (key : string * string) (i : nat) (l1 l2 : list attrs) (e : attrs) :
  Forall (key_differs key) l1 -> edge_key e = Some (Some key) ->
  find_index_from key i (l1 ++ e :: l2) = Some (Some (i + length l1)%nat).
Proof.
  revert i. induction l1 as [|x l1 IH]; intros i Hf He; cbn.
  - rewrite He, bool_decide_true by reflexivity. rewrite Nat.add_0_r. reflexivity.
  - apply Forall_cons in Hf as [(k & Ek & Hne) Hf]. rewrite Ek.
    rewrite (IH (S i) Hf He). replace (S i + length l1)%nat with (i + S (length l1))%nat by lia.
    destruct k as [k|]; [|reflexivity]. rewrite bool_decide_false by congruence. reflexivity.
Qed.

(** The edge [upsert_edge] stores answers to the pair it was stored for. *)
Lemma upserted_edge_key (a b : string) (ea : attrs) :
  ea !! "nodes" = None ->
  edge_key (ea ∪ {[ "nodes" := VList [VStr (sorted_pair a b).1; VStr (sorted_pair a b).2] ]})
  = Some (Some (sorted_pair a b)).
Proof.
  intros Hn. unfold edge_key. rewrite lookup_union_opt, Hn, lookup_singleton_eq.
  rewrite sorted_pair_idem. reflexivity.
Qed.

Lemma upsert_edge_find (g g' : GraphData) (a b : string) (ea : attrs) :
  ea !! "nodes" = None -> upsert_edge g a b ea = Some g' ->
  exists i, find_edge_index g' a b = Some (Some i) /\
    gd_edges g' !! i = Some (ea ∪ {[ "nodes" := VList [VStr (sorted_pair a b).1; VStr (sorted_pair a b).2] ]}) /\
    gd_nodes g' = gd_nodes g /\
    (forall j, j <> i -> gd_edges g' !! j = gd_edges g !! j) /\
    (forall idx, find_edge_index g a b = Some (Some idx) -> i = idx) /\
    (find_edge_index g a b = Some None -> i = length (gd_edges g)).
Proof.
  intros Hn H. pose proof (upserted_edge_key a b ea Hn) as Hk.
  set (edge := ea ∪ {[ "nodes" := VList [VStr (sorted_pair a b).1; VStr (sorted_pair a b).2] ]}) in *.
  unfold upsert_edge in H. fold edge in H.
  destruct (find_edge_index g a b) as [[idx|]|] eqn:Ef; [| |discriminate]; injection H as <-.
  - unfold find_edge_index in Ef. destruct (find_index_from_some _ 0 idx _ Ef) as (l1 & e & l2 & Hes & -> & _ & Hf).
    exists (length l1). cbn [gd_edges gd_nodes Nat.add].
    assert (Hins : <[length l1 := edge]> (gd_edges g) = l1 ++ edge :: l2).
    { rewrite Hes, insert_app_r_alt by lia. rewrite Nat.sub_diag. reflexivity. }
    split; [|split; [|split; [reflexivity|split; [|split]]]].
    + unfold find_edge_index. cbn [gd_edges]. rewrite Hins. apply (find_index_from_app _ 0 l1 l2 edge Hf Hk).
    + rewrite Hins, lookup_app_r by lia. rewrite Nat.sub_diag. reflexivity.
    + intros j Hj. apply list_lookup_insert_ne. congruence.
    + intros idx' E. injection E as <-. reflexivity.
    + discriminate.
  - exists (length (gd_edges g)). cbn [gd_edges gd_nodes].
    split; [|split; [|split; [reflexivity|split; [|split]]]].
    + unfold find_edge_index. cbn [gd_edges]. apply (find_index_from_app _ 0 _ [] edge); [|exact Hk].
      unfold find_edge_index in Ef. apply find_index_from_none in Ef. exact Ef.
    + rewrite lookup_app_r by lia. rewrite Nat.sub_diag. reflexivity.
    + intros j Hj. destruct (decide (j < length (gd_edges g))%nat).
      * apply lookup_app_l. exact l.
      * rewrite !lookup_ge_None_2; [reflexivity|lia|rewrite length_app; cbn; lia].
    + intros idx E. discriminate E.
    + intros _. reflexivity.
Qed.

Lemma gd_filter_key_spec (key : string * string) (es r : list attrs) :
  gd_filter_key key es = Some r ->
  Forall (key_differs key) r /\
  forall e, In e r <-> In e es /\ edge_key e <> Some (Some key).
Proof.
  revert r. induction es as [|e es IH]; intros r H; cbn in H.
  - injection H as <-. split; [constructor|]. intros e. cbn. tauto.
  - destruct (edge_key e) as [k|] eqn:Ek; [|discriminate].
    destruct (gd_filter_key key es) as [r'|]; [|discriminate].
    destruct (IH r' eq_refl) as [Hf Hin].
    case_bool_decide as Hk; injection H as <-.
    + split; [exact Hf|]. intros x. rewrite Hin. cbn. split.
      * tauto.
      * intros [[<-|Hx] Hne]; [congruence|tauto].
    + split; [constructor; [exists k; split; assumption|exact Hf]|].
      intros x. cbn. rewrite Hin. split.
      * intros [<-|[Hx Hne]]; [split; [left; reflexivity|congruence]|tauto].
      * intros [[<-|Hx] Hne]; [left; reflexivity|right; tauto].
Qed.

Lemma gd_filter_key_none (key : string * string) (es : list attrs) :
  gd_filter_key key es = None <-> Exists (fun e => edge_key e = None) es.
Proof.
  induction es as [|e es IH]; cbn.
  - split; [discriminate|intros H; inversion H].
  - rewrite Exists_cons. destruct (edge_key e) as [k|] eqn:Ek.
    + destruct (gd_filter_key key es) as [r|].
      * split; [case_bool_decide; discriminate|]. intros [C|C]; [discriminate|].
        apply IH in C. discriminate.
      * split; [intros _; right; apply IH; reflexivity|]. intros _. reflexivity.
    + split; [intros _; left; reflexivity|]. intros _. reflexivity.
Qed.

Lemma edge_key_none (e : attrs) :
  edge_key e = None <-> exists v, e !! "nodes" = Some v /\ sorted_raises v = true.
Proof.
  unfold edge_key. destruct (e !! "nodes") as [v|].
  2: { split; [discriminate|intros (v & E & _); discriminate E]. }
  split.
  - intros H. exists v. split; [reflexivity|].
    destruct v as [q|s|bb| |l]; try reflexivity.
    + destruct s as [|c1 [|c2 [|c3 s]]]; discriminate H.
    + cbn. destruct (py_sortable l); [|reflexivity].
      exfalso. revert H. destruct l as [|x [|y l]]; [discriminate|destruct x; discriminate|].
      destruct x; try discriminate; destruct y; try discriminate; destruct l; discriminate.
  - intros (w & E & H). injection E as <-. destruct v as [q|s|bb| |l]; try reflexivity.
    + discriminate H.
    + cbn in H. destruct (py_sortable l); [discriminate H|reflexivity].
Qed.

(** X9: [remove_edge(a, b)] raises exactly when [sorted] raises on some
    edge's ["nodes"] (a value that is not iterable, or a list with two
    items that cannot be ordered, such as [["A", 1]]); otherwise it keeps
    the nodes, keeps exactly the edges of other pairs, and afterwards
    [find_edge_index(a, b)] finds none. *)
Theorem remove_edge_spec (g : GraphData) (a b : string) :
  (gd_remove_edge g a b = None <->
     Exists (fun e => exists v, e !! "nodes" = Some v /\ sorted_raises v = true) (gd_edges g)) /\
  (forall g', gd_remove_edge g a b = Some g' ->
     find_edge_index g' a b = Some None /\ gd_nodes g' = gd_nodes g /\
     forall e, In e (gd_edges g') <-> In e (gd_edges g) /\ edge_key e <> Some (Some (sorted_pair a b))).
Proof.
  unfold gd_remove_edge. split.
  - assert (Hx : Exists (fun e => edge_key e = None) (gd_edges g) <->
                 Exists (fun e => exists v, e !! "nodes" = Some v /\ sorted_raises v = true) (gd_edges g)).
    { split; intros H; (eapply Exists_impl; [exact H|]); intros e He; apply edge_key_none; exact He. }
    rewrite <- Hx, <- (gd_filter_key_none (sorted_pair a b)).
    destruct (gd_filter_key _ _); split; congruence.
  - intros g' H. destruct (gd_filter_key (sorted_pair a b) (gd_edges g)) as [r|] eqn:Ef; [|discriminate].
    injection H as <-. destruct (gd_filter_key_spec _ _ _ Ef) as [Hf Hin].
    split; [|split; [reflexivity|exact Hin]].
    unfold find_edge_index. apply find_index_from_none. exact Hf.
Qed.

(** X10: adding an edge for a pair that has none and removing that pair
    again gives back the graph. *)
Theorem upsert_then_remove_edge (g g' : GraphData) (a b : string) (ea : attrs) :
  find_edge_index g a b = Some None -> ea !! "nodes" = None ->
  upsert_edge g a b ea = Some g' -> gd_remove_edge g' a b = Some g.
Proof.
  intros Hnone Hn H. unfold upsert_edge in H. rewrite Hnone in H. injection H as <-.
  unfold gd_remove_edge. cbn [gd_edges gd_nodes].
  unfold find_edge_index in Hnone. apply find_index_from_none in Hnone.
  assert (Happ : forall l, Forall (key_differs (sorted_pair a b)) l -> forall x,
            edge_key x = Some (Some (sorted_pair a b)) ->
            gd_filter_key (sorted_pair a b) (l ++ [x]) = Some l).
  { induction l as [|e l IH]; intros Hf x Hx; cbn.
    - rewrite Hx, bool_decide_true by reflexivity. reflexivity.
    - apply Forall_cons in Hf as [(k & Ek & Hne) Hf]. rewrite Ek, (IH Hf x Hx).
      rewrite bool_decide_false by exact Hne. reflexivity. }
  rewrite (Happ _ Hnone _ (upserted_edge_key a b ea Hn)). destruct g. reflexivity.
Qed.

(** X8: after [upsert_edge(a, b, attrs)] (with no ["nodes"] key in
    [attrs]), [find_edge_index(a, b)] finds the stored edge, and every
    other position of the edge list is as before: the edge stored at the
    index [find_edge_index(a, b)] gave before the call is replaced in
    place, and when there was none the edge is appended. *)
Theorem upsert_edge_then_find (g g' : GraphData) (a b : string) (ea : attrs) :
  ea !! "nodes" = None -> upsert_edge g a b ea = Some g' ->
  exists i, find_edge_index g' a b = Some (Some i) /\
    gd_edges g' !! i = Some (ea ∪ {[ "nodes" := VList [VStr (sorted_pair a b).1; VStr (sorted_pair a b).2] ]}) /\
    gd_nodes g' = gd_nodes g /\
    (forall j, j <> i -> gd_edges g' !! j = gd_edges g !! j) /\
    (forall idx, find_edge_index g a b = Some (Some idx) -> i = idx) /\
    (find_edge_index g a b = Some None -> i = length (gd_edges g)).
Proof. apply upsert_edge_find. Qed.

(** ** save_edge *)

Lemma ensure_node_edges (g : GraphData) (x : string) : gd_edges (gd_ensure_node g x) = gd_edges g.
Proof. unfold gd_ensure_node. destruct (gd_nodes g !! x); reflexivity. Qed.

Lemma ensure_node_has (g : GraphData) (x y : string) :
  (x = y \/ is_Some (gd_nodes g !! y)) -> is_Some (gd_nodes (gd_ensure_node g x) !! y).
Proof.
  unfold gd_ensure_node. destruct (gd_nodes g !! x) as [v|] eqn:E; cbn.
  - intros [<-|H]; [rewrite E; eexists; reflexivity|exact H].
  - intros [<-|H]; [rewrite lookup_insert_eq; eexists; reflexivity|].
    destruct (decide (x = y)) as [<-|Hne]; [rewrite lookup_insert_eq; eexists; reflexivity|].
    rewrite lookup_insert_ne by exact Hne. exact H.
Qed.

(** The graph [save_edge] hands to [upsert_edge]: the same edges, both
    endpoints present. *)
Lemma save_edge_upsert (g g' : GraphData) (f : EdgeForm) :
  save_edge g f = Some g' -> ef_a f <> "" -> ef_b f <> "" -> ef_a f <> ef_b f ->
  ef_distance f <> DistInvalid ->
  (is_Some (gd_nodes g !! ef_a f) /\ is_Some (gd_nodes g !! ef_b f)) \/ ef_create_nodes f = true ->
  exists g2 ea, upsert_edge g2 (ef_a f) (ef_b f) ea = Some g' /\ gd_edges g2 = gd_edges g /\
    is_Some (gd_nodes g2 !! ef_a f) /\ is_Some (gd_nodes g2 !! ef_b f) /\
    (forall y, is_Some (gd_nodes g !! y) -> is_Some (gd_nodes g2 !! y)) /\
    ea !! "nodes" = None /\
    ea !! "undirected" = Some (VBool (ef_undirected f)) /\
    ea !! "allowed_modes" = Some (VList (map VStr (ef_modes f))) /\
    ea !! "route_types" = match ef_route_types f with [] => None | l => Some (VList (map VStr l)) end /\
    ea !! "route_type" = match ef_route_types f with
                         | rt :: _ => Some (VStr rt)
                         | [] => match found_edge g (ef_a f) (ef_b f) !! "route_type" with
                                 | Some v => Some v
                                 | None => Some (VStr "route")
                                 end
                         end /\
    ea !! "approx_distance_km" = match ef_distance f with
                                 | DistNumber q => Some (VNum q)
                                 | _ => found_edge g (ef_a f) (ef_b f) !! "approx_distance_km"
                                 end /\
    (forall k, ~ In k ["nodes"; "undirected"; "allowed_modes"; "route_types"; "route_type"; "approx_distance_km"] ->
       ea !! k = found_edge g (ef_a f) (ef_b f) !! k).
Proof.
  intros H Ha Hb Hab Hd Hn. unfold save_edge in H.
  rewrite (proj2 (String.eqb_neq _ _) Ha), (proj2 (String.eqb_neq _ _) Hb),
          (proj2 (String.eqb_neq _ _) Hab) in H. cbn in H.
  unfold found_edge.
  destruct (find_edge_index g (ef_a f) (ef_b f)) as [idx|] eqn:Ef; [|discriminate].
  cbv beta iota.
  set (old := match idx with Some i => default ∅ (gd_edges g !! i) | None => ∅ end).
  assert (Hold : (match idx with Some i => delete "nodes" (default ∅ (gd_edges g !! i)) | None => ∅ end)
                 = delete "nodes" old).
  { unfold old. destruct idx; [reflexivity|]. symmetry. apply delete_empty. }
  rewrite Hold in H.
  set (a0 := <["undirected" := VBool (ef_undirected f)]> (delete "nodes" old)) in H.
  set (a1 := match ef_route_types f with
             | rt :: _ => <["route_type" := VStr rt]> (<["route_types" := VList (map VStr (ef_route_types f))]> a0)
             | [] => match delete "route_types" a0 !! "route_type" with
                     | Some _ => delete "route_types" a0
                     | None => <["route_type" := VStr "route"]> (delete "route_types" a0)
                     end
             end) in H.
  assert (Hrt : forall k, k <> "route_types" -> k <> "route_type" -> a1 !! k = a0 !! k).
  { intros k H1 H2. unfold a1. destruct (ef_route_types f).
    - destruct (delete "route_types" a0 !! "route_type");
        rewrite ?lookup_insert_ne, lookup_delete_ne by congruence; reflexivity.
    - rewrite !lookup_insert_ne by congruence. reflexivity. }
  assert (Hrts : a1 !! "route_types" = match ef_route_types f with [] => None | l => Some (VList (map VStr l)) end).
  { unfold a1. destruct (ef_route_types f).
    - destruct (delete "route_types" a0 !! "route_type");
        rewrite ?lookup_insert_ne by congruence; apply lookup_delete_eq.
    - rewrite lookup_insert_ne, lookup_insert_eq by congruence. reflexivity. }
  assert (Hrt1 : a1 !! "route_type" = match ef_route_types f with
                         | rt :: _ => Some (VStr rt)
                         | [] => match old !! "route_type" with
                                 | Some v => Some v
                                 | None => Some (VStr "route")
                                 end
                         end).
  { unfold a1. destruct (ef_route_types f).
    - assert (E : delete "route_types" a0 !! "route_type" = old !! "route_type").
      { unfold a0. rewrite lookup_delete_ne, lookup_insert_ne, lookup_delete_ne by congruence. reflexivity. }
      rewrite E. destruct (old !! "route_type") eqn:Eo.
      + rewrite E. reflexivity.
      + apply lookup_insert_eq.
    - apply lookup_insert_eq. }
  destruct (ef_distance f) as [|q|] eqn:Edist; [| |contradiction].
  all: set (a2 := <["allowed_modes" := VList (map VStr (ef_modes f))]> _) in H.
  all: assert (Hg2 : exists g2, upsert_edge g2 (ef_a f) (ef_b f) a2 = Some g' /\ gd_edges g2 = gd_edges g /\
           is_Some (gd_nodes g2 !! ef_a f) /\ is_Some (gd_nodes g2 !! ef_b f) /\
           (forall y, is_Some (gd_nodes g !! y) -> is_Some (gd_nodes g2 !! y)));
    [ destruct (bool_decide (is_Some (gd_nodes g !! ef_a f))) eqn:E1;
      destruct (bool_decide (is_Some (gd_nodes g !! ef_b f))) eqn:E2; cbn in H;
      try (apply bool_decide_eq_true in E1); try (apply bool_decide_eq_true in E2);
      try (apply bool_decide_eq_false in E1); try (apply bool_decide_eq_false in E2);
      [ exists g; auto
      | destruct (ef_create_nodes f); [|destruct Hn as [[_ C]|C]; [contradiction|discriminate]];
        eexists; split; [exact H|]; rewrite !ensure_node_edges; split; [reflexivity|];
        split; [apply ensure_node_has; right; apply ensure_node_has; right; exact E1|];
        split; [apply ensure_node_has; left; reflexivity|];
        intros y Hy; apply ensure_node_has; right; apply ensure_node_has; right; exact Hy
      | destruct (ef_create_nodes f); [|destruct Hn as [[C _]|C]; [contradiction|discriminate]];
        eexists; split; [exact H|]; rewrite !ensure_node_edges; split; [reflexivity|];
        split; [apply ensure_node_has; right; apply ensure_node_has; left; reflexivity|];
        split; [apply ensure_node_has; left; reflexivity|];
        intros y Hy; apply ensure_node_has; right; apply ensure_node_has; right; exact Hy
      | destruct (ef_create_nodes f); [|destruct Hn as [[C _]|C]; [contradiction|discriminate]];
        eexists; split; [exact H|]; rewrite !ensure_node_edges; split; [reflexivity|];
        split; [apply ensure_node_has; right; apply ensure_node_has; left; reflexivity|];
        split; [apply ensure_node_has; left; reflexivity|];
        intros y Hy; apply ensure_node_has; right; apply ensure_node_has; right; exact Hy ]
    | ].
  all: destruct Hg2 as (g2 & Hup & Hed & Hha & Hhb & Hmono).
  all: exists g2, a2; do 5 (split; [assumption|]).
  all: unfold a2.
  all: split; [rewrite lookup_insert_ne by congruence;
               rewrite ?lookup_insert_ne by congruence; rewrite Hrt by congruence;
               unfold a0; rewrite lookup_insert_ne by congruence; apply lookup_delete_eq|].
  all: split; [rewrite lookup_insert_ne by congruence;
               rewrite ?lookup_insert_ne by congruence; rewrite Hrt by congruence;
               unfold a0; apply lookup_insert_eq|].
  all: split; [apply lookup_insert_eq|].
  all: split; [rewrite lookup_insert_ne by congruence; rewrite ?lookup_insert_ne by congruence; exact Hrts|].
  all: split; [rewrite lookup_insert_ne by congruence; rewrite ?lookup_insert_ne by congruence; exact Hrt1|].
  all: split; [rewrite lookup_insert_ne by congruence;
               try (rewrite lookup_insert_eq; reflexivity);
               rewrite Hrt by congruence; unfold a0;
               rewrite lookup_insert_ne, lookup_delete_ne by congruence; reflexivity|].
  all: intros k Hk; cbn in Hk.
  all: rewrite lookup_insert_ne by (intros E; subst; tauto);
       rewrite ?lookup_insert_ne by (intros E; subst; tauto).
  all: rewrite Hrt by (intros E; subst; tauto); unfold a0;
       rewrite lookup_insert_ne, lookup_delete_ne by (intros E; subst; tauto); reflexivity.
Qed.

Lemma union_nodes_ne (ea : attrs) (v : value) (k : string) :
  k <> "nodes" -> (ea ∪ {[ "nodes" := v ]}) !! k = ea !! k.
Proof.
  intros Hk. rewrite lookup_union_opt. destruct (ea !! k); [reflexivity|].
  rewrite lookup_singleton_ne by congruence. reflexivity.
Qed.

(** X11: a completed [save_edge] (both endpoints entered and different, a
    valid or blank distance, endpoints present or their creation accepted)
    stores the edge of the pair at the index [find_edge_index] gave before
    the call (replacing in place the first edge of the pair), or appends it
    when the pair had no edge; [find_edge_index] finds it there, no other
    position of the edge list changed, both endpoints are nodes and no node
    was lost.  The edge names the sorted pair, carries the form's
    undirected flag and modes, the ticked route types (the first as
    [route_type]) or else the old [route_type] (["route"] if none), the
    entered distance or else the old one, and every other attribute of the
    edge it replaces. *)
Theorem save_edge_result (g g' : GraphData) (f : EdgeForm) :
  save_edge g f = Some g' -> ef_a f <> "" -> ef_b f <> "" -> ef_a f <> ef_b f ->
  ef_distance f <> DistInvalid ->
  (is_Some (gd_nodes g !! ef_a f) /\ is_Some (gd_nodes g !! ef_b f)) \/ ef_create_nodes f = true ->
  let old := found_edge g (ef_a f) (ef_b f) in
  exists i e, find_edge_index g' (ef_a f) (ef_b f) = Some (Some i) /\ gd_edges g' !! i = Some e /\
    (forall j, j <> i -> gd_edges g' !! j = gd_edges g !! j) /\
    (forall idx, find_edge_index g (ef_a f) (ef_b f) = Some (Some idx) -> i = idx) /\
    (find_edge_index g (ef_a f) (ef_b f) = Some None -> i = length (gd_edges g)) /\
    is_Some (gd_nodes g' !! ef_a f) /\ is_Some (gd_nodes g' !! ef_b f) /\
    (forall y, is_Some (gd_nodes g !! y) -> is_Some (gd_nodes g' !! y)) /\
    e !! "nodes" = Some (VList [VStr (sorted_pair (ef_a f) (ef_b f)).1; VStr (sorted_pair (ef_a f) (ef_b f)).2]) /\
    e !! "undirected" = Some (VBool (ef_undirected f)) /\
    e !! "allowed_modes" = Some (VList (map VStr (ef_modes f))) /\
    e !! "route_types" = match ef_route_types f with [] => None | l => Some (VList (map VStr l)) end /\
    e !! "route_type" = match ef_route_types f with
                        | rt :: _ => Some (VStr rt)
                        | [] => match old !! "route_type" with Some v => Some v | None => Some (VStr "route") end
                        end /\
    e !! "approx_distance_km" = match ef_distance f with
                                | DistNumber q => Some (VNum q)
                                | _ => old !! "approx_distance_km"
                                end /\
    (forall k, ~ In k ["nodes"; "undirected"; "allowed_modes"; "route_types"; "route_type"; "approx_distance_km"] ->
       e !! k = old !! k).
Proof.
  intros H Ha Hb Hab Hd Hn old.
  destruct (save_edge_upsert g g' f H Ha Hb Hab Hd Hn)
    as (g2 & ea & Hup & Hed & Hha & Hhb & Hmono & Hnn & Hu & Hm & Hrts & Hrt & Hdist & Hrest).
  destruct (upsert_edge_find g2 g' (ef_a f) (ef_b f) ea Hnn Hup) as (i & Hf & Hi & Hnodes & Hj & Hidx & Happ).
  assert (Hfe : find_edge_index g2 (ef_a f) (ef_b f) = find_edge_index g (ef_a f) (ef_b f))
    by (unfold find_edge_index; rewrite Hed; reflexivity).
  rewrite Hfe in Hidx, Happ. rewrite Hed in Happ.
  eexists i, _. split; [exact Hf|]. split; [exact Hi|].
  split; [intros j Hji; rewrite (Hj j Hji), Hed; reflexivity|].
  split; [exact Hidx|]. split; [exact Happ|].
  rewrite Hnodes. split; [exact Hha|]. split; [exact Hhb|]. split; [exact Hmono|].
  split; [rewrite lookup_union_opt, Hnn; apply lookup_singleton_eq|].
  rewrite !union_nodes_ne by congruence.
  do 5 (split; [assumption|]).
  intros k Hk. rewrite union_nodes_ne; [apply Hrest, Hk|]. intros ->. apply Hk. left. reflexivity.
Qed.

(** ** The node list *)

Lemma str_length_app (s t : string) : String.length (s ++ t) = (String.length s + String.length t)%nat.
Proof. induction s as [|c s IH]; simpl; [reflexivity|]. rewrite IH. reflexivity. Qed.

Lemma str_endswith_eq (s t : string) :
  str_endswith s t = String.eqb s t || match s with EmptyString => false | String _ s' => str_endswith s' t end.
Proof. destruct s; reflexivity. Qed.

Lemma str_endswith_app (s t : string) : str_endswith (s ++ t) t = true.
Proof.
  induction s as [|c s IH].
  - change ("" ++ t)%string with t. rewrite str_endswith_eq, String.eqb_refl. reflexivity.
  - rewrite str_endswith_eq. change (String c s ++ t)%string with (String c (s ++ t)).
    cbv beta iota. rewrite IH. apply orb_true_r.
Qed.

Lemma str_endswith_length (s t : string) :
  str_endswith s t = true -> (String.length t <= String.length s)%nat.
Proof.
  induction s as [|c s IH]; rewrite str_endswith_eq; intros H.
  - rewrite orb_false_r in H. apply String.eqb_eq in H. subst. reflexivity.
  - apply orb_true_iff in H as [H|H].
    + apply String.eqb_eq in H. subst. simpl. lia.
    + specialize (IH H). simpl. lia.
Qed.

Lemma substring_prefix (s t : string) : String.substring 0 (String.length s) (s ++ t) = s.
Proof.
  induction s as [|c s IH]; [destruct t; reflexivity|].
  change (String c s ++ t)%string with (String c (s ++ t)). simpl. rewrite IH. reflexivity.
Qed.

Lemma substring_length (n : nat) (s : string) : (String.length (String.substring 0 n s) <= n)%nat.
Proof.
  revert n. induction s as [|c s IH]; intros [|n]; simpl; try lia.
  specialize (IH n). lia.
Qed.

Lemma strip_port_suffix_label (nid : string) : strip_port_suffix (nid ++ port_suffix) = nid.
Proof.
  unfold strip_port_suffix. rewrite str_endswith_app, str_length_app.
  replace (String.length nid + String.length port_suffix - 7)%nat with (String.length nid)
    by (simpl; lia).
  apply substring_prefix.
Qed.

Lemma strip_port_suffix_plain (nid : string) :
  strip_port_suffix nid = nid <-> str_endswith nid port_suffix = false.
Proof.
  unfold strip_port_suffix. destruct (str_endswith nid port_suffix) eqn:E; [|tauto].
  split; [|discriminate]. intros H. exfalso.
  pose proof (str_endswith_length _ _ E) as Hl. cbn [port_suffix String.length] in Hl.
  pose proof (substring_length (String.length nid - 7) nid) as Hs.
  rewrite H in Hs. lia.
Qed.

Lemma str_app_empty (s : string) : (s ++ "")%string = s.
Proof.
  induction s as [|c s IH]; [reflexivity|].
  change (String c s ++ "")%string with (String c (s ++ "")). rewrite IH. reflexivity.
Qed.

(** X12: selecting the row the node list shows for a node loads that
    node's id back exactly when the node is a port or its id does not end
    in " (port)"; a non-port node named ["X (port)"] selects ["X"]. *)
Theorem node_row_select_id (g : GraphData) (nid : string) :
  (on_node_select g (node_label g nid)).1 = nid <->
  node_is_port g nid = true \/ str_endswith nid port_suffix = false.
Proof.
  unfold on_node_select, node_label. cbn [fst]. destruct (node_is_port g nid).
  - rewrite strip_port_suffix_label. tauto.
  - rewrite str_app_empty, strip_port_suffix_plain.
    split; [intros H; right; exact H|intros [H|H]; [discriminate|exact H]].
Qed.

Lemma save_node_is_port (g : GraphData) (nid : string) (p : bool) :
  nid <> "" -> node_is_port (save_node g nid p) nid = p.
Proof.
  intros Hne. unfold save_node. rewrite (proj2 (String.eqb_neq _ _) Hne).
  unfold node_is_port. cbn [gd_nodes]. rewrite !lookup_insert_eq. reflexivity.
Qed.

(** X13: [save_node] sets the node's [is_port] to the box's value and
    keeps its other attributes, the other nodes and the edges; in the
    refreshed list, selecting the node's row loads back its id and port
    flag, unless the node is not a port and its id ends in " (port)". *)
Theorem save_node_then_select (g : GraphData) (nid : string) (p : bool) :
  nid <> "" ->
  let g' := save_node g nid p in
  gd_edges g' = gd_edges g /\
  (forall y, y <> nid -> gd_nodes g' !! y = gd_nodes g !! y) /\
  (exists a, gd_nodes g' !! nid = Some a /\ a !! "is_port" = Some (VBool p) /\
     forall k, k <> "is_port" -> a !! k = default ∅ (gd_nodes g !! nid) !! k) /\
  (p = true \/ str_endswith nid port_suffix = false -> on_node_select g' (node_label g' nid) = (nid, p)).
Proof.
  intros Hne g'. pose proof (save_node_is_port g nid p Hne) as Hp. fold g' in Hp.
  assert (Hsel : p = true \/ str_endswith nid port_suffix = false ->
                 on_node_select g' (node_label g' nid) = (nid, p)).
  { intros Hc. unfold on_node_select, node_label. rewrite Hp. destruct p.
    - rewrite strip_port_suffix_label, Hp. reflexivity.
    - rewrite str_app_empty. rewrite (proj2 (strip_port_suffix_plain nid)).
      + rewrite Hp. reflexivity.
      + destruct Hc; [discriminate|assumption]. }
  split; [|split; [|split; [|exact Hsel]]]; unfold g', save_node;
    rewrite (proj2 (String.eqb_neq _ _) Hne); cbn [gd_nodes gd_edges].
  - reflexivity.
  - intros y Hy. apply lookup_insert_ne. congruence.
  - eexists. split; [apply lookup_insert_eq|]. split; [apply lookup_insert_eq|].
    intros k Hk. apply lookup_insert_ne. congruence.
Qed.

(** ** The trip simulator *)

Lemma reset_trip_ok_state (s : TravelSession) (a b : string) (s' : TravelSession) :
  reset_trip a b s = (Ok tt, s') ->
  nodes s' = nodes s /\ adjacency s' = adjacency s /\ current_city s' = Some a /\
  is_Some (nodes s !! a) /\ active_leg s' = None.
Proof.
  intros H. unfold reset_trip in H. unfold_M.
  destruct (bool_decide (is_Some (nodes s !! a))) eqn:Ea; cbn in H; [|discriminate].
  destruct (bool_decide (is_Some (nodes s !! b))); cbn in H; [|discriminate].
  injection H as <-. apply bool_decide_eq_true in Ea. cbn. auto.
Qed.

Lemma start_leg_ok_current (s : TravelSession) (d : string) (l : ActiveLeg) (s' : TravelSession) :
  start_leg d s = (Ok l, s') -> current_city s' = current_city s.
Proof.
  intros H. unfold start_leg in H. unfold_M.
  destruct (active_leg s); cbn in H; [congruence|].
  destruct (bool_decide _); cbn in H; [congruence|].
  destruct (routes_dict _ !! d); cbn in H; [|congruence].
  destruct (py_float _); cbn in H; [|congruence].
  injection H as _ <-. reflexivity.
Qed.

Lemma at_node_inv_step (ns : gmap string attrs) (adj : adjacency_t) :
  (forall u v a, In (v, a) (adj_get adj u) -> is_Some (ns !! v)) ->
  forall s0 s, session_reachable s0 s -> at_node_inv ns adj s0 -> at_node_inv ns adj s.
Proof.
  intros Hadj s0 s Hr H0. induction Hr as [|s a b s' _ IH H|s d l s' _ IH H|s m h r s' _ IH H].
  - exact H0.
  - destruct IH as (Hn & Ha & _ & _).
    destruct (reset_trip_ok_state _ _ _ _ H) as (Hn' & Ha' & Hc & Hin & Hl).
    split; [congruence|]. split; [congruence|]. split.
    + intros c Hc'. rewrite Hc in Hc'. injection Hc' as <-. rewrite <- Hn. exact Hin.
    + intros l Hl'. congruence.
  - destruct IH as (Hn & Ha & Hc & _).
    destruct (start_leg_ok_inv _ _ _ _ H) as (_ & Hact & Ha' & Hn' & _ & Hd & Hr & _).
    pose proof (start_leg_ok_current _ _ _ _ H) as Hc'.
    split; [congruence|]. split; [congruence|]. split; [rewrite Hc'; exact Hc|].
    intros l' Hl'. rewrite Hact in Hl'. injection Hl' as <-. rewrite Hd.
    destruct (proj1 (routes_dict_lookup (available_routes s) d) _ Hr) as (l1 & l2 & Hsplit & _).
    assert (Hin : In (d, leg_attrs l) (available_routes s)).
    { rewrite Hsplit. apply in_or_app. right. left. reflexivity. }
    destruct (available_routes_in _ _ _ Hin) as (c & _ & Hin').
    rewrite Ha in Hin'. exact (Hadj c d (leg_attrs l) Hin').
  - destruct IH as (Hn & Ha & Hc & Hl).
    destruct (travel_day_ok_inv _ _ _ _ _ H) as (leg & f & Hleg & Hh & Hf).
    pose proof (travel_day_run s leg m h f Hleg Hh Hf) as Hstep. cbv zeta in Hstep.
    destruct Hstep as (r' & s'' & Hrun & _ & _ & Hact & Hcur & Ha' & Hn' & _).
    rewrite H in Hrun. injection Hrun as <- <-.
    split; [congruence|]. split; [congruence|].
    destruct (isclose _ _ || Qle_bool _ _).
    + split; [|intros l' Hl'; rewrite Hact in Hl'; discriminate].
      intros c Hc'. rewrite Hcur in Hc'. injection Hc' as <-. exact (Hl leg Hleg).
    + split; [intros c Hc'; rewrite Hcur in Hc'; exact (Hc c Hc')|].
      intros l' Hl'. rewrite Hact in Hl'. injection Hl' as <-. exact (Hl leg Hleg).
Qed.

(** X14: in a session over a node table and an adjacency whose
    neighbours are all nodes, every state reached by successful
    [reset_trip], [start_leg] and [travel_day] calls has its current city,
    when set, and the destination of its active leg, when there is one, in
    the node table. *)
Theorem session_stays_on_nodes (ns : gmap string attrs) (adj : adjacency_t) (s : TravelSession) :
  (forall u v a, In (v, a) (adj_get adj u) -> is_Some (ns !! v)) ->
  session_reachable (new_session ns adj) s ->
  (forall c, current_city s = Some c -> is_Some (ns !! c)) /\
  (forall l, active_leg s = Some l -> is_Some (ns !! destination l)).
Proof.
  intros Hadj Hr.
  destruct (at_node_inv_step ns adj Hadj _ s Hr) as (_ & _ & Hc & Hl); [|split; assumption].
  split; [reflexivity|]. split; [reflexivity|]. split; intros ? H; discriminate H.
Qed.

(** X15: a [travel_day] call on an active leg with distance left, with
    positive hours and a positive difficulty, covers a positive distance
    no larger than what was left, adds exactly that distance to the trip
    total and advances the day counter by one. *)
Theorem travel_day_progress (s : TravelSession) (leg : ActiveLeg) (mode : string) (hours d : Q) :
  active_leg s = Some leg -> 0 < hours -> difficulty_for_edge (leg_attrs leg) = Some d -> 0 < d ->
  0 < remaining_km leg ->
  exists r s', travel_day mode hours s = (Ok r, s') /\
    0 < res_traveled_km r /\ res_traveled_km r <= remaining_km leg /\
    total_traveled_km s' = total_traveled_km s + res_traveled_km r /\
    day s' = S (day s) /\ res_day r = S (day s).
Proof.
  intros Hleg Hh Hd Hd0 Hrem.
  assert (Hpos : 0 < speed_for_mode mode * hours * d).
  { pose proof (speed_for_mode_pos mode). apply Qmult_lt_0_compat; [apply Qmult_lt_0_compat|]; assumption. }
  unfold travel_day. unfold_M.
  rewrite Hleg, (Qle_bool_pos_false _ Hh), Hd. cbn.
  destruct (isclose _ _ || Qle_bool _ _); cbn; eexists _, _; (split; [reflexivity|]); cbn.
  all: split; [unfold py_min; destruct (Qlt_le_dec _ _); lra|]; split; [apply py_min_le_r|]; repeat split.
Qed.

(** ** A createGraph document in the travel planner *)

Lemma prep_nodes_fold (N : gmap string attrs) (ks : list string) (m : gmap string attrs) :
  NoDup ks -> (forall k, In k ks -> exists v, N !! k = Some v /\ v !! "id" = Some (VStr k)) ->
  exists m', foldM_opt prep_node m (omap (fun k => N !! k) ks) = Some m' /\
    forall j, (In j ks -> m' !! j = N !! j) /\ (~ In j ks -> m' !! j = m !! j).
Proof.
  revert m. induction ks as [|k ks IH]; intros m Hnd Hok.
  - exists m. split; [reflexivity|]. intros j. split; [intros []|reflexivity].
  - apply NoDup_cons in Hnd as [Hk Hnd]. rewrite list_elem_of_In in Hk.
    destruct (Hok k (or_introl eq_refl)) as (v & Hv & Hid).
    rewrite (omap_cons_Some (fun k => N !! k) k ks v Hv), foldM_opt_cons.
    unfold prep_node at 1. rewrite Hid.
    destruct (IH (<[k := v]> m) Hnd) as (m' & Hf & Hj); [intros k' Hk'; apply Hok; right; exact Hk'|].
    exists m'. split; [exact Hf|]. intros j. destruct (Hj j) as [Hin Hout]. split.
    + intros [<-|Hj']; [|exact (Hin Hj')]. rewrite (Hout Hk), lookup_insert_eq. symmetry. exact Hv.
    + intros Hn. rewrite Hout by (intros C; apply Hn; right; exact C).
      apply lookup_insert_ne. intros ->. apply Hn. left. reflexivity.
Qed.

Lemma prep_edges_mono (l : list attrs) (adj adj' : adjacency_t) (u : string) (x : string * attrs) :
  foldM_opt prep_edge adj l = Some adj' -> In x (adj_get adj u) -> In x (adj_get adj' u).
Proof.
  revert adj. induction l as [|e l IH]; intros adj H Hin; cbn in H.
  - injection H as <-. exact Hin.
  - destruct (prep_edge adj e) as [adj1|] eqn:E; [|discriminate].
    apply (IH adj1 H). destruct x as [y f].
    destruct (prep_edge_spec adj adj1 e E) as (a & b & ea & d & _ & _ & Hiff).
    apply Hiff. left. exact Hin.
Qed.

Lemma prep_edges_all (l : list attrs) (adj : adjacency_t) :
  Forall (fun e => is_Some (edge_endpoints e) /\ is_Some (py_float (prep_distance (edge_payload e)))) l ->
  exists adj', foldM_opt prep_edge adj l = Some adj' /\
    forall e a b d, In e l -> edge_endpoints e = Some (a, b) ->
      py_float (prep_distance (edge_payload e)) = Some d ->
      In (b, <["approx_distance_km" := VNum d]> (edge_payload e)) (adj_get adj' a) /\
      In (a, <["approx_distance_km" := VNum d]> (edge_payload e)) (adj_get adj' b).
Proof.
  revert adj. induction l as [|e l IH]; intros adj Hall.
  - exists adj. split; [reflexivity|]. intros e a b d [].
  - apply Forall_cons in Hall as [[[[a b] Hab] [d Hd]] Hall].
    set (ent := <["approx_distance_km" := VNum d]> (edge_payload e)).
    set (adj1 := let adj1 := <[a := adj_get adj a ++ [(b, ent)]]> adj in
                 <[b := adj_get adj1 b ++ [(a, ent)]]> adj1).
    assert (Hstep : prep_edge adj e = Some adj1).
    { unfold prep_edge. rewrite Hab, Hd. reflexivity. }
    destruct (IH adj1 Hall) as (adj' & Hf & Hin).
    exists adj'. rewrite foldM_opt_cons, Hstep. split; [exact Hf|].
    intros e' a' b' d' [<-|He'] Hab' Hd'; [|exact (Hin e' a' b' d' He' Hab' Hd')].
    rewrite Hab in Hab'. injection Hab' as <- <-. rewrite Hd in Hd'. injection Hd' as <-.
    fold ent.
    split; apply (prep_edges_mono l adj1 adj' _ _ Hf); unfold adj1; rewrite !adj_get_insert;
      repeat case_decide; subst; rewrite ?in_app_iff; cbn; tauto.
Qed.

Lemma edge_endpoints_pair (e : attrs) (x y : string) :
  e !! "nodes" = Some (VList [VStr x; VStr y]) -> edge_endpoints e = Some (x, y).
Proof. intros H. unfold edge_endpoints. rewrite H. reflexivity. Qed.

(** [prep_distance] picks one of the two distance fields or [0.0]. *)
Lemma prep_distance_cases (a : attrs) :
  prep_distance a = VNum 0 \/ a !! "approx_distance_km" = Some (prep_distance a) \/
  a !! "distance_km" = Some (prep_distance a).
Proof.
  unfold prep_distance.
  destruct (a !! "approx_distance_km") as [v|]; [destruct (py_truthy v)|];
    destruct (a !! "distance_km") as [w|]; try destruct (py_truthy w); auto.
Qed.

Lemma edge_payload_lookup (e : attrs) (k : string) :
  k <> "nodes" -> k <> "source" -> k <> "target" -> edge_payload e !! k = e !! k.
Proof. intros H1 H2 H3. unfold edge_payload. rewrite !lookup_delete_ne by congruence. reflexivity. Qed.

(** X5: the document [Graph.to_dict] writes for a graph built by
    [add_node]/[add_edge] loads in [prepare_graph] when every distance
    field is a number: the node table is the graph's, and each edge
    appears in the lists of both endpoints with its attributes and its
    distance as a float. *)
Theorem built_graph_prepares (ops : list graph_op) (g : Graph) :
  Forall op_no_reserved ops -> build_graph ops = Some g ->
  (forall k e v, g_edges g !! k = Some e ->
     e !! "approx_distance_km" = Some v \/ e !! "distance_km" = Some v -> is_Some (py_float v)) ->
  exists adj, prepare_graph (to_dict g) = Some (g_nodes g, adj) /\
    forall k e, g_edges g !! k = Some e ->
      exists d, py_float (prep_distance (edge_payload e)) = Some d /\
        In (k.2, <["approx_distance_km" := VNum d]> (edge_payload e)) (adj_get adj k.1) /\
        In (k.1, <["approx_distance_km" := VNum d]> (edge_payload e)) (adj_get adj k.2).
Proof.
  intros Hops Hb Hdist.
  destruct (build_graph_ok ops g Hops Hb) as [Hn He].
  assert (Hedge : forall k e, g_edges g !! k = Some e ->
            edge_endpoints e = Some k /\ is_Some (py_float (prep_distance (edge_payload e)))).
  { intros [x y] e Hk. destruct (He _ _ Hk) as (Hnodes & _). split.
    - exact (edge_endpoints_pair e x y Hnodes).
    - destruct (prep_distance_cases (edge_payload e)) as [->|[Hv|Hv]]; [eexists; reflexivity| |].
      + rewrite edge_payload_lookup in Hv by discriminate. exact (Hdist _ _ _ Hk (or_introl Hv)).
      + rewrite edge_payload_lookup in Hv by discriminate. exact (Hdist _ _ _ Hk (or_intror Hv)). }
  unfold prepare_graph, to_dict. cbn [doc_nodes doc_edges].
  destruct (prep_nodes_fold (g_nodes g) (merge_sort str_le (map fst (map_to_list (g_nodes g)))) ∅
              (NoDup_merge_sort_keys _ _)) as (m & Hm & Hj).
  { intros k Hk. apply In_merge_sort_keys in Hk as [v Hv]. exists v. split; [exact Hv|].
    exact (proj1 (Hn k v Hv)). }
  rewrite Hm.
  assert (Hmeq : m = g_nodes g).
  { apply map_eq. intros j. destruct (Hj j) as [Hin Hout].
    destruct (in_dec String.string_dec j (merge_sort str_le (map fst (map_to_list (g_nodes g))))) as [Hi|Hi];
      [exact (Hin Hi)|].
    rewrite (Hout Hi), lookup_empty. symmetry. apply eq_None_not_Some. intros Hs.
    apply Hi. apply In_merge_sort_keys. exact Hs. }
  subst m.
  destruct (prep_edges_all (omap (fun k => g_edges g !! k)
              (merge_sort pair_le (map fst (map_to_list (g_edges g))))) ∅) as (adj & Ha & Hall).
  { apply List.Forall_forall. intros e Hin. apply list_elem_of_In, list_elem_of_omap in Hin as (k & _ & Hk).
    destruct (Hedge k e Hk) as [H1 H2]. split; [rewrite H1; eexists; reflexivity|exact H2]. }
  exists adj. rewrite Ha. split; [reflexivity|].
  intros [x y] e Hk. destruct (Hedge _ e Hk) as [Hab [d Hd]].
  exists d. split; [exact Hd|].
  apply (Hall e x y d); [|exact Hab|exact Hd].
  apply list_elem_of_In, list_elem_of_omap. exists (x, y). split; [|exact Hk].
  apply list_elem_of_In, In_merge_sort_keys. exists e. exact Hk.
Qed.

(** ** GraphData.remove_node on a loaded graph *)

Lemma sublist_map {A B} (f : A -> B) (l1 l2 : list A) :
  l1 `sublist_of` l2 -> map f l1 `sublist_of` map f l2.
Proof. induction 1; cbn; constructor; assumption. Qed.

Lemma edge_mentions_wf (x : string) (e : attrs) (u v : string) :
  e !! "nodes" = Some (VList [VStr u; VStr v]) ->
  edge_mentions x e = Some (String.eqb u x || String.eqb v x).
Proof. intros H. unfold edge_mentions. rewrite H. cbn. rewrite orb_false_r. reflexivity. Qed.

Lemma filter_not_mentioning_wf (x : string) (es : list attrs) :
  Forall gd_edge_wf es ->
  exists r, filter_not_mentioning x es = Some r /\ r `sublist_of` es /\
    forall e, In e r <-> In e es /\ forall u v, edge_endpoints e = Some (u, v) -> u <> x /\ v <> x.
Proof.
  induction es as [|e es IH]; intros Hall.
  - exists []. split; [reflexivity|]. split; [constructor|]. intros e. cbn. tauto.
  - apply Forall_cons in Hall as [He Hall].
    destruct (IH Hall) as (r & Hr & Hsub & Hin).
    destruct He as (u & v & Hn & _).
    pose proof (edge_endpoints_pair e u v Hn) as Hep.
    cbn [filter_not_mentioning]. rewrite (edge_mentions_wf x e u v Hn), Hr.
    destruct (String.eqb_spec u x) as [Hu|Hu], (String.eqb_spec v x) as [Hv|Hv]; cbn [orb].
    1-3: exists r; split; [reflexivity|]; split; [constructor; exact Hsub|];
      intros e'; rewrite Hin; cbn; split;
      [tauto|intros [[<-|H] Hnot]; [|tauto]; destruct (Hnot u v Hep); contradiction].
    exists (e :: r). split; [reflexivity|]. split; [constructor; exact Hsub|].
    intros e'. cbn. rewrite Hin. split.
    + intros [<-|[H1 H2]]; [|tauto]. split; [left; reflexivity|].
      intros u' v' Huv. rewrite Hep in Huv. injection Huv as <- <-. tauto.
    + intros [[<-|H] Hnot]; [left; reflexivity|right; tauto].
Qed.

(** X16: on a graph as [GraphData.load] builds it, [remove_node(x)]
    never fails, deletes only the node [x], keeps in their order exactly the
    edges that do not have [x] as an endpoint, and leaves a graph of the
    same shape. *)
Theorem remove_node_wf (g : GraphData) (x : string) :
  gd_wf g ->
  exists g', gd_remove_node g x = Some g' /\ gd_nodes g' = delete x (gd_nodes g) /\
    gd_edges g' `sublist_of` gd_edges g /\
    (forall e, In e (gd_edges g') <->
       In e (gd_edges g) /\ forall u v, edge_endpoints e = Some (u, v) -> u <> x /\ v <> x) /\
    gd_wf g'.
Proof.
  intros (Hn & He & Hnd).
  destruct (filter_not_mentioning_wf x (gd_edges g) He) as (r & Hr & Hsub & Hin).
  exists (mkGraphData (delete x (gd_nodes g)) r). unfold gd_remove_node. rewrite Hr.
  split.
  { f_equal. f_equal. destruct (gd_nodes g !! x) eqn:Ex; [reflexivity|].
    symmetry. apply delete_id. exact Ex. }
  cbn [gd_nodes gd_edges]. split; [reflexivity|]. split; [exact Hsub|]. split; [exact Hin|].
  split; [|split].
  - apply map_Forall_delete. exact Hn.
  - apply List.Forall_forall. intros e He'. apply Hin in He' as [He' _].
    exact (proj1 (List.Forall_forall _ _) He e He').
  - apply (sublist_NoDup _ _ Hnd). apply sublist_map. exact Hsub.
Qed.

(** ** A graph saved by the editor in the travel planner *)

Lemma prep_node_ser (m : gmap string attrs) (k : string) (a : attrs) :
  a !! "id" = None -> prep_node m (a ∪ {[ "id" := VStr k ]}) = Some (<[k := a ∪ {[ "id" := VStr k ]}]> m).
Proof. intros Hid. unfold prep_node. rewrite lookup_union_opt, Hid, lookup_singleton_eq. reflexivity. Qed.

Lemma foldM_prep_nodes_ser (l : list (string * attrs)) (m : gmap string attrs) :
  Forall (fun ka => ka.2 !! "id" = None) l ->
  foldM_opt prep_node m (map (fun '(nid, a) => a ∪ {[ "id" := VStr nid ]}) l)
  = Some (foldl (fun m '(k, a) => <[k := a]> m) m
            (map (fun '(k, a) => (k, a ∪ {[ "id" := VStr k ]})) l)).
Proof.
  revert m. induction l as [|[k a] l IH]; intros m Hwf; [reflexivity|].
  apply Forall_cons in Hwf as [Ha Hwf]. cbn [map foldl].
  rewrite foldM_opt_cons, prep_node_ser by exact Ha. apply IH, Hwf.
Qed.

Lemma fst_map_ser (l : list (string * attrs)) :
  (map (fun '(k, a) => (k, a ∪ {[ "id" := VStr k ]})) l).*1 = l.*1.
Proof. induction l as [|[k a] l IH]; cbn; [reflexivity|]. f_equal. exact IH. Qed.

Lemma gd_save_prep_nodes (g : GraphData) :
  map_Forall (fun _ a => gd_node_wf a) (gd_nodes g) ->
  exists ns, foldM_opt prep_node ∅ (doc_nodes (gd_save g)) = Some ns /\
    forall k, ns !! k = (fun a => a ∪ {[ "id" := VStr k ]}) <$> gd_nodes g !! k.
Proof.
  intros Hwf. cbn [gd_save doc_nodes].
  set (l := merge_sort item_le (map_to_list (gd_nodes g))).
  assert (Hp : l ≡ₚ map_to_list (gd_nodes g)) by apply merge_sort_Permutation.
  assert (Hnd : NoDup l.*1) by (rewrite Hp; apply NoDup_fst_map_to_list).
  assert (Hin : forall k a, (k, a) ∈ l <-> gd_nodes g !! k = Some a)
    by (intros k a; rewrite Hp; apply elem_of_map_to_list).
  rewrite foldM_prep_nodes_ser.
  2: { apply Forall_forall. intros [k a] Hka. apply Hin in Hka. exact (proj1 (Hwf k a Hka)). }
  eexists. split; [reflexivity|]. intros k.
  rewrite foldl_insert_list_to_map by (rewrite fst_map_ser; exact Hnd).
  rewrite map_union_empty.
  destruct (gd_nodes g !! k) as [a|] eqn:Ek; cbn [fmap option_fmap option_map].
  - apply elem_of_list_to_map_1; [rewrite fst_map_ser; exact Hnd|].
    apply list_elem_of_fmap. exists (k, a). split; [reflexivity|]. apply Hin. exact Ek.
  - apply not_elem_of_list_to_map_1. rewrite fst_map_ser. intros Hk.
    apply list_elem_of_fmap in Hk as ([k' a] & Hk' & Hka). cbn in Hk'. subst k'.
    apply Hin in Hka. congruence.
Qed.

(** X17: the document [GraphData.save] writes for a graph as
    [GraphData.load] builds it loads in the travel planner's
    [prepare_graph] when every distance field is a number: the node table
    has the editor's nodes with their ids put back, and each edge appears
    in the lists of both endpoints with its attributes and its distance as
    a float. *)
Theorem editor_save_prepares (g : GraphData) :
  gd_wf g ->
  (forall e v, In e (gd_edges g) ->
     e !! "approx_distance_km" = Some v \/ e !! "distance_km" = Some v -> is_Some (py_float v)) ->
  exists ns adj, prepare_graph (gd_save g) = Some (ns, adj) /\
    (forall k, ns !! k = (fun a => a ∪ {[ "id" := VStr k ]}) <$> gd_nodes g !! k) /\
    forall e u v, In e (gd_edges g) -> e !! "nodes" = Some (VList [VStr u; VStr v]) ->
      exists d, py_float (prep_distance (edge_payload e)) = Some d /\
        In (v, <["approx_distance_km" := VNum d]> (edge_payload e)) (adj_get adj u) /\
        In (u, <["approx_distance_km" := VNum d]> (edge_payload e)) (adj_get adj v).
Proof.
  intros (Hn & He & _) Hdist.
  assert (Hd : forall e, In e (gd_edges g) -> is_Some (py_float (prep_distance (edge_payload e)))).
  { intros e Hin.
    destruct (prep_distance_cases (edge_payload e)) as [->|[Hv|Hv]]; [eexists; reflexivity| |].
    + rewrite edge_payload_lookup in Hv by discriminate. exact (Hdist _ _ Hin (or_introl Hv)).
    + rewrite edge_payload_lookup in Hv by discriminate. exact (Hdist _ _ Hin (or_intror Hv)). }
  destruct (gd_save_prep_nodes g Hn) as (ns & Hns & Hk).
  destruct (prep_edges_all (gd_edges g) ∅) as (adj & Ha & Hall).
  { apply List.Forall_forall. intros e Hin. split; [|exact (Hd e Hin)].
    destruct (proj1 (List.Forall_forall _ _) He e Hin) as (x & y & Hxy & _).
    rewrite (edge_endpoints_pair e x y Hxy). eexists; reflexivity. }
  exists ns, adj. unfold prepare_graph. rewrite Hns. cbn [gd_save doc_edges]. rewrite Ha.
  split; [reflexivity|]. split; [exact Hk|].
  intros e u v Hin Huv. destruct (Hd e Hin) as [d Hd']. exists d. split; [exact Hd'|].
  exact (Hall e u v d Hin (edge_endpoints_pair e u v Huv) Hd').
Qed.

(** ** The editor's edits keep the shape of a loaded graph *)

Lemma wf_edge_key (e : attrs) :
  gd_edge_wf e -> exists k, edge_key e = Some (Some k) /\ edge_endpoints e = Some k.
Proof.
  intros (x & y & Hn & Hs & _). exists (x, y). split.
  - unfold edge_key. rewrite Hn, Hs. reflexivity.
  - exact (edge_endpoints_pair e x y Hn).
Qed.

Lemma find_index_from_wf (key : string * string) (i : nat) (es : list attrs) :
  Forall gd_edge_wf es -> exists r, find_index_from key i es = Some r.
Proof.
  revert i. induction es as [|e es IH]; intros i Hall; cbn; [eexists; reflexivity|].
  apply Forall_cons in Hall as [He Hall].
  destruct (wf_edge_key e He) as (k & Ek & _). rewrite Ek.
  case_bool_decide; [eexists; reflexivity|]. apply IH, Hall.
Qed.

Lemma upsert_edge_wf (g g' : GraphData) (a b : string) (ea : attrs) :
  gd_wf g -> ea !! "nodes" = None -> ea !! "source" = None -> ea !! "target" = None ->
  (forall v, ea !! "allowed_modes" = Some v -> exists l, v = VList l) ->
  upsert_edge g a b ea = Some g' -> gd_wf g'.
Proof.
  intros (Hn & He & Hnd) Hen Hes Het Ham. unfold upsert_edge, find_edge_index.
  set (e' := ea ∪ {[ "nodes" := VList [VStr (sorted_pair a b).1; VStr (sorted_pair a b).2] ]}).
  assert (Hwf' : gd_edge_wf e').
  { exists (sorted_pair a b).1, (sorted_pair a b).2. unfold e'. lk. rewrite Hen. lk.
    split; [reflexivity|]. split; [rewrite sorted_pair_idem; destruct (sorted_pair a b); reflexivity|].
    rewrite Hes, Het. lk. split; [reflexivity|]. split; [reflexivity|].
    intros v Hv. destruct (ea !! "allowed_modes") eqn:Ea.
    - apply Ham. exact Hv.
    - rewrite ?lookup_singleton_ne in Hv by discriminate. discriminate. }
  assert (Hep' : edge_endpoints e' = Some (sorted_pair a b)).
  { unfold e'. rewrite (edge_endpoints_pair _ (sorted_pair a b).1 (sorted_pair a b).2);
      [destruct (sorted_pair a b); reflexivity|]. lk. rewrite Hen. lk. reflexivity. }
  destruct (find_index_from (sorted_pair a b) 0 (gd_edges g)) as [[idx|]|] eqn:Ef; intros H;
    [| |discriminate]; injection H as <-.
  - destruct (find_index_from_some _ _ _ _ Ef) as (l1 & e & l2 & Hes' & -> & Hk & _).
    cbn [gd_nodes gd_edges Nat.add]. rewrite Hes' in He, Hnd |- *.
    rewrite insert_app_r_alt by lia. rewrite Nat.sub_diag. cbn [insert list_insert].
    apply Forall_app in He as [He1 He2]. apply Forall_cons in He2 as [He He2].
    split; [exact Hn|]. split; [apply Forall_app; split; [exact He1|constructor; assumption]|].
    destruct (wf_edge_key e He) as (k & Ek & Hep). rewrite Hk in Ek. injection Ek as <-.
    change (NoDup (map edge_endpoints (l1 ++ e' :: l2))). rewrite map_app in Hnd |- *. cbn [map] in Hnd |- *. rewrite Hep', <- Hep. exact Hnd.
  - apply find_index_from_none in Ef.
    cbn [gd_nodes gd_edges]. split; [exact Hn|]. split; [apply Forall_app; split; [exact He|constructor; [exact Hwf'|constructor]]|].
    change (NoDup (map edge_endpoints (gd_edges g ++ [e']))). rewrite map_app. cbn [map]. apply NoDup_app. split; [exact Hnd|]. split; [|constructor; [intros C; inversion C|constructor]].
    intros x Hx Hx'. apply list_elem_of_singleton in Hx'. subst x.
    apply list_elem_of_In, in_map_iff in Hx as (e & Hep & Hin).
    destruct (wf_edge_key e (proj1 (List.Forall_forall _ _) He e Hin)) as (k & Ek & Hk).
    rewrite Hk, Hep' in Hep. injection Hep as ->.
    destruct (proj1 (List.Forall_forall _ _) Ef e Hin) as (k' & Ek' & Hne). congruence.
Qed.

Lemma ensure_node_shape (g : GraphData) (x y : string) (v : attrs) :
  gd_nodes (gd_ensure_node g x) !! y = Some v -> gd_nodes g !! y = Some v \/ v = ∅.
Proof.
  unfold gd_ensure_node. destruct (gd_nodes g !! x) eqn:E; cbn; [left; exact H|].
  destruct (decide (x = y)) as [<-|Hne].
  - rewrite lookup_insert_eq. intros H; injection H as <-. right. reflexivity.
  - rewrite lookup_insert_ne by exact Hne. left. exact H.
Qed.

Lemma save_edge_shape (g g' : GraphData) (f : EdgeForm) :
  save_edge g f = Some g' -> g' = g \/ exists g2 ea,
    upsert_edge g2 (ef_a f) (ef_b f) ea = Some g' /\ gd_edges g2 = gd_edges g /\
    (forall y v, gd_nodes g2 !! y = Some v -> gd_nodes g !! y = Some v \/ v = ∅) /\
    ea !! "nodes" = None /\ ea !! "source" = found_edge g (ef_a f) (ef_b f) !! "source" /\
    ea !! "target" = found_edge g (ef_a f) (ef_b f) !! "target" /\
    exists l, ea !! "allowed_modes" = Some (VList l).
Proof.
  unfold save_edge, found_edge. intros H.
  repeat case_match; try (injection H as <-; left; reflexivity); try discriminate H.
  all: right; eexists _, _; split; [exact H|].
  all: rewrite ?ensure_node_edges; split; [reflexivity|].
  all: split; [intros y w Hy; first
         [ left; exact Hy
         | apply ensure_node_shape in Hy as [Hy| ->]; [|right; reflexivity];
           apply ensure_node_shape in Hy as [Hy| ->]; [left; exact Hy|right; reflexivity] ]|].
  all: split; [lk; reflexivity|].
  all: split; [lk; reflexivity|].
  all: split; [lk; reflexivity|].
  all: eexists; lk; reflexivity.
Qed.

Lemma found_edge_wf (g : GraphData) (a b : string) :
  Forall gd_edge_wf (gd_edges g) ->
  found_edge g a b !! "source" = None /\ found_edge g a b !! "target" = None.
Proof.
  intros He. unfold found_edge.
  destruct (find_edge_index g a b) as [[i|]|]; try (split; apply lookup_empty).
  destruct (gd_edges g !! i) as [e|] eqn:Ei; cbn; [|split; apply lookup_empty].
  destruct (Forall_lookup_1 _ _ _ _ He Ei) as (x & y & _ & _ & Hs & Ht & _). auto.
Qed.

Lemma gd_filter_key_wf (key : string * string) (es : list attrs) :
  Forall gd_edge_wf es -> exists r, gd_filter_key key es = Some r /\ r `sublist_of` es.
Proof.
  induction es as [|e es IH]; intros Hall; cbn; [exists []; split; [reflexivity|constructor]|].
  apply Forall_cons in Hall as [He Hall]. destruct (IH Hall) as (r & Hr & Hsub).
  destruct (wf_edge_key e He) as (k & Ek & _). rewrite Ek, Hr.
  case_bool_decide.
  - exists r. split; [reflexivity|]. constructor. exact Hsub.
  - exists (e :: r). split; [reflexivity|]. constructor. exact Hsub.
Qed.

(** X18: on a graph as [GraphData.load] builds it, the editor's
    [save_edge] and [delete_edge] ([remove_edge]) never fail, and they and
    [save_node] leave a graph of the same shape. *)
Theorem editor_edits_keep_wf (g : GraphData) :
  gd_wf g ->
  (forall f, exists g', save_edge g f = Some g' /\ gd_wf g') /\
  (forall nid p, gd_wf (save_node g nid p)) /\
  (forall a b, exists g', gd_remove_edge g a b = Some g' /\ gd_wf g').
Proof.
  intros Hwf. pose proof Hwf as (Hn & He & Hnd). split; [|split].
  - intros f. destruct (save_edge g f) as [g'|] eqn:E.
    + exists g'. split; [reflexivity|].
      destruct (save_edge_shape g g' f E) as [->|(g2 & ea & Hup & Hed & Hns & Hen & Hs & Ht & l & Hl)];
        [exact Hwf|].
      destruct (found_edge_wf g (ef_a f) (ef_b f) He) as [Hs0 Ht0].
      apply (upsert_edge_wf g2 g' (ef_a f) (ef_b f) ea); [| exact Hen | rewrite Hs; exact Hs0
        | rewrite Ht; exact Ht0 | intros v Hv; rewrite Hl in Hv; injection Hv as <-; eexists; reflexivity
        | exact Hup].
      split; [|rewrite Hed; split; assumption].
      intros y v Hy. destruct (Hns y v Hy) as [Hy'| ->]; [exact (Hn y v Hy')|].
      split; [apply lookup_empty|]. intros w Hw. rewrite lookup_empty in Hw. discriminate.
    + exfalso. unfold save_edge in E. repeat case_match; try discriminate E.
      all: unfold upsert_edge, find_edge_index in *; rewrite ?ensure_node_edges in *.
      all: destruct (find_index_from_wf (sorted_pair (ef_a f) (ef_b f)) 0 (gd_edges g) He) as [r Hr].
      all: rewrite Hr in *; try discriminate; destruct r; discriminate.
  - intros nid p. unfold save_node. destruct (String.eqb nid ""); [exact Hwf|].
    split; [|split; assumption].
    apply map_Forall_insert_2; [|exact Hn]. split.
    + rewrite lookup_insert_ne by discriminate.
      destruct (gd_nodes g !! nid) as [a|] eqn:Ea; cbn; [exact (proj1 (Hn _ _ Ea))|apply lookup_empty].
    + intros v Hv. rewrite lookup_insert_eq in Hv. injection Hv as <-. eexists; reflexivity.
  - intros a b. destruct (gd_filter_key_wf (sorted_pair a b) (gd_edges g) He) as (r & Hr & Hsub).
    exists (mkGraphData (gd_nodes g) r). unfold gd_remove_edge. rewrite Hr. split; [reflexivity|].
    split; [exact Hn|]. split.
    + apply List.Forall_forall. intros e Hin.
      apply (proj1 (List.Forall_forall _ _) He). exact (proj1 (proj1 (proj2 (gd_filter_key_spec _ _ _ Hr) e) Hin)).
    + apply (sublist_NoDup _ _ Hnd). apply sublist_map. exact Hsub.
Qed.

(** ** Every leg ends *)

Lemma Q_of_nat_succ (m : nat) : inject_Z (Z.of_nat (S m)) == inject_Z (Z.of_nat m) + 1.
Proof. rewrite Nat2Z.inj_succ, <- Z.add_1_r, inject_Z_plus. reflexivity. Qed.

Lemma Q_of_nat_nonneg (m : nat) : 0 <= inject_Z (Z.of_nat m).
Proof. change 0 with (inject_Z 0). rewrite <- Zle_Qle. lia. Qed.

(** X19: while a leg is active, pressing "Travel Day" with a fixed mode
    and a positive number of hours, on an edge whose difficulty is a
    positive number, completes the leg: if [n] days of the full daily
    distance cover what remains, then after at most [n] calls (at least
    one) the session is at the leg's destination with no active leg, one
    day counted per call. *)
Theorem travel_days_arrive (n : nat) (s : TravelSession) (leg : ActiveLeg)
    (mode : string) (hours d : Q) :
  active_leg s = Some leg -> 0 < hours -> difficulty_for_edge (leg_attrs leg) = Some d -> 0 < d ->
  (1 <= n)%nat -> remaining_km leg <= inject_Z (Z.of_nat n) * (speed_for_mode mode * hours * d) ->
  exists k s', (1 <= k <= n)%nat /\ travel_days k mode hours s = (Ok tt, s') /\
    active_leg s' = None /\ current_city s' = Some (destination leg) /\ day s' = (day s + k)%nat.
Proof.
  revert s leg. induction n as [|n IH]; intros s leg Hleg Hh Hd Hd0 Hn Hrem; [lia|].
  pose proof (speed_for_mode_pos mode) as Hsp.
  set (p := speed_for_mode mode * hours * d) in *.
  assert (Hp : 0 < p) by (unfold p; apply Qmult_lt_0_compat; [apply Qmult_lt_0_compat|]; assumption).
  pose proof (travel_day_run s leg mode hours d Hleg Hh Hd) as Hstep. cbv zeta in Hstep. fold p in Hstep.
  destruct Hstep as (r & s1 & Hrun & _ & _ & Hact & Hcur & _ & _ & Hday).
  destruct (isclose _ _ || Qle_bool _ _) eqn:Er.
  - exists 1%nat, s1. split; [lia|]. cbn [travel_days]. unfold_M. rewrite Hrun.
    split; [reflexivity|]. split; [exact Hact|]. split; [exact Hcur|]. lia.
  - apply orb_false_iff in Er as [_ Er]. cbn [distance_km traveled_km] in Er.
    assert (Hlt : ~ distance_km leg <= traveled_km leg + py_min p (remaining_km leg))
      by (rewrite <- Qle_bool_iff; congruence).
    unfold remaining_km, py_max0 in Hrem, Hlt.
    destruct (Qlt_le_dec 0 (distance_km leg - traveled_km leg)) as [Hpos|Hneg]; [|unfold py_min in Hlt;
      destruct (Qlt_le_dec 0 p); lra].
    unfold py_min in Hlt. destruct (Qlt_le_dec (distance_km leg - traveled_km leg) p) as [Hc|Hc]; [lra|].
    apply Qnot_le_lt in Hlt.
    set (leg' := mkLeg (origin leg) (destination leg) (leg_attrs leg) (distance_km leg) (traveled_km leg + p)).
    assert (Hact' : active_leg s1 = Some leg').
    { rewrite Hact. unfold leg', remaining_km, py_max0, py_min.
      destruct (Qlt_le_dec 0 (distance_km leg - traveled_km leg)); [|lra].
      destruct (Qlt_le_dec (distance_km leg - traveled_km leg) p); [lra|]. reflexivity. }
    destruct n as [|n]; [rewrite Q_of_nat_succ in Hrem; change (inject_Z (Z.of_nat 0)) with 0 in Hrem; lra|].
    destruct (IH s1 leg' Hact' Hh Hd Hd0) as (k & s2 & Hk & Hrun2 & Hact2 & Hcur2 & Hday2); [lia| |].
    { unfold remaining_km, py_max0, leg'. cbn [distance_km traveled_km].
      rewrite Q_of_nat_succ in Hrem. destruct (Qlt_le_dec 0 _); [|apply Qmult_le_0_compat;
        [apply Q_of_nat_nonneg|lra]].
      lra. }
    exists (S k), s2. split; [lia|]. cbn [travel_days]. unfold_M. rewrite Hrun.
    fold (travel_days k mode hours). split; [exact Hrun2|]. split; [exact Hact2|].
    split; [exact Hcur2|]. lia.
Qed.

(** ** Witnesses *)

Lemma prepared_AB_eq : prepare_graph doc_AB = Some (prepared_AB.1, prepared_AB.2).
Proof. vm_compute. reflexivity. Qed.

Lemma prepared_AB_adj :
  prepared_AB.2 = <["A" := [("B", entry_AB)]]> (<["B" := [("A", entry_AB)]]> ∅).
Proof. vm_compute. reflexivity. Qed.

Lemma gd_AB_wf : gd_wf gd_AB.
Proof.
  split; [|split].
  - apply map_Forall_insert_2; [|apply map_Forall_insert_2; [|apply map_Forall_empty]];
      (split; [reflexivity|intros v Hv; discriminate Hv]).
  - constructor; [|constructor]. exists "A", "B".
    split; [reflexivity|]. split; [vm_compute; reflexivity|].
    split; [reflexivity|]. split; [reflexivity|]. intros v Hv. vm_compute in Hv. discriminate Hv.
  - apply NoDup_singleton.
Qed.

Lemma prepare_graph_symmetric_witness : In ("A", entry_AB) (adj_get prepared_AB.2 "B").
Proof.
  apply (prepare_graph_symmetric doc_AB prepared_AB.1 prepared_AB.2 "A" "B" entry_AB prepared_AB_eq).
  rewrite prepared_AB_adj. left. reflexivity.
Defined.

Lemma prepare_graph_numeric_distance_witness :
  exists q, approx_distance entry_AB = VNum q /\ py_float (approx_distance entry_AB) = Some q.
Proof.
  apply (prepare_graph_numeric_distance doc_AB prepared_AB.1 prepared_AB.2 "A" "B" entry_AB prepared_AB_eq).
  rewrite prepared_AB_adj. left. reflexivity.
Defined.

Lemma prepare_graph_walk_reverse_witness :
  exists c' k', walk prepared_AB.2 "B" "A" (rev ["A"; "B"]) c' k' /\ c' == 10 * 1 + 0 /\ k' == 10 + 0.
Proof.
  apply (prepare_graph_walk_reverse doc_AB prepared_AB.1 prepared_AB.2 "A" "B" ["A"; "B"]
           (10 * 1 + 0) (10 + 0) prepared_AB_eq).
  apply (walk_step _ "A" "B" "B" [("B", entry_AB)] entry_AB (10 * 1) 10 ["B"] 0 0).
  - rewrite prepared_AB_adj. reflexivity.
  - left. reflexivity.
  - vm_compute. reflexivity.
  - vm_compute. reflexivity.
  - apply walk_here.
Defined.

Lemma prepare_graph_start_leg_succeeds_witness :
  exists l s', start_leg "B" trip_AB = (Ok l, s') /\ origin l = "A" /\ destination l = "B" /\
    active_leg s' = Some l /\ In ("B", leg_attrs l) (adj_get prepared_AB.2 "A").
Proof.
  apply (prepare_graph_start_leg_succeeds doc_AB prepared_AB.1 prepared_AB.2 trip_AB "A" "B" entry_AB
           prepared_AB_eq).
  - vm_compute. reflexivity.
  - vm_compute. reflexivity.
  - discriminate.
  - vm_compute. reflexivity.
  - discriminate.
  - rewrite prepared_AB_adj. left. reflexivity.
Defined.

Lemma built_graph_prepares_witness :
  exists adj, prepare_graph (to_dict built_AB) = Some (g_nodes built_AB, adj) /\
    forall k e, g_edges built_AB !! k = Some e ->
      exists d, py_float (prep_distance (edge_payload e)) = Some d /\
        In (k.2, <["approx_distance_km" := VNum d]> (edge_payload e)) (adj_get adj k.1) /\
        In (k.1, <["approx_distance_km" := VNum d]> (edge_payload e)) (adj_get adj k.2).
Proof.
  apply (built_graph_prepares ops_AB built_AB).
  - repeat constructor.
  - vm_compute. reflexivity.
  - assert (E : g_edges built_AB = {[ ("A", "B") := km 10 ∪ edge_header ("A", "B") ]})
      by (vm_compute; reflexivity).
    intros k e v Hk Hv. rewrite E in Hk.
    destruct (decide (k = ("A", "B"))) as [->|Hne].
    + rewrite lookup_singleton_eq in Hk. injection Hk as <-.
      vm_compute in Hv. destruct Hv as [Hv|Hv]; [injection Hv as <-; eexists; reflexivity|discriminate Hv].
    + rewrite lookup_singleton_ne in Hk by congruence. discriminate Hk.
Defined.

Lemma gd_save_load_roundtrip_witness : gd_load (gd_save gd_AB) = Some gd_AB.
Proof. apply (gd_save_load_roundtrip gd_AB gd_AB_wf). Defined.

Lemma gd_load_wf_witness : gd_wf loaded_AB.
Proof. apply (gd_load_wf doc_AB loaded_AB). vm_compute. reflexivity. Defined.

Lemma upsert_edge_then_find_witness :
  exists i, find_edge_index upserted_AB "B" "A" = Some (Some i) /\
    gd_edges upserted_AB !! i = Some ({[ "route_type" := VStr "road" ]} ∪
      {[ "nodes" := VList [VStr (sorted_pair "B" "A").1; VStr (sorted_pair "B" "A").2] ]}) /\
    gd_nodes upserted_AB = gd_nodes gd_AB /\
    (forall j, j <> i -> gd_edges upserted_AB !! j = gd_edges gd_AB !! j) /\
    (forall idx, find_edge_index gd_AB "B" "A" = Some (Some idx) -> i = idx) /\
    (find_edge_index gd_AB "B" "A" = Some None -> i = length (gd_edges gd_AB)).
Proof.
  apply (upsert_edge_then_find gd_AB upserted_AB "B" "A" {[ "route_type" := VStr "road" ]}).
  - reflexivity.
  - vm_compute. reflexivity.
Defined.

Lemma upsert_then_remove_edge_witness : gd_remove_edge upserted_nodes_only_AB "A" "B" = Some nodes_only_AB.
Proof.
  apply (upsert_then_remove_edge nodes_only_AB upserted_nodes_only_AB "A" "B" (km 10)).
  - vm_compute. reflexivity.
  - reflexivity.
  - vm_compute. reflexivity.
Defined.

Lemma save_edge_result_witness :
  exists i e, find_edge_index saved_AB "A" "B" = Some (Some i) /\ gd_edges saved_AB !! i = Some e /\
    e !! "approx_distance_km" = Some (VNum 12) /\ e !! "route_type" = Some (VStr "road") /\
    e !! "allowed_modes" = Some (VList [VStr "foot"]).
Proof.
  destruct (save_edge_result gd_AB saved_AB form_AB) as (i & e & Hf & He & _ & _ & _ & _ & _ & _ & _ & _ & Hm & _ & Hrt & Hd & _).
  - vm_compute. reflexivity.
  - discriminate.
  - discriminate.
  - discriminate.
  - discriminate.
  - left. split; eexists; reflexivity.
  - exists i, e. split; [exact Hf|]. split; [exact He|]. split; [exact Hd|]. split; [exact Hrt|exact Hm].
Defined.

Lemma save_node_then_select_witness :
  on_node_select (save_node gd_AB "C" true) (node_label (save_node gd_AB "C" true) "C") = ("C", true).
Proof.
  destruct (save_node_then_select gd_AB "C" true) as (_ & _ & _ & H); [discriminate|].
  apply H. left. reflexivity.
Defined.

Lemma session_stays_on_nodes_witness :
  (forall c, current_city on_leg_AB = Some c -> is_Some (nodes_AB !! c)) /\
  (forall l, active_leg on_leg_AB = Some l -> is_Some (nodes_AB !! destination l)).
Proof.
  apply (session_stays_on_nodes nodes_AB
           (<["A" := [("B", edge_attrs_50 ∅)]]> (<["B" := [("A", edge_attrs_50 ∅)]]> ∅))).
  - intros u v a Hin. unfold adj_get in Hin.
    destruct (decide (u = "A")) as [->|H1].
    + rewrite lookup_insert_eq in Hin. destruct Hin as [E|[]]. injection E as <- _.
      vm_compute. eexists. reflexivity.
    + rewrite lookup_insert_ne in Hin by congruence.
      destruct (decide (u = "B")) as [->|H2].
      * rewrite lookup_insert_eq in Hin. destruct Hin as [E|[]]. injection E as <- _.
        vm_compute. eexists. reflexivity.
      * rewrite lookup_insert_ne, lookup_empty in Hin by congruence. destruct Hin.
  - apply (reach_start _ (snd (reset_trip "A" "B" (session_AB (edge_attrs_50 ∅)))) "B" leg_AB50).
    + apply (reach_reset _ (session_AB (edge_attrs_50 ∅)) "A" "B"); [apply reach_init|].
      vm_compute. reflexivity.
    + vm_compute. reflexivity.
Defined.

Lemma travel_day_progress_witness :
  exists r s', travel_day "foot" 8 on_leg_AB = (Ok r, s') /\
    0 < res_traveled_km r /\ res_traveled_km r <= remaining_km leg_AB50 /\
    total_traveled_km s' = total_traveled_km on_leg_AB + res_traveled_km r /\
    day s' = S (day on_leg_AB) /\ res_day r = S (day on_leg_AB).
Proof.
  apply (travel_day_progress on_leg_AB leg_AB50 "foot" 8 1).
  - vm_compute. reflexivity.
  - vm_compute. reflexivity.
  - vm_compute. reflexivity.
  - vm_compute. reflexivity.
  - vm_compute. reflexivity.
Defined.

Lemma remove_node_wf_witness :
  exists g', gd_remove_node gd_AB "A" = Some g' /\ gd_nodes g' = delete "A" (gd_nodes gd_AB) /\
    gd_edges g' `sublist_of` gd_edges gd_AB /\
    (forall e, In e (gd_edges g') <->
       In e (gd_edges gd_AB) /\ forall u v, edge_endpoints e = Some (u, v) -> u <> "A" /\ v <> "A") /\
    gd_wf g'.
Proof. apply (remove_node_wf gd_AB "A" gd_AB_wf). Defined.

Lemma editor_save_prepares_witness :
  exists ns adj, prepare_graph (gd_save gd_AB) = Some (ns, adj) /\
    (forall k, ns !! k = (fun a => a ∪ {[ "id" := VStr k ]}) <$> gd_nodes gd_AB !! k) /\
    forall e u v, In e (gd_edges gd_AB) -> e !! "nodes" = Some (VList [VStr u; VStr v]) ->
      exists d, py_float (prep_distance (edge_payload e)) = Some d /\
        In (v, <["approx_distance_km" := VNum d]> (edge_payload e)) (adj_get adj u) /\
        In (u, <["approx_distance_km" := VNum d]> (edge_payload e)) (adj_get adj v).
Proof.
  apply (editor_save_prepares gd_AB gd_AB_wf).
  intros e v [<-|[]] Hv. vm_compute in Hv.
  destruct Hv as [Hv|Hv]; [injection Hv as <-; eexists; reflexivity|discriminate Hv].
Defined.

Lemma editor_edits_keep_wf_witness :
  (forall f, exists g', save_edge gd_AB f = Some g' /\ gd_wf g') /\
  (forall nid p, gd_wf (save_node gd_AB nid p)) /\
  (forall a b, exists g', gd_remove_edge gd_AB a b = Some g' /\ gd_wf g').
Proof. apply (editor_edits_keep_wf gd_AB gd_AB_wf). Defined.

Lemma travel_days_arrive_witness :
  exists k s', (1 <= k <= 2)%nat /\ travel_days k "foot" 8 on_leg_AB = (Ok tt, s') /\
    active_leg s' = None /\ current_city s' = Some "B" /\ day s' = (day on_leg_AB + k)%nat.
Proof.
  apply (travel_days_arrive 2 on_leg_AB leg_AB50 "foot" 8 1).
  - vm_compute. reflexivity.
  - vm_compute. reflexivity.
  - vm_compute. reflexivity.
  - vm_compute. reflexivity.
  - lia.
  - vm_compute. intros H. discriminate H.
Defined.
